(** * radixsort_lib.cpp: a shallow embedding of the radix sort library

    The C++ templates are embedded as functions over a flat memory of
    elements.  Pointers are addresses into that memory, so that pointer
    arithmetic ([src+a]), pointer comparison ([ret!=src]) and the role
    swaps of the buffers read as in the source.  An access outside the
    memory is undefined behaviour in the source; here it makes the
    computation fail ([None]).

    Loops whose trip count is not given by a counter ([while], and the
    [for] loops with a data dependent condition) are run with a bound
    [gas] on the number of iterations; the template recursion on the
    remaining key width is run with a bound [depth] on its nesting. *)

From stdpp Require Import base tactics option numbers list sets sorting.

(** [CHAR_BIT] of <climits>. *)
Definition CHAR_BIT : nat := 8.

(** ** Control structures *)

(** [for(i=i0; i<i0+count; ++i) body] over a loop state [St]. *)
Fixpoint for_loop {St : Type} (body : nat → St → option St)
    (i count : nat) (s : St) : option St :=
  match count with
  | 0 => Some s
  | S count' => s' ← body i s; for_loop body (S i) count' s'
  end.

(** A loop with exits: [step] either continues with a new state ([inl])
    or leaves the loop with a result ([inr]). *)
Fixpoint loop {St R : Type} (gas : nat) (step : St → option (St + R))
    (s : St) : option R :=
  match gas with
  | 0 => None
  | S gas' =>
      r ← step s;
      match r with
      | inl s' => loop gas' step s'
      | inr r => Some r
      end
  end.

(** Arrays: reads and writes inside the bounds only. *)
Definition aget {A : Type} (a : list A) (i : nat) : option A := a !! i.

Definition aset {A : Type} (a : list A) (i : nat) (v : A) : option (list A) :=
  if decide (i < length a) then Some (<[i:=v]> a) else None.

(** [++c[i]] *)
Definition incr (c : list nat) (i : nat) : option (list nat) :=
  x ← aget c i; aset c i (x + 1).

(** [!destination] and [destination^1] on [int]. *)
Definition lnot (x : Z) : Z := if decide (x = 0%Z) then 1%Z else 0%Z.
Definition xor1 (x : Z) : Z := Z.lxor x 1.

(** The traits of the exported instance: [KeyType] and [ItemType] are
    [std::uint32_t], an item is its own key.  Items are numbers, read
    modulo [2^32]. *)
Module GetKey.

Definition get_key (src : N) : N := (src mod 2 ^ 32)%N.

End GetKey.

(** ** The key helpers of the header comment

    The header of the library gives two functions that make unsigned keys
    from signed integers and from floats.  Machine integers are numbers
    with the wrap-around written out. *)

(** [uint32_t(x)] and [int32_t(x)] (two's complement). *)
Definition to_uint32 (x : Z) : Z := (x mod 2 ^ 32)%Z.
Definition to_int32 (x : Z) : Z := ((x + 2 ^ 31) mod 2 ^ 32 - 2 ^ 31)%Z.

Definition INT32_MIN : Z := (- 2 ^ 31)%Z.

(** [return uint32_t(x)-uint32_t(INT32_MIN);] *)
Definition make_key_from_signed (x : Z) : Z :=
  to_uint32 (to_uint32 x - to_uint32 INT32_MIN).

(** [memcpy(&ret,&x,sizeof(ret));
     ret=ret^(uint32_t(int32_t(ret)>>31)|uint32_t(0x80000000ul));
     return ret-0x007FFFFFul;]
    as a function of the 32 bits [ret] of the float [x]; the right shift
    of the signed value extends the sign. *)
Definition make_key_from_float (ret : Z) : Z :=
  let ret :=
    to_uint32
      (Z.lxor ret
         (Z.lor (to_uint32 (Z.shiftr (to_int32 ret) 31))
                (to_uint32 0x80000000))) in
  to_uint32 (ret - 0x007FFFFF).

(** The order of the binary32 floats read on their bits: bit 31 is the
    sign, the low 31 bits are the magnitude, a magnitude above that of the
    infinity [0x7F800000] is a NaN, and the other floats are ordered as
    their signed magnitudes. *)
Definition float_sign (bits : Z) : bool := bool_decide (2 ^ 31 ≤ bits)%Z.
Definition float_magnitude (bits : Z) : Z := (bits mod 2 ^ 31)%Z.
Definition float_is_nan (bits : Z) : Prop :=
  (0x7F800000 < float_magnitude bits)%Z.
Definition float_signed_magnitude (bits : Z) : Z :=
  if float_sign bits then (- float_magnitude bits)%Z else float_magnitude bits.

Section radixsort.

Context {T : Type}.

(** [T()], the value of a default constructed element. *)
Variable T_default : T.

(** [Traits::get_key], with [sizeof] of its result and of [T]. *)
Variable get_key : T → N.
Variable sizeof_key : nat.
Variable sizeof_T : N.

(** ** Memory *)

(** The memory is a sequence of cells holding elements; a pointer is the
    address of a cell. *)
Local Abbreviation mem := (list T) (only parsing).
Local Abbreviation ptr := nat (only parsing).

(** [p[i]] *)
Definition load (m : mem) (p : ptr) (i : nat) : option T := aget m (p + i).

(** [p[i]=v] *)
Definition store (m : mem) (p : ptr) (i : nat) (v : T) : option mem :=
  aset m (p + i) v.

(** [get_key(x)<get_key(y)] *)
Definition key_lt (x y : T) : bool := bool_decide (get_key x < get_key y)%N.

(** [for(size_t i=0;i<n;++i) dst[i]=src[i];] *)
Definition copy_loop (src dst : ptr) (n : nat) (m : mem) : option mem :=
  for_loop (λ i m, x ← load m src i; store m dst i x) 0 n m.

(** ** fallback_sort *)

(** [for(;j>0&&get_key(t)<get_key(d[j-1]);--j) d[j]=d[j-1];] *)
Definition insertion_shift (gas : nat) (d : ptr) (t : T) (j : nat) (m : mem)
    : option (nat * mem) :=
  loop gas (λ '(j, m),
    if decide (0 < j) then
      x ← load m d (j - 1);
      if key_lt t x then
        m ← store m d j x;
        Some (inl (j - 1, m))
      else Some (inr (j, m))
    else Some (inr (j, m))) (j, m).

Definition insertion_sort (gas : nat) (src d : ptr) (n : nat) (m : mem)
    : option mem :=
  m ← (if decide (0 < n) then x ← load m src 0; store m d 0 x else Some m);
  for_loop (λ i m,
    t ← load m src i;
    '(j, m) ← insertion_shift gas d t i m;
    store m d j t) 1 (n - 1) m.

(** The [while(true)] of the merge, left by [break] when one run is used up. *)
Definition merge_loop (gas : nat) (l r d : ptr) (a b : nat) (m : mem)
    : option (nat * nat * nat * mem) :=
  loop gas (λ '(i, j, k, m),
    x ← load m r j;
    y ← load m l i;
    if key_lt x y then
      m ← store m d k x;
      let k := k + 1 in
      let j := j + 1 in
      if decide (j = b) then Some (inr (i, j, k, m)) else Some (inl (i, j, k, m))
    else
      m ← store m d k y;
      let k := k + 1 in
      let i := i + 1 in
      if decide (i = a) then Some (inr (i, j, k, m)) else Some (inl (i, j, k, m)))
    (0, 0, 0, m).

(** [while(i<lim) d[k++]=p[i++];] *)
Definition copy_tail (gas : nat) (p d : ptr) (i lim k : nat) (m : mem)
    : option mem :=
  loop gas (λ '(i, k, m),
    if decide (i < lim) then
      x ← load m p i;
      m ← store m d k x;
      Some (inl (i + 1, k + 1, m))
    else Some (inr m)) (i, k, m).

Fixpoint fallback_sort (gas : nat) (src tmp : ptr) (n : nat) (destination : Z)
    (m : mem) : option (ptr * mem) :=
  match gas with
  | 0 => None
  | S gas' =>
      let d := if decide (destination = 0%Z) then src else tmp in
      if decide (n ≤ 18) then
        m ← insertion_sort gas src d n m;
        Some (d, m)
      else
        let a := n / 2 in
        let b := n - a in
        '(_, m) ← fallback_sort gas' src tmp a (lnot destination) m;
        '(_, m) ← fallback_sort gas' (src + a) (tmp + a) b (lnot destination) m;
        let l := if decide (destination = 0%Z) then tmp else src in
        let r := l + a in
        '(i, j, k, m) ← merge_loop gas l r d a b m;
        m ← (if decide (i = a) then copy_tail gas r d j b k m
             else copy_tail gas l d i a k m);
        Some (d, m)
  end.

(** ** The counting pass *)

(** [size_t(get_key(x)>>OFFSET)&MASK] *)
Definition digit (OFFSET MASK : nat) (x : T) : nat :=
  N.to_nat (N.land (N.shiftr (get_key x) (N.of_nat OFFSET)) (N.of_nat MASK)).

(** The histogram, unrolled twice into the even and odd slots of [c], and
    the running sum that overwrites [c[0..SIZE)] with the bucket starts. *)
Definition count_digits (OFFSET MASK SIZE : nat) (src : ptr) (n : nat) (m : mem)
    : option (list nat) :=
  let c := replicate (2 * SIZE) 0 in
  c ← for_loop (λ i c,
        x0 ← load m src (2 * i);
        x1 ← load m src (2 * i + 1);
        let k0 := digit OFFSET MASK x0 in
        let k1 := digit OFFSET MASK x1 in
        c ← incr c (2 * k0);
        incr c (2 * k1 + 1)) 0 (n / 2) c;
  c ← (if decide (Nat.land n 1 ≠ 0) then
         x ← load m src (n - 1);
         incr c (2 * digit OFFSET MASK x)
       else Some c);
  '(c, _) ← for_loop (λ j '(c, s),
        let t := s in
        e ← aget c (2 * j);
        o ← aget c (2 * j + 1);
        let s := s + (e + o) in
        c ← aset c j t;
        Some (c, s)) 0 SIZE (c, 0);
  Some c.

(** [for(size_t j=0;j+1<SIZE;++j) if(c[j+1]-c[j]==n) goto skip;]
    [true] when the jump is taken. *)
Fixpoint find_full_bucket (c : list nat) (n j count : nat) : option bool :=
  match count with
  | 0 => Some false
  | S count' =>
      hi ← aget c (j + 1);
      lo ← aget c j;
      if decide (hi - lo = n) then Some true
      else find_full_bucket c n (S j) count'
  end.

(** The scatter of the out-of-place engines (the prefetch has no effect). *)
Definition scatter (OFFSET MASK : nat) (src dst : ptr) (n : nat)
    (c : list nat) (m : mem) : option (list nat * mem) :=
  for_loop (λ i '(c, m),
    x ← load m src i;
    let k := digit OFFSET MASK x in
    ck ← aget c k;
    m ← store m dst ck x;
    c ← aset c k (ck + 1);
    Some (c, m)) 0 n (c, m).

(** ** The counting pass of each engine *)

(** The pass of [radix_sort_msd_impl], from the counters to the label
    [skip]: when one of the buckets tested holds all the elements, the
    buffers exchange their roles and nothing is copied; otherwise the
    elements are scattered.  The result is the new [src], [dst],
    [destination], the counters and the memory. *)
Definition msd_partition (OFFSET MASK SIZE : nat) (src dst : ptr) (n : nat)
    (destination : Z) (m : mem) : option (ptr * ptr * Z * list nat * mem) :=
  c ← count_digits OFFSET MASK SIZE src n m;
  full ← find_full_bucket c n 0 (SIZE - 1);
  if full : bool then
    Some (dst, src, xor1 destination, c, m)
  else
    '(c, m) ← scatter OFFSET MASK src dst n c m;
    Some (src, dst, destination, c, m).

(** The pass of [radix_sort_lsd_impl], up to the label [skip]. *)
Definition lsd_partition (OFFSET MASK SIZE : nat) (src dst : ptr) (n : nat)
    (m : mem) : option (ptr * ptr * mem) :=
  c ← count_digits OFFSET MASK SIZE src n m;
  full ← find_full_bucket c n 0 (SIZE - 1);
  if full : bool then Some (dst, src, m)
  else
    '(_, m) ← scatter OFFSET MASK src dst n c m;
    Some (src, dst, m).

(** ** radix_sort_msd_impl *)

(** The constants [SIZE=1u<<LOG2SIZE] and the shifts [get_key(x)>>OFFSET]
    of the three engines are the power [2^LOG2SIZE] and the shift of the
    key as numbers: this is what the source computes for a radix width
    below the 32 bits of [unsigned] and an [OFFSET] within the key, the
    range that the library instantiates ([BITS] 8 and 11 on the whole key)
    and that the theorems about the engines assume. *)

Fixpoint radix_sort_msd_impl (depth gas : nat) (WIDTH BITS THRESHOLD : nat)
    (src dst : ptr) (n : nat) (destination : Z) (m : mem)
    : option (ptr * mem) :=
  match depth with
  | 0 => None
  | S depth' =>
      let LOG2SIZE := if decide (BITS < WIDTH) then BITS else WIDTH in
      let SIZE := 2 ^ LOG2SIZE in
      let OFFSET := WIDTH - LOG2SIZE in
      let MASK := SIZE - 1 in
      if decide (n < THRESHOLD) then fallback_sort gas src dst n destination m
      else
        '(src, dst, destination, c, m) ←
          msd_partition OFFSET MASK SIZE src dst n destination m;
        let out := if decide (destination = 0%Z) then src else dst in
        m ← (if decide (0 < OFFSET) then
               '(_, m) ← for_loop (λ j '(b, m),
                  cj ← aget c j;
                  m ← match cj - b with
                      | 0 => Some m
                      | 1 => x ← load m dst b; store m out b x
                      | 2 =>
                          x1 ← load m dst (b + 1);
                          x0 ← load m dst b;
                          let flip := key_lt x1 x0 in
                          L ← load m dst (b + (if flip then 1 else 0));
                          H ← load m dst (b + (if flip then 0 else 1));
                          m ← store m out b L;
                          store m out (b + 1) H
                      | _ =>
                          '(_, m) ← radix_sort_msd_impl depth' gas
                            (if decide (0 < OFFSET) then OFFSET else WIDTH)
                            BITS THRESHOLD (dst + b) (src + b) (cj - b)
                            (xor1 destination) m;
                          Some m
                      end;
                  Some (cj, m)) 0 SIZE (0, m);
               Some m
             else Some m);
        m ← (if decide (OFFSET = 0 ∧ destination = 0%Z) then copy_loop dst src n m
             else Some m);
        Some (out, m)
  end.

(** ** radix_sort_lsd_impl *)

Fixpoint radix_sort_lsd_impl (depth : nat) (WIDTH BITS : nat)
    (src dst : ptr) (n : nat) (m : mem) : option (ptr * mem) :=
  match depth with
  | 0 => None
  | S depth' =>
      let OFFSET := sizeof_key * CHAR_BIT - WIDTH in
      let SIZE := 2 ^ (if decide (BITS < WIDTH) then BITS else WIDTH) in
      let MASK := SIZE - 1 in
      '(src, dst, m) ← lsd_partition OFFSET MASK SIZE src dst n m;
      if decide (BITS < WIDTH) then
        radix_sort_lsd_impl depth'
          (if decide (BITS < WIDTH) then WIDTH - BITS else WIDTH) BITS dst src n m
      else Some (dst, m)
  end.

(** ** radix_sort_msd_inplace_impl *)

(** The chase of the in-place scatter:
    [while(j!=h) {T t=src[c[h]]; src[c[h]++]=src[k]; src[k]=t; h=digit(t);}] *)
Definition chase (gas : nat) (OFFSET MASK : nat) (src : ptr) (j k h : nat)
    (c : list nat) (m : mem) : option (list nat * mem) :=
  loop gas (λ '(h, c, m),
    if decide (j ≠ h) then
      ch ← aget c h;
      t ← load m src ch;
      xk ← load m src k;
      m ← store m src ch xk;
      c ← aset c h (ch + 1);
      m ← store m src k t;
      Some (inl (digit OFFSET MASK t, c, m))
    else Some (inr (c, m))) (h, c, m).

(** [for(;c[j]!=d[j];++c[j]) {...}] with [d=c+SIZE]. *)
Definition fill_bucket (gas : nat) (OFFSET MASK SIZE : nat) (src : ptr)
    (j : nat) (c : list nat) (m : mem) : option (list nat * mem) :=
  loop gas (λ '(c, m),
    cj ← aget c j;
    dj ← aget c (SIZE + j);
    if decide (cj ≠ dj) then
      let k := cj in
      xk ← load m src k;
      let h := digit OFFSET MASK xk in
      '(c, m) ← chase gas OFFSET MASK src j k h c m;
      c ← incr c j;
      Some (inl (c, m))
    else Some (inr (c, m))) (c, m).

Definition scatter_inplace (gas : nat) (OFFSET MASK SIZE : nat) (src : ptr)
    (c : list nat) (m : mem) : option (list nat * mem) :=
  for_loop (λ j '(c, m), fill_bucket gas OFFSET MASK SIZE src j c m)
    0 SIZE (c, m).

(** The pass of [radix_sort_msd_inplace_impl], up to the label [skip]:
    the counters, the ends of the buckets in [d=c+SIZE], and the
    permutation unless one of the buckets tested holds all the elements. *)
Definition inplace_partition (gas : nat) (OFFSET MASK SIZE : nat) (src : ptr)
    (n : nat) (m : mem) : option (list nat * mem) :=
  c ← count_digits OFFSET MASK SIZE src n m;
  c ← for_loop (λ j c, x ← aget c (j + 1); aset c (SIZE + j) x)
        0 (SIZE - 1) c;
  c ← aset c (SIZE + (SIZE - 1)) n;
  full ← find_full_bucket c n 0 (SIZE - 1);
  if full : bool then Some (c, m)
  else scatter_inplace gas OFFSET MASK SIZE src c m.

Fixpoint radix_sort_msd_inplace_impl (depth gas : nat)
    (WIDTH BITS THRESHOLD : nat) (src : ptr) (n : nat) (m : mem)
    : option mem :=
  match depth with
  | 0 => None
  | S depth' =>
      let LOG2SIZE := if decide (BITS < WIDTH) then BITS else WIDTH in
      let SIZE := 2 ^ LOG2SIZE in
      let OFFSET := WIDTH - LOG2SIZE in
      let MASK := SIZE - 1 in
      if decide (n < THRESHOLD) then
        (* T tmp[THRESHOLD]: a local array, released on return *)
        let tmp := length m in
        let m := m ++ replicate THRESHOLD T_default in
        '(_, m) ← fallback_sort gas src tmp n 0 m;
        Some (take tmp m)
      else
        '(c, m) ← inplace_partition gas OFFSET MASK SIZE src n m;
        if decide (0 < OFFSET) then
          '(_, m) ← for_loop (λ j '(b, m),
             dj ← aget c (SIZE + j);
             m ← match dj - b with
                 | 0 | 1 => Some m
                 | 2 =>
                     x1 ← load m src (b + 1);
                     x0 ← load m src b;
                     if key_lt x1 x0 then
                       tmp ← load m src (b + 1);
                       y ← load m src b;
                       m ← store m src (b + 1) y;
                       store m src b tmp
                     else Some m
                 | _ =>
                     radix_sort_msd_inplace_impl depth' gas
                       (if decide (0 < OFFSET) then OFFSET else WIDTH)
                       BITS THRESHOLD (src + b) (dj - b) m
                 end;
             Some (dj, m)) 0 SIZE (0, m);
          Some m
        else Some m
  end.

(** ** The out-of-place wrappers *)

Definition radix_sort_msd (depth gas : nat) (BITS THRESHOLD : nat)
    (src tmp : ptr) (n : nat) (destination : Z) (m : mem)
    : option (ptr * mem) :=
  let destination := if decide (destination ≠ 1%Z) then 0%Z else destination in
  radix_sort_msd_impl depth gas (sizeof_key * CHAR_BIT) BITS THRESHOLD
    src tmp n destination m.

Definition radix_sort_lsd (depth : nat) (BITS : nat)
    (src tmp : ptr) (n : nat) (destination : Z) (m : mem)
    : option (ptr * mem) :=
  '(ret, m) ← radix_sort_lsd_impl depth (sizeof_key * CHAR_BIT) BITS src tmp n m;
  '(ret, m) ← (if decide (destination = 0%Z ∧ ret ≠ src) then
                 m ← copy_loop tmp src n m; Some (src, m)
               else Some (ret, m));
  '(ret, m) ← (if decide (destination = 1%Z ∧ ret ≠ tmp) then
                 m ← copy_loop src tmp n m; Some (tmp, m)
               else Some (ret, m));
  Some (ret, m).

(** ** The exported functions *)

(** The choice of the most significant digit engine in [radix_sort_stable]. *)
Definition use_msd (n : nat) (mode : Z) : Prop :=
  mode ≠ 0%Z ∧
  (mode = 1%Z ∨ (N.of_nat n < 1500)%N ∨
   (40 < N.of_nat (sizeof_key * CHAR_BIT))%N ∨
   ((64 < sizeof_T * N.of_nat CHAR_BIT)%N ∧
    (10000000 / sizeof_T < N.of_nat n)%N)).

(** [bits], as both entry points choose it. *)
Definition choose_bits (n : nat) : nat :=
  let bits := 8 in
  let bits := if decide ((4000 < N.of_nat n)%N ∧ (N.of_nat n < 60000)%N)
              then 11 else bits in
  let bits := if decide ((2000000 < N.of_nat n)%N ∧ (N.of_nat n < 9000000)%N)
              then 11 else bits in
  bits.

Definition radix_sort_stable (depth gas : nat) (src tmp : ptr) (n : nat)
    (destination mode : Z) (m : mem) : option (ptr * mem) :=
  if decide (use_msd n mode) then
    let bits := choose_bits n in
    if decide (bits = 8) then radix_sort_msd depth gas 8 128 src tmp n destination m
    else radix_sort_msd depth gas 11 256 src tmp n destination m
  else radix_sort_lsd depth 8 src tmp n destination m.

Definition radix_sort_inplace (depth gas : nat) (src : ptr) (n : nat) (m : mem)
    : option mem :=
  let bits := choose_bits n in
  if decide (bits = 8) then
    radix_sort_msd_inplace_impl depth gas (sizeof_key * CHAR_BIT) 8 128 src n m
  else
    radix_sort_msd_inplace_impl depth gas (sizeof_key * CHAR_BIT) 11 256 src n m.

(** ** Specifications *)

(** The [n] cells from address [p] on. *)
Definition range (m : mem) (p : ptr) (n : nat) : list T := take n (drop p m).

(** [a] is one of the [n] addresses from [p] on. *)
Definition within (p : ptr) (n : nat) (a : nat) : Prop := p ≤ a < p + n.

(** [m'] has the cells of [m] wherever [R] does not hold. *)
Definition unchanged_outside (R : nat → Prop) (m m' : mem) : Prop :=
  length m' = length m ∧ ∀ a, ¬ R a → m' !! a = m !! a.

(** Order of the keys [kf], and of [get_key]. *)
Definition sorted_by (kf : T → N) : list T → Prop :=
  StronglySorted (λ x y, (kf x ≤ kf y)%N).

Definition sorted : list T → Prop := sorted_by get_key.

(** The elements of each key are the same, in the same order. *)
Definition same_runs (kf : T → N) (l l' : list T) : Prop :=
  ∀ k, filter (λ x, kf x = k) l' = filter (λ x, kf x = k) l.

(** [l'] is the stable sort of [l]: sorted, with every run of equal keys
    in the order of [l]. *)
Definition stable_sort_of (kf : T → N) (l l' : list T) : Prop :=
  sorted_by kf l' ∧ same_runs kf l l'.

(** [l'] is a sort of [l]. *)
Definition sort_of (l l' : list T) : Prop := sorted l' ∧ l ≡ₚ l'.

(** Every adjacent pair is in order. *)
Definition adjacent_sorted (l : list T) : Prop :=
  ∀ i x y, l !! i = Some x → l !! (i + 1) = Some y →
    (get_key x ≤ get_key y)%N.

(** The merge of two runs, taking from the right run only what is
    strictly below the head of the left run. *)
Definition key_le (x y : T) : Prop := (get_key x ≤ get_key y)%N.

Local Instance key_le_dec (x y : T) : Decision (key_le x y) :=
  decide (get_key x ≤ get_key y)%N.

Definition merge_runs (l r : list T) : list T := list_merge key_le l r.

(** The addresses of the two buffers of [n] elements at [src] and [tmp]. *)
Definition buffers (src tmp n : nat) (a : nat) : Prop :=
  within src n a ∨ within tmp n a.

(** The two buffers do not overlap. *)
Definition disjoint (src tmp n : nat) : Prop := src + n ≤ tmp ∨ tmp + n ≤ src.

(** ** Digits and buckets *)

(** The number of elements of [l] with digit [v]. *)
Definition count_of (dig : T → nat) (v : nat) (l : list T) : nat :=
  length (filter (λ x, dig x = v) l).

(** The number of elements of [l] with a digit below [j]: where the
    bucket of [j] starts. *)
Definition bucket_start (dig : T → nat) (j : nat) (l : list T) : nat :=
  length (filter (λ x, dig x < j) l).

(** The buckets of the digits [0..SIZE), each in the order of [l]. *)
Definition buckets (dig : T → nat) (SIZE : nat) (l : list T) : list (list T) :=
  (λ v, filter (λ x, dig x = v) l) <$> seq 0 SIZE.

(** The sum of the even and the odd counter of the digit [v]. *)
Definition pair_sum (c : list nat) (v : nat) : nat :=
  c !!! (2 * v) + c !!! (2 * v + 1).

(** The plain counting pass: one histogram with a counter per digit value,
    and its exclusive prefix sum. *)
Definition plain_histogram (dig : T → nat) (SIZE : nat) (l : list T) : list nat :=
  foldl (λ h x, alter S (dig x) h) (replicate SIZE 0) l.

Fixpoint exclusive_prefix_sum (s : nat) (h : list nat) : list nat :=
  match h with
  | [] => []
  | x :: h => s :: exclusive_prefix_sum (s + x) h
  end.

(** ** Slices of the key *)

(** The key without its [w] low bits, and its [w] low bits. *)
Definition key_hi (w : nat) (x : T) : N := (get_key x / 2 ^ N.of_nat w)%N.
Definition key_lo (w : nat) (x : T) : N := (get_key x mod 2 ^ N.of_nat w)%N.

(** The elements agree on all the bits above the [w] low bits. *)
Definition same_hi (w : nat) (l : list T) : Prop :=
  ∀ x y, x ∈ l → y ∈ l → key_hi w x = key_hi w y.

(** ** Contracts of the engines *)

(** [radix_sort_msd_impl] at a given depth and width: the stable sort of
    [src[0..n)], whose keys agree above the low [WIDTH] bits, ends up in
    the buffer that [destination] selects. *)
Definition msd_contract (depth gas WIDTH BITS THRESHOLD : nat) : Prop :=
  ∀ (src dst n : nat) (destination : Z) (m : list T),
    n < gas → src + n ≤ length m → dst + n ≤ length m → disjoint src dst n →
    (destination = 0 ∨ destination = 1)%Z →
    same_hi WIDTH (range m src n) →
    ∃ m', radix_sort_msd_impl depth gas WIDTH BITS THRESHOLD src dst n
            destination m
        = Some (if decide (destination = 0%Z) then src else dst, m') ∧
      length m' = length m ∧
      stable_sort_of get_key (range m src n)
        (range m' (if decide (destination = 0%Z) then src else dst) n) ∧
      unchanged_outside (buffers src dst n) m m'.

(** ** The in-place scatter *)

(** The state of the in-place scatter of the range [src[0..n)] that held
    [l] in the memory [m0]: the range is a permutation of [l], the ends of
    the buckets are in the upper half of [c], and the cursor [c[v]] of each
    bucket is inside the bucket, with only elements of digit [v] below it. *)
Definition inplace_inv (dig : T → nat) (SIZE src n : nat) (l m0 : list T)
    (c : list nat) (m : list T) : Prop :=
  length m = length m0 ∧ unchanged_outside (within src n) m0 m ∧
  range m src n ≡ₚ l ∧
  length c = 2 * SIZE ∧
  (∀ v, v < SIZE → c !! (SIZE + v) = Some (bucket_start dig (S v) l)) ∧
  (∀ v, v < SIZE →
     bucket_start dig v l ≤ c !!! v ≤ bucket_start dig (S v) l ∧
     ∀ i, bucket_start dig v l ≤ i < c !!! v →
       ∃ x, m !! (src + i) = Some x ∧ dig x = v).

(** The buckets below [j] are filled. *)
Definition complete_below (dig : T → nat) (l : list T) (j : nat)
    (c : list nat) : Prop :=
  ∀ v, v < j → c !!! v = bucket_start dig (S v) l.

(** What is left to place. *)
Definition unplaced (dig : T → nat) (SIZE : nat) (l : list T) (c : list nat)
    : nat :=
  sum_list_with (λ v, bucket_start dig (S v) l - c !!! v) (seq 0 SIZE).

(** [radix_sort_msd_inplace_impl] at a given depth and width: [src[0..n)],
    whose keys agree above the low [WIDTH] bits, is sorted in place. *)
Definition inplace_contract (depth gas WIDTH BITS THRESHOLD : nat) : Prop :=
  ∀ (src n : nat) (m : list T),
    n < gas → src + n ≤ length m → same_hi WIDTH (range m src n) →
    ∃ m', radix_sort_msd_inplace_impl depth gas WIDTH BITS THRESHOLD src n m
        = Some m' ∧
      length m' = length m ∧
      sort_of (range m src n) (range m' src n) ∧
      unchanged_outside (within src n) m m'.

(** The segments of a range at the places of the buckets of [l]. *)
Definition segments (dig : T → nat) (K : nat) (l : list T) (m : list T)
    (p : nat) : list (list T) :=
  (λ v, range m (p + bucket_start dig v l) (count_of dig v l)) <$> seq 0 K.

(** ** The entry points *)

(** The width of the key in bits. *)
Definition key_bits : nat := sizeof_key * CHAR_BIT.

(** [get_key] returns an unsigned integer of [sizeof_key] bytes. *)
Definition key_fits : Prop :=
  0 < sizeof_key ∧ ∀ x, (get_key x < 2 ^ N.of_nat key_bits)%N.

(** [ceil(a/b)] *)
Definition div_ceil (a b : nat) : nat := (a + b - 1) / b.

(** The radix width that [radix_sort_stable] sorts with. *)
Definition stable_bits (n : nat) (mode : Z) : nat :=
  if decide (use_msd n mode) then choose_bits n else 8.

(** The selection of the engine and of the radix width, in the words of
    the specification. *)
Definition spec_selects_msd (n : nat) (mode : Z) : Prop :=
  mode = 1%Z ∨
  (mode ≠ 0%Z ∧ mode ≠ 1%Z ∧
   ((N.of_nat n < 1500)%N ∨ (40 < N.of_nat key_bits)%N ∨
    ((64 < sizeof_T * 8)%N ∧ (10000000 / sizeof_T < N.of_nat n)%N))).

Definition spec_selects_11_bits (n : nat) : Prop :=
  (4000 < N.of_nat n < 60000)%N ∨ (2000000 < N.of_nat n < 9000000)%N.

(** Reduce the binds of the computation in the goal. *)
Ltac mstep := cbn [mbind option_bind mret option_ret].

(** ** Loop rules *)

(** A [for] loop whose body keeps the invariant [I] runs to its end. *)
Lemma for_loop_inv {St : Type} (I : nat → St → Prop)
    (body : nat → St → option St) (i count : nat) (s : St) :
  I i s →
  (∀ k s, i ≤ k < i + count → I k s →
     ∃ s', body k s = Some s' ∧ I (S k) s') →
  ∃ s', for_loop body i count s = Some s' ∧ I (i + count) s'.
Proof.
  revert i s. induction count as [|count IH]; intros i s Hi Hbody; simpl.
  - exists s. by rewrite Nat.add_0_r.
  - destruct (Hbody i s) as (s' & -> & Hs'); [lia|done|]. simpl.
    destruct (IH (S i) s') as (s'' & -> & Hs''); [done| |].
    + intros k s0 Hk. apply Hbody. lia.
    + exists s''. split; [done|]. by replace (i + S count) with (S i + count) by lia.
Qed.

(** A loop whose steps keep [I] and decrease the measure [V] leaves
    through one of its exits before [gas] runs out. *)
Lemma loop_inv {St R : Type} (I : St → Prop) (V : St → nat) (Q : R → Prop)
    (step : St → option (St + R)) (gas : nat) (s : St) :
  I s → V s < gas →
  (∀ s, I s →
     match step s with
     | Some (inl s') => I s' ∧ V s' < V s
     | Some (inr r) => Q r
     | None => False
     end) →
  ∃ r, loop gas step s = Some r ∧ Q r.
Proof.
  intros Hs Hgas Hstep. revert s Hs Hgas.
  induction gas as [|gas IH]; intros s Hs Hgas; [lia|]. simpl.
  specialize (Hstep s Hs) as Hst.
  destruct (step s) as [[s'|r]|]; simpl; [|by eauto|done].
  destruct Hst as [Hs' Hlt]. apply IH; [done|lia].
Qed.

(** ** Arrays *)

Lemma aset_Some {A : Type} (a : list A) (i : nat) (v : A) :
  i < length a → aset a i v = Some (<[i:=v]> a).
Proof. intros. unfold aset. by rewrite decide_True. Qed.

Lemma incr_Some (c : list nat) (i x : nat) :
  c !! i = Some x → incr c i = Some (<[i:=x + 1]> c).
Proof.
  intros Hx. unfold incr, aget. rewrite Hx. simpl.
  apply aset_Some. by eapply lookup_lt_Some.
Qed.

Lemma load_lookup (m : mem) (p : ptr) (i : nat) : load m p i = m !! (p + i).
Proof. done. Qed.

Lemma store_Some (m : mem) (p : ptr) (i : nat) (v : T) :
  p + i < length m → store m p i v = Some (<[p + i:=v]> m).
Proof. apply aset_Some. Qed.

(** ** Ranges of the memory *)

Lemma range_lookup (m : mem) (p n i : nat) :
  i < n → range m p n !! i = m !! (p + i).
Proof. intros. unfold range. by rewrite lookup_take_lt, lookup_drop. Qed.

Lemma range_lookup_Some (m : mem) (p n i : nat) (x : T) :
  range m p n !! i = Some x → m !! (p + i) = Some x ∧ i < n.
Proof.
  unfold range. intros [? ?]%lookup_take_Some. by rewrite lookup_drop in *.
Qed.

Lemma length_range (m : mem) (p n : nat) :
  p + n ≤ length m → length (range m p n) = n.
Proof. intros. unfold range. rewrite length_take, length_drop. lia. Qed.

Lemma range_0 (m : mem) (p : nat) : range m p 0 = [].
Proof. done. Qed.

Lemma range_ext (m m' : mem) (p n : nat) :
  (∀ i, i < n → m' !! (p + i) = m !! (p + i)) → range m' p n = range m p n.
Proof.
  intros H. apply list_eq. intros i. unfold range.
  destruct (decide (i < n)).
  - rewrite !lookup_take_lt, !lookup_drop by done. auto.
  - by rewrite !lookup_take_ge by lia.
Qed.

Lemma range_app (m : mem) (p a b : nat) :
  range m p (a + b) = range m p a ++ range m (p + a) b.
Proof.
  unfold range. rewrite <- (take_take_drop (drop p m) a b).
  by rewrite drop_drop.
Qed.

Lemma range_S_r (m : mem) (p n : nat) (x : T) :
  m !! (p + n) = Some x → range m p (S n) = range m p n ++ [x].
Proof.
  intros Hx. unfold range. apply take_S_r. by rewrite lookup_drop.
Qed.

Lemma range_cons (m : mem) (p n : nat) (x : T) :
  m !! p = Some x → range m p (S n) = x :: range m (S p) n.
Proof.
  intros Hx. unfold range.
  rewrite (drop_S m x p Hx). done.
Qed.

Lemma range_insert_outside (m : mem) (p n a : nat) (v : T) :
  ¬ within p n a → range (<[a:=v]> m) p n = range m p n.
Proof.
  unfold within. intros Ha. apply range_ext. intros i Hi.
  apply list_lookup_insert_ne. lia.
Qed.

Lemma range_insert_snoc (m : mem) (p n : nat) (v : T) :
  p + n < length m → range (<[p + n:=v]> m) p (S n) = range m p n ++ [v].
Proof.
  intros Hlen. rewrite (range_S_r _ _ _ v).
  - f_equal. apply range_insert_outside. unfold within. lia.
  - by apply list_lookup_insert_eq.
Qed.

Lemma range_all (m : mem) : range m 0 (length m) = m.
Proof. unfold range. by rewrite drop_0, firstn_all. Qed.

Lemma range_take (l : list T) (p n : nat) :
  range l 0 n = take n l.
Proof. done. Qed.

Lemma range_elem_of (m : mem) (p n : nat) (x : T) :
  x ∈ range m p n → ∃ i, i < n ∧ m !! (p + i) = Some x.
Proof.
  intros [i Hi]%list_elem_of_lookup. apply range_lookup_Some in Hi. naive_solver.
Qed.

(** ** Frames *)

Lemma unchanged_refl (R : nat → Prop) (m : mem) : unchanged_outside R m m.
Proof. by split. Qed.

Lemma unchanged_trans (R : nat → Prop) (m1 m2 m3 : mem) :
  unchanged_outside R m1 m2 → unchanged_outside R m2 m3 →
  unchanged_outside R m1 m3.
Proof.
  intros [Hl1 H1] [Hl2 H2]. split; [congruence|].
  intros a Ha. by rewrite H2, H1.
Qed.

Lemma unchanged_weaken (R R' : nat → Prop) (m m' : mem) :
  (∀ a, R a → R' a) → unchanged_outside R m m' → unchanged_outside R' m m'.
Proof. intros HR [Hl H]. split; [done|]. intros a Ha. apply H. naive_solver. Qed.

Lemma unchanged_insert (R : nat → Prop) (m m' : mem) (a : nat) (v : T) :
  R a → unchanged_outside R m m' → unchanged_outside R m (<[a:=v]> m').
Proof.
  intros Ha [Hl H]. split; [by rewrite length_insert|].
  intros a' Ha'. rewrite list_lookup_insert_ne by congruence. auto.
Qed.

Lemma unchanged_range (R : nat → Prop) (m m' : mem) (p n : nat) :
  unchanged_outside R m m' → (∀ a, within p n a → ¬ R a) →
  range m' p n = range m p n.
Proof.
  intros [_ H] Hp. apply range_ext. intros i Hi. apply H, Hp. unfold within. lia.
Qed.

Lemma range_take_le (m : list T) (p a b : nat) :
  a ≤ b → take a (range m p b) = range m p a.
Proof. intros. unfold range. rewrite take_take. f_equal. lia. Qed.

Lemma range_drop (m : list T) (p a n : nat) :
  drop a (range m p n) = range m (p + a) (n - a).
Proof.
  unfold range. rewrite skipn_firstn_comm, drop_drop. done.
Qed.

Lemma range_range (m : list T) (p n q k : nat) :
  q + k ≤ n → range (range m p n) q k = range m (p + q) k.
Proof.
  intros. unfold range at 1. rewrite range_drop.
  apply range_take_le. lia.
Qed.

Lemma unchanged_store (R : nat → Prop) (m m' : list T) (p i : nat) (v : T) :
  R (p + i) → p + i < length m' → unchanged_outside R m m' →
  ∃ m'', store m' p i v = Some m'' ∧ m'' = <[p + i:=v]> m' ∧
    length m'' = length m' ∧ unchanged_outside R m m''.
Proof.
  intros HR Hlen Hun. exists (<[p + i:=v]> m'). rewrite store_Some by done.
  rewrite length_insert. eauto using unchanged_insert.
Qed.

Lemma load_range (m : list T) (p n i : nat) (x : T) :
  range m p n !! i = Some x → load m p i = Some x.
Proof. by intros [? _]%range_lookup_Some. Qed.

Lemma load_unchanged (R : nat → Prop) (m m' : list T) (p i : nat) :
  unchanged_outside R m m' → ¬ R (p + i) → load m' p i = load m p i.
Proof. intros [_ H] HR. rewrite !load_lookup. auto. Qed.

Lemma load_of_range (m : list T) (p n : nat) (B : list T) (i q j : nat) (x : T) :
  range m p n = B → B !! i = Some x → q + j = p + i → load m q j = Some x.
Proof.
  intros <- Hx Heq. rewrite load_lookup, Heq.
  by apply range_lookup_Some in Hx as [? _].
Qed.

(** ** Filters *)

Lemma filter_none (P : T → Prop) `{!∀ x, Decision (P x)} (l : list T) :
  (∀ x, x ∈ l → ¬ P x) → filter P l = [].
Proof.
  induction l as [|x l IH]; intros Hall; [done|].
  rewrite filter_cons_False by (apply Hall; set_solver).
  apply IH. intros y Hy. apply Hall. set_solver.
Qed.

Lemma filter_all (P : T → Prop) `{!∀ x, Decision (P x)} (l : list T) :
  (∀ x, x ∈ l → P x) → filter P l = l.
Proof.
  induction l as [|x l IH]; intros Hall; [done|].
  rewrite filter_cons_True by (apply Hall; set_solver).
  f_equal. apply IH. intros y Hy. apply Hall. set_solver.
Qed.

(** ** Sorted sequences and runs of equal keys *)

Section sort_facts.

Variable kf : T → N.

Lemma sorted_by_nil : sorted_by kf [].
Proof. constructor. Qed.

Lemma sorted_by_singleton (x : T) : sorted_by kf [x].
Proof. repeat constructor. Qed.

Lemma sorted_by_app (l1 l2 : list T) :
  sorted_by kf (l1 ++ l2) ↔
    (∀ x y, x ∈ l1 → y ∈ l2 → (kf x ≤ kf y)%N) ∧ sorted_by kf l1 ∧ sorted_by kf l2.
Proof. apply StronglySorted_app. Qed.

Lemma sorted_by_cons (x : T) (l : list T) :
  sorted_by kf (x :: l) ↔ (∀ y, y ∈ l → (kf x ≤ kf y)%N) ∧ sorted_by kf l.
Proof. unfold sorted_by. rewrite StronglySorted_cons, Forall_forall. done. Qed.

Lemma sorted_by_take (l : list T) (n : nat) : sorted_by kf l → sorted_by kf (take n l).
Proof. rewrite <- (take_drop n l) at 1. rewrite sorted_by_app. tauto. Qed.

Lemma sorted_by_drop (l : list T) (n : nat) : sorted_by kf l → sorted_by kf (drop n l).
Proof. rewrite <- (take_drop n l) at 1. rewrite sorted_by_app. tauto. Qed.

Lemma sorted_by_take_drop (l : list T) (n : nat) (x y : T) :
  sorted_by kf l → x ∈ take n l → y ∈ drop n l → (kf x ≤ kf y)%N.
Proof.
  rewrite <- (take_drop n l) at 1. rewrite sorted_by_app. naive_solver.
Qed.

Lemma sorted_by_filter (P : T → Prop) `{!∀ x, Decision (P x)} (l : list T) :
  sorted_by kf l → sorted_by kf (filter P l).
Proof.
  induction l as [|x l IH]; [done|].
  rewrite sorted_by_cons. intros [Hx Hl]. rewrite filter_cons.
  destruct (decide (P x)); [|by auto].
  apply sorted_by_cons. split; [|by auto].
  intros y [_ Hy]%list_elem_of_filter. auto.
Qed.

Lemma sorted_by_lookup (l : list T) (i j : nat) (x y : T) :
  sorted_by kf l → i < j → l !! i = Some x → l !! j = Some y → (kf x ≤ kf y)%N.
Proof.
  intros Hl Hij Hx Hy. apply (sorted_by_take_drop l j); [done| |].
  - apply list_elem_of_lookup. exists i. by rewrite lookup_take_lt.
  - apply list_elem_of_lookup. exists 0. by rewrite lookup_drop, Nat.add_0_r.
Qed.

(** All the keys are equal: sorted. *)
Lemma sorted_by_const (l : list T) (k : N) :
  (∀ x, x ∈ l → kf x = k) → sorted_by kf l.
Proof.
  induction l as [|x l IH]; intros Hk; [constructor|].
  apply sorted_by_cons. split.
  - intros y Hy. rewrite (Hk x), (Hk y); [done| |]; set_solver.
  - apply IH. intros y Hy. apply Hk. set_solver.
Qed.

Lemma same_runs_refl (l : list T) : same_runs kf l l.
Proof. by intros k. Qed.

Lemma same_runs_trans (l1 l2 l3 : list T) :
  same_runs kf l1 l2 → same_runs kf l2 l3 → same_runs kf l1 l3.
Proof. intros H1 H2 k. by rewrite H2, H1. Qed.

Lemma same_runs_app (l1 l2 l1' l2' : list T) :
  same_runs kf l1 l1' → same_runs kf l2 l2' → same_runs kf (l1 ++ l2) (l1' ++ l2').
Proof. intros H1 H2 k. by rewrite !filter_app, H1, H2. Qed.

Lemma same_runs_elem_of (l l' : list T) (x : T) :
  same_runs kf l l' → x ∈ l' ↔ x ∈ l.
Proof.
  intros H. specialize (H (kf x)).
  split; intros Hx.
  - assert (x ∈ filter (λ y, kf y = kf x) l') as Hf by by apply list_elem_of_filter.
    rewrite H in Hf. by apply list_elem_of_filter in Hf as [_ ?].
  - assert (x ∈ filter (λ y, kf y = kf x) l) as Hf by by apply list_elem_of_filter.
    rewrite <- H in Hf. by apply list_elem_of_filter in Hf as [_ ?].
Qed.

Lemma same_runs_nil_inv (l' : list T) : same_runs kf [] l' → l' = [].
Proof.
  intros H. destruct l' as [|x l']; [done|].
  specialize (H (kf x)). rewrite filter_cons_True in H by done. done.
Qed.

(** The first element of a run splits the sequence. *)
Lemma filter_cons_inv (P : T → Prop) `{!∀ x, Decision (P x)}
    (l : list T) (x : T) (r : list T) :
  filter P l = x :: r →
  ∃ l1 l2, l = l1 ++ x :: l2 ∧ filter P l1 = [] ∧ filter P l2 = r.
Proof.
  induction l as [|y l IH]; [done|]. rewrite filter_cons.
  destruct (decide (P y)) as [Hy|Hy]; intros Hf.
  - injection Hf as -> Hr. exists [], l. by rewrite filter_nil.
  - destruct (IH Hf) as (l1 & l2 & -> & H1 & H2).
    exists (y :: l1), l2. by rewrite filter_cons_False.
Qed.

Lemma same_runs_Permutation (l l' : list T) : same_runs kf l l' → l ≡ₚ l'.
Proof.
  revert l'. induction l as [|x l IH]; intros l' H.
  - by rewrite (same_runs_nil_inv l' H).
  - pose proof (H (kf x)) as Hx. rewrite (filter_cons_True _ x l) in Hx by done.
    apply filter_cons_inv in Hx as (l1 & l2 & -> & H1 & H2).
    rewrite <- Permutation_middle. constructor. apply IH.
    intros k. specialize (H k). rewrite filter_app, !filter_cons in H.
    rewrite filter_app. destruct (decide (kf x = k)) as [<-|Hk].
    + rewrite H1 in *. simpl in *. congruence.
    + done.
Qed.

Lemma same_runs_length (l l' : list T) : same_runs kf l l' → length l' = length l.
Proof. intros H. symmetry. by apply Permutation_length, same_runs_Permutation. Qed.

Lemma stable_sort_of_nil : stable_sort_of kf [] [].
Proof. split; [constructor|]. by intros k. Qed.

Lemma stable_sort_of_singleton (x : T) : stable_sort_of kf [x] [x].
Proof. split; [apply sorted_by_singleton|]. by intros k. Qed.

(** The step of the insertion sort: [t] goes between the elements that
    are not above it and the elements above it. *)
Lemma stable_sort_of_insert (l P : list T) (t : T) (j : nat) :
  stable_sort_of kf l P →
  (∀ x, x ∈ take j P → (kf x ≤ kf t)%N) →
  (∀ x, x ∈ drop j P → (kf t < kf x)%N) →
  stable_sort_of kf (l ++ [t]) (take j P ++ t :: drop j P).
Proof.
  intros [HP Hruns] Hlo Hhi. split.
  - apply sorted_by_app. split_and!.
    + intros x y Hx [->|Hy]%elem_of_cons; [by auto|].
      by apply (sorted_by_take_drop P j).
    + by apply sorted_by_take.
    + apply sorted_by_cons. split; [|by apply sorted_by_drop].
      intros y Hy. apply N.lt_le_incl; auto.
  - intros k. rewrite !filter_app.
    assert (filter (λ x, kf x = k) l
      = filter (λ x, kf x = k) (take j P) ++ filter (λ x, kf x = k) (drop j P))
      as -> by by rewrite <- Hruns, <- filter_app, take_drop.
    rewrite <- (assoc_L (++)). f_equal.
    rewrite !filter_cons, filter_nil.
    destruct (decide (kf t = k)) as [<-|]; [|by rewrite (right_id_L [] (++))].
    assert (filter (λ x, kf x = kf t) (drop j P) = []) as ->; [|done].
    apply filter_none. intros x Hx%Hhi. lia.
Qed.

End sort_facts.
(** ** fallback_sort *)

Lemma key_lt_spec (x y : T) : key_lt x y = true ↔ ¬ key_le y x.
Proof. unfold key_lt, key_le. rewrite bool_decide_eq_true. lia. Qed.

Lemma merge_runs_stable (l r : list T) :
  sorted l → sorted r → stable_sort_of get_key (l ++ r) (merge_runs l r).
Proof.
  unfold merge_runs, sorted. revert r.
  induction l as [|y l IHl]; intros r Hl Hr.
  { rewrite list_merge_nil_l. split; [done|apply same_runs_refl]. }
  induction r as [|x r IHr].
  { rewrite list_merge_nil_r, app_nil_r. split; [done|apply same_runs_refl]. }
  rewrite list_merge_cons.
  apply sorted_by_cons in Hl as [Hy Hl]. apply sorted_by_cons in Hr as [Hx Hr].
  destruct (decide (key_le y x)) as [Hyx|Hyx]; unfold key_le in Hyx.
  - destruct (IHl (x :: r)) as [Hs Hruns]; [done|by apply sorted_by_cons|].
    split.
    + apply sorted_by_cons. split; [|done].
      intros z Hz. apply (same_runs_elem_of _ _ _ _ Hruns) in Hz.
      apply elem_of_app in Hz as [Hz|Hz]; [by auto|].
      apply elem_of_cons in Hz as [->|Hz]; [done|].
      specialize (Hx z Hz). lia.
    + intros k. simpl. rewrite !filter_cons. by rewrite (Hruns k).
  - destruct IHr as [Hs Hruns]; [done|].
    split.
    + apply sorted_by_cons. split; [|done].
      intros z Hz. apply (same_runs_elem_of _ _ _ _ Hruns) in Hz.
      apply elem_of_app in Hz as [Hz|Hz]; [|by auto].
      apply elem_of_cons in Hz as [->|Hz]; [lia|].
      specialize (Hy z Hz). lia.
    + intros k. rewrite filter_cons, (Hruns k), !filter_app, (filter_cons _ x r).
      destruct (decide (get_key x = k)) as [<-|]; [|done].
      rewrite (filter_none _ (y :: l)); [done|].
      intros z [->|Hz]%elem_of_cons; [lia|]. specialize (Hy z Hz). lia.
Qed.

(** The inner loop of the insertion sort finds the place of [t] in the
    sorted prefix [P] and moves the elements above [t] up by one. *)
Lemma insertion_shift_spec (gas : nat) (d : nat) (t : T) (i : nat)
    (m : list T) (P : list T) :
  i < gas → d + i < length m → range m d i = P → sorted P →
  ∃ j m', insertion_shift gas d t i m = Some (j, m') ∧
    j ≤ i ∧ length m' = length m ∧
    range m' d j = take j P ∧
    range m' (d + j + 1) (i - j) = drop j P ∧
    (∀ x, x ∈ take j P → (get_key x ≤ get_key t)%N) ∧
    (∀ x, x ∈ drop j P → (get_key t < get_key x)%N) ∧
    unchanged_outside (within d (i + 1)) m m'.
Proof.
  intros Hgas Hlen HP Hsorted.
  assert (length P = i) as HlenP by (rewrite <- HP; apply length_range; lia).
  unfold insertion_shift.
  edestruct (loop_inv
    (λ '(j, m'), j ≤ i ∧ length m' = length m ∧
       range m' d j = take j P ∧
       range m' (d + j + 1) (i - j) = drop j P ∧
       (∀ x, x ∈ drop j P → (get_key t < get_key x)%N) ∧
       unchanged_outside (within d (i + 1)) m m')
    (λ '(j, m'), j)
    (λ '(j, m'), j ≤ i ∧ length m' = length m ∧
       range m' d j = take j P ∧
       range m' (d + j + 1) (i - j) = drop j P ∧
       (∀ x, x ∈ take j P → (get_key x ≤ get_key t)%N) ∧
       (∀ x, x ∈ drop j P → (get_key t < get_key x)%N) ∧
       unchanged_outside (within d (i + 1)) m m'))
    as ([j m'] & Hrun & HQ); [| |intros [j m']|].
  4: { exists j, m'. split; [exact Hrun|exact HQ]. }
  - split_and!; [done|done| |by rewrite Nat.sub_diag, drop_ge by lia| |apply unchanged_refl].
    + by rewrite HP, take_ge by lia.
    + rewrite drop_ge by lia. by intros x ?%elem_of_nil.
  - simpl. done.
  - intros (Hj & Hlen' & Hlo & Hhi & Habove & Hun). simpl.
    destruct (decide (0 < j)) as [Hpos|Hpos].
    2: { assert (j = 0) as -> by lia. split_and!; try done.
         intros x. rewrite take_0. by intros ?%elem_of_nil. }
    destruct (lookup_lt_is_Some_2 P (j - 1)) as [x Hx]; [lia|].
    assert (m' !! (d + (j - 1)) = Some x) as Hmx.
    { rewrite <- (range_lookup m' d j) by lia. rewrite Hlo.
      by rewrite lookup_take_lt by lia. }
    rewrite load_lookup, Hmx. simpl.
    destruct (key_lt t x) eqn:Hlt.
    + apply key_lt_spec in Hlt. unfold key_le in Hlt.
      rewrite store_Some by lia. simpl. split; [|lia].
      assert (drop (j - 1) P = x :: drop j P) as Hdrop.
      { rewrite (drop_S P x (j - 1) Hx). do 2 f_equal. lia. }
      split_and!.
      * lia.
      * by rewrite length_insert.
      * rewrite range_insert_outside by (unfold within; lia).
        rewrite <- (range_take_le m' d (j - 1) j) by lia.
        rewrite Hlo, take_take. f_equal. lia.
      * replace (d + (j - 1) + 1) with (d + j) by lia.
        replace (i - (j - 1)) with (S (i - j)) by lia.
        rewrite (range_cons _ _ _ x) by (apply list_lookup_insert_eq; lia).
        rewrite range_insert_outside by (unfold within; lia).
        replace (S (d + j)) with (d + j + 1) by lia. by rewrite Hhi.
      * rewrite Hdrop. intros y [->|Hy]%elem_of_cons; [lia|by auto].
      * apply unchanged_insert; [unfold within; lia|done].
    + assert (¬ (get_key t < get_key x)%N) as Hge.
      { intros Hlt'. assert (key_lt t x = true) as Heq; [|congruence].
        apply key_lt_spec. unfold key_le. lia. }
      split_and!; try done.
      intros y [k [Hy Hk]]%elem_of_take.
      destruct (decide (k = j - 1)) as [->|Hne].
      * assert (y = x) as -> by congruence. lia.
      * pose proof (sorted_by_lookup get_key P k (j - 1) y x Hsorted
          ltac:(lia) Hy Hx). lia.
Qed.

Lemma insertion_sort_spec (gas : nat) (src d n : nat) (m : list T) :
  n < gas → src + n ≤ length m → d + n ≤ length m →
  (d = src ∨ disjoint src d n) →
  ∃ m', insertion_sort gas src d n m = Some m' ∧ length m' = length m ∧
    stable_sort_of get_key (range m src n) (range m' d n) ∧
    unchanged_outside (within d n) m m'.
Proof.
  intros Hgas Hsrc Hd Hsep. unfold insertion_sort, disjoint in *.
  set (L := range m src n).
  assert (length L = n) as HlenL by (by apply length_range).
  destruct (decide (0 < n)) as [Hn|Hn].
  2: { assert (n = 0) as -> by lia. simpl. exists m.
       split_and!; auto using stable_sort_of_nil, unchanged_refl. }
  destruct (lookup_lt_is_Some_2 L 0) as [x0 Hx0]; [lia|].
  assert (m !! (src + 0) = Some x0) as Hm0
    by (by rewrite <- (range_lookup m src n 0) by lia).
  rewrite load_lookup, Hm0. simpl. rewrite store_Some by lia. simpl.
  edestruct (for_loop_inv
    (λ i mi, length mi = length m ∧
       stable_sort_of get_key (take i L) (range mi d i) ∧
       range mi (src + i) (n - i) = drop i L ∧
       unchanged_outside (within d n) m mi))
    as (m' & Hrun & HI); [| |rewrite Hrun].
  3: { replace (1 + (n - 1)) with n in HI by lia.
       destruct HI as (Hlen' & Hsort & _ & Hun).
       exists m'. rewrite take_ge in Hsort by lia. done. }
  - split_and!.
    + by rewrite length_insert.
    + rewrite (range_cons _ _ _ x0) by (rewrite Nat.add_0_r; apply list_lookup_insert_eq; lia).
      rewrite range_0. rewrite (take_S_r L 0 x0 Hx0). apply stable_sort_of_singleton.
    + rewrite range_insert_outside by (unfold within; lia).
      unfold L. by rewrite range_drop.
    + apply unchanged_insert; [unfold within; lia|apply unchanged_refl].
  - intros i mi Hi (Hlen' & Hsort & Hrest & Hun). simpl.
    destruct (lookup_lt_is_Some_2 L i) as [t Ht]; [lia|].
    assert (mi !! (src + i) = Some t) as Hmt.
    { rewrite <- (Nat.add_0_r (src + i)), <- (range_lookup mi (src + i) (n - i) 0) by lia.
      by rewrite Hrest, lookup_drop, Nat.add_0_r. }
    rewrite load_lookup, Hmt. simpl.
    destruct (insertion_shift_spec gas d t i mi (range mi d i))
      as (j & m2 & -> & Hj & Hlen2 & Hlo & Hhi & Hbelow & Habove & Hun2);
      [lia|lia|done|apply Hsort|].
    simpl. rewrite store_Some by lia. exists (<[d + j:=t]> m2). split; [done|].
    assert (range (<[d + j:=t]> m2) d (S i)
      = take j (range mi d i) ++ t :: drop j (range mi d i)) as Hout.
    { replace (S i) with (j + (1 + (i - j))) by lia.
      rewrite !range_app.
      rewrite range_insert_outside by (unfold within; lia). rewrite Hlo. f_equal.
      rewrite (range_cons _ _ 0 t) by (apply list_lookup_insert_eq; lia).
      rewrite range_0. simpl. f_equal.
      rewrite range_insert_outside by (unfold within; lia). done. }
    split_and!.
    + rewrite length_insert. lia.
    + rewrite Hout, (take_S_r L i t Ht). by apply stable_sort_of_insert.
    + rewrite range_insert_outside by (unfold within; lia).
      rewrite (unchanged_range _ mi m2 _ _ Hun2) by (unfold within; lia).
      replace (src + S i) with (src + i + 1) by lia.
      replace (n - S i) with (n - i - 1) by lia.
      rewrite <- range_drop, Hrest, drop_drop. f_equal. lia.
    + apply unchanged_insert; [unfold within; lia|].
      eapply unchanged_trans; [done|].
      eapply unchanged_weaken; [|done]. unfold within. intros; lia.
Qed.

(** [copy_loop] copies a range onto a range that does not overlap it. *)
Lemma copy_loop_spec (src dst n : nat) (m : list T) :
  src + n ≤ length m → dst + n ≤ length m → disjoint src dst n →
  ∃ m', copy_loop src dst n m = Some m' ∧ length m' = length m ∧
    range m' dst n = range m src n ∧
    unchanged_outside (within dst n) m m'.
Proof.
  intros Hsrc Hdst Hsep. unfold copy_loop, disjoint in *.
  edestruct (for_loop_inv
    (λ i mi, length mi = length m ∧ range mi dst i = range m src i ∧
       unchanged_outside (within dst n) m mi))
    as (m' & Hrun & HI); [| |rewrite Hrun].
  3: { exists m'. done. }
  - split_and!; [done|done|apply unchanged_refl].
  - intros i mi Hi (Hlen' & Hcopy & Hun). simpl.
    destruct (lookup_lt_is_Some_2 m (src + i)) as [x Hx]; [lia|].
    assert (mi !! (src + i) = Some x) as Hmx.
    { destruct Hun as [_ Hun]. rewrite Hun; [done|]. unfold within. lia. }
    rewrite load_lookup, Hmx. simpl. rewrite store_Some by lia.
    eexists. split; [done|]. split_and!.
    + by rewrite length_insert.
    + rewrite range_insert_snoc by lia. by rewrite (range_S_r _ _ _ x Hx), Hcopy.
    + apply unchanged_insert; [unfold within; lia|done].
Qed.

(** [copy_tail] appends what is left of a run. *)
Lemma copy_tail_spec (gas : nat) (p d i lim k : nat) (m : list T) :
  lim - i < gas → i ≤ lim → p + lim ≤ length m → d + k + (lim - i) ≤ length m →
  (p + lim ≤ d + k ∨ d + k + (lim - i) ≤ p + i) →
  ∃ m', copy_tail gas p d i lim k m = Some m' ∧ length m' = length m ∧
    range m' d (k + (lim - i)) = range m d k ++ range m (p + i) (lim - i) ∧
    unchanged_outside (within (d + k) (lim - i)) m m'.
Proof.
  intros Hgas Hi Hp Hd Hsep. unfold copy_tail.
  edestruct (loop_inv
    (λ '(i', k', m'), i ≤ i' ≤ lim ∧ k' = k + (i' - i) ∧ length m' = length m ∧
       range m' d k' = range m d k ++ range m (p + i) (i' - i) ∧
       unchanged_outside (within (d + k) (lim - i)) m m')
    (λ '(i', k', m'), lim - i')
    (λ m', length m' = length m ∧
       range m' d (k + (lim - i)) = range m d k ++ range m (p + i) (lim - i) ∧
       unchanged_outside (within (d + k) (lim - i)) m m'))
    as (m' & Hrun & HQ); [| |intros [[i' k'] m']|].
  4: { exists m'. split; [exact Hrun|exact HQ]. }
  - split_and!; [lia|lia|lia|done| |apply unchanged_refl].
    by rewrite Nat.sub_diag, range_0, app_nil_r.
  - simpl. lia.
  - intros (Hi' & -> & Hlen' & Hcopy & Hun). simpl.
    destruct (decide (i' < lim)) as [Hlt|Hge].
    2: { assert (i' = lim) as -> by lia. done. }
    destruct (lookup_lt_is_Some_2 m (p + i')) as [x Hx]; [lia|].
    assert (m' !! (p + i') = Some x) as Hmx.
    { destruct Hun as [_ Hun]. rewrite Hun; [done|]. unfold within. lia. }
    rewrite load_lookup, Hmx. simpl. rewrite store_Some by lia. simpl.
    split; [|lia]. split_and!; try lia.
    + by rewrite length_insert.
    + replace (k + (i' - i) + 1) with (S (k + (i' - i))) by lia.
      rewrite range_insert_snoc by lia. rewrite Hcopy, <- (assoc_L (++)). f_equal.
      replace (i' + 1 - i) with (S (i' - i)) by lia.
      rewrite (range_S_r _ _ _ x); [done|]. rewrite <- Hx. f_equal. lia.
    + apply unchanged_insert; [unfold within; lia|done].
Qed.

(** The merge loop, up to the [break]. *)
Lemma merge_loop_spec (gas : nat) (l r d a b : nat) (m : list T) :
  a + b < gas → 0 < a → 0 < b →
  l + a ≤ length m → r + b ≤ length m → d + (a + b) ≤ length m →
  (d + (a + b) ≤ l ∨ l + a ≤ d) → (d + (a + b) ≤ r ∨ r + b ≤ d) →
  ∃ i j k m', merge_loop gas l r d a b m = Some (i, j, k, m') ∧
    length m' = length m ∧ k = i + j ∧ i ≤ a ∧ j ≤ b ∧ (i = a ∨ j = b) ∧
    range m' d k ++ merge_runs (drop i (range m l a)) (drop j (range m r b))
      = merge_runs (range m l a) (range m r b) ∧
    unchanged_outside (within d (a + b)) m m'.
Proof.
  intros Hgas Ha Hb Hl Hr Hd Hdl Hdr. unfold merge_loop.
  set (Lf := range m l a). set (Rt := range m r b).
  assert (length Lf = a) as HlenL by (by apply length_range).
  assert (length Rt = b) as HlenR by (by apply length_range).
  edestruct (loop_inv
    (λ '(i, j, k, m'), i < a ∧ j < b ∧ k = i + j ∧ length m' = length m ∧
       range m' d k ++ merge_runs (drop i Lf) (drop j Rt) = merge_runs Lf Rt ∧
       unchanged_outside (within d (a + b)) m m')
    (λ '(i, j, k, m'), a + b - k)
    (λ '(i, j, k, m'), length m' = length m ∧ k = i + j ∧ i ≤ a ∧ j ≤ b ∧
       (i = a ∨ j = b) ∧
       range m' d k ++ merge_runs (drop i Lf) (drop j Rt) = merge_runs Lf Rt ∧
       unchanged_outside (within d (a + b)) m m'))
    as ([[[i j] k] m'] & Hrun & HQ); [| |intros [[[i j] k] m']|].
  4: { exists i, j, k, m'. split; [exact Hrun|exact HQ]. }
  - split_and!; auto using unchanged_refl.
  - simpl. lia.
  - intros (Hi & Hj & -> & Hlen' & Heq & Hun). simpl.
    destruct (lookup_lt_is_Some_2 Rt j) as [x Hx]; [lia|].
    destruct (lookup_lt_is_Some_2 Lf i) as [y Hy]; [lia|].
    assert (m' !! (r + j) = Some x) as Hmx.
    { destruct Hun as [_ Hun]. rewrite Hun by (unfold within; lia).
      by rewrite <- (range_lookup m r b j) by lia. }
    assert (m' !! (l + i) = Some y) as Hmy.
    { destruct Hun as [_ Hun]. rewrite Hun by (unfold within; lia).
      by rewrite <- (range_lookup m l a i) by lia. }
    rewrite !load_lookup, Hmx. simpl. rewrite Hmy. simpl.
    rewrite (drop_S Lf y i Hy), (drop_S Rt x j Hx) in Heq.
    unfold merge_runs in Heq. rewrite list_merge_cons in Heq.
    destruct (key_lt x y) eqn:Hlt.
    + apply key_lt_spec in Hlt. rewrite decide_False in Heq by done.
      rewrite store_Some by lia. simpl.
      assert (range (<[d + (i + j):=x]> m') d (i + j + 1)
          ++ merge_runs (drop i Lf) (drop (j + 1) Rt) = merge_runs Lf Rt) as Heq'.
      { replace (i + j + 1) with (S (i + j)) by lia.
        rewrite range_insert_snoc by lia. rewrite <- (assoc_L (++)). simpl.
        rewrite (drop_S Lf y i Hy). replace (j + 1) with (S j) by lia. done. }
      destruct (decide (j + 1 = b)).
      * split_and!; try done; try lia.
        -- by rewrite length_insert.
        -- apply unchanged_insert; [unfold within; lia|done].
      * split; [|lia]. split_and!; try done; try lia.
        -- by rewrite length_insert.
        -- apply unchanged_insert; [unfold within; lia|done].
    + assert (key_le y x) as Hle.
      { destruct (decide (key_le y x)) as [|Hn]; [done|].
        apply key_lt_spec in Hn. congruence. }
      rewrite decide_True in Heq by done.
      rewrite store_Some by lia. simpl.
      assert (range (<[d + (i + j):=y]> m') d (i + j + 1)
          ++ merge_runs (drop (i + 1) Lf) (drop j Rt) = merge_runs Lf Rt) as Heq'.
      { replace (i + j + 1) with (S (i + j)) by lia.
        rewrite range_insert_snoc by lia. rewrite <- (assoc_L (++)). simpl.
        rewrite (drop_S Rt x j Hx). replace (i + 1) with (S i) by lia. done. }
      destruct (decide (i + 1 = a)).
      * split_and!; try done; try lia.
        -- by rewrite length_insert.
        -- apply unchanged_insert; [unfold within; lia|done].
      * split; [|lia]. split_and!; try done; try lia.
        -- by rewrite length_insert.
        -- apply unchanged_insert; [unfold within; lia|done].
Qed.

(** The merge of the two sorted halves at [l] and [r] into [d]. *)
Lemma merge_phase_spec (gas : nat) (l d a b : nat) (m : list T) :
  a + b < gas → 0 < a → 0 < b →
  l + (a + b) ≤ length m → d + (a + b) ≤ length m → disjoint l d (a + b) →
  ∃ m', ('(i, j, k, m) ← merge_loop gas l (l + a) d a b m;
         if decide (i = a) then copy_tail gas (l + a) d j b k m
         else copy_tail gas l d i a k m) = Some m' ∧
    length m' = length m ∧
    range m' d (a + b) = merge_runs (range m l a) (range m (l + a) b) ∧
    unchanged_outside (within d (a + b)) m m'.
Proof.
  intros Hgas Ha Hb Hl Hd Hsep. unfold disjoint in Hsep.
  destruct (merge_loop_spec gas l (l + a) d a b m)
    as (i & j & k & m1 & -> & Hlen1 & -> & Hi & Hj & Hend & Heq & Hun1);
    [lia..|]. simpl.
  destruct (decide (i = a)) as [->|Hne].
  - destruct (copy_tail_spec gas (l + a) d j b (a + j) m1)
      as (m2 & -> & Hlen2 & Hcopy & Hun2); [lia..|].
    exists m2. split_and!; [done|lia| |].
    + replace (a + b) with (a + j + (b - j)) by lia. rewrite Hcopy, <- Heq.
      f_equal. rewrite drop_ge by (rewrite length_range; lia).
      unfold merge_runs. rewrite list_merge_nil_l, range_drop.
      apply unchanged_range with (R := within d (a + b)); [done|].
      unfold within. intros; lia.
    + eapply unchanged_trans; [done|].
      eapply unchanged_weaken; [|done]. unfold within. intros; lia.
  - assert (j = b) as -> by lia.
    destruct (copy_tail_spec gas l d i a (i + b) m1)
      as (m2 & -> & Hlen2 & Hcopy & Hun2); [lia..|].
    exists m2. split_and!; [done|lia| |].
    + replace (a + b) with (i + b + (a - i)) by lia. rewrite Hcopy, <- Heq.
      f_equal. rewrite (drop_ge (range m (l + a) b)) by (rewrite length_range; lia).
      unfold merge_runs. rewrite list_merge_nil_r, range_drop.
      apply unchanged_range with (R := within d (a + b)); [done|].
      unfold within. intros; lia.
    + eapply unchanged_trans; [done|].
      eapply unchanged_weaken; [|done]. unfold within. intros; lia.
Qed.

(** [fallback_sort] leaves the stable sort of [src[0..n)] in the buffer
    that [destination] selects, and writes to the two buffers only. *)
Lemma fallback_sort_spec (gas : nat) (src tmp n : nat) (destination : Z)
    (m : list T) :
  n < gas → src + n ≤ length m → tmp + n ≤ length m → disjoint src tmp n →
  ∃ m', fallback_sort gas src tmp n destination m
      = Some (if decide (destination = 0%Z) then src else tmp, m') ∧
    length m' = length m ∧
    stable_sort_of get_key (range m src n)
      (range m' (if decide (destination = 0%Z) then src else tmp) n) ∧
    unchanged_outside (buffers src tmp n) m m'.
Proof.
  revert src tmp n destination m.
  induction gas as [|gas IH]; intros src tmp n destination m Hgas Hsrc Htmp Hsep;
    [lia|].
  cbn [fallback_sort].
  set (d := if decide (destination = 0%Z) then src else tmp).
  destruct (decide (n ≤ 18)) as [Hsmall|Hbig].
  { destruct (insertion_sort_spec (S gas) src d n m)
      as (m' & -> & Hlen' & Hsort & Hun); [done|done| | |].
    - unfold d. by destruct (decide _).
    - unfold d. destruct (decide _); auto.
    - exists m'. split_and!; try done.
      eapply unchanged_weaken; [|done].
      unfold buffers, d. intros a. destruct (decide _); auto. }
  set (o := if decide (destination = 0%Z) then tmp else src).
  assert ((if decide (lnot destination = 0%Z) then src else tmp) = o) as Ho.
  { unfold o, lnot. by repeat destruct (decide _). }
  assert (disjoint o d n ∧ o + n ≤ length m ∧ d + n ≤ length m
          ∧ ∀ a, buffers o d n a ↔ buffers src tmp n a) as (Hod & Holen & Hdlen & Hbuf).
  { unfold o, d, disjoint, buffers in *. destruct (decide _); split_and!; try lia; tauto. }
  set (a := n / 2). set (b := n - a).
  assert (9 ≤ a ∧ a + b = n ∧ 0 < b) as (Ha & Hab & Hb).
  { unfold b, a. pose proof (Nat.div_mod_eq n 2).
    pose proof (Nat.mod_upper_bound n 2). lia. }
  unfold disjoint in *.
  destruct (IH src tmp a (lnot destination) m)
    as (m1 & -> & Hlen1 & [Hs1 Hr1] & Hun1); [unfold disjoint; lia..|].
  simpl. rewrite Ho in *.
  destruct (IH (src + a) (tmp + a) b (lnot destination) m1)
    as (m2 & -> & Hlen2 & [Hs2 Hr2] & Hun2); [unfold disjoint; lia..|].
  simpl.
  assert ((if decide (lnot destination = 0%Z) then src + a else tmp + a) = o + a)
    as Ho'.
  { unfold o, lnot. by repeat destruct (decide _). }
  rewrite Ho' in *.
  destruct (merge_phase_spec (S gas) o d a b m2)
    as (m3 & Hrun & Hlen3 & Hmerge & Hun3); [unfold disjoint; lia..|].
  fold o. fold d. fold a. fold b.
  destruct (merge_loop (S gas) o (o + a) d a b m2) as [[[[i j] k] m2']|];
    simpl in Hrun |- *; [|done].
  rewrite Hrun. simpl. exists m3. split_and!; [done|lia| |].
  - rewrite <- Hab, Hmerge.
    assert (range m2 o a = range m1 o a) as ->.
    { apply unchanged_range with (R := buffers (src + a) (tmp + a) b); [done|].
      unfold buffers, within, o. intros x. destruct (decide _); lia. }
    assert (range m1 (src + a) b = range m (src + a) b) as Hsame.
    { apply unchanged_range with (R := buffers src tmp a); [done|].
      unfold buffers, within. intros x. lia. }
    rewrite Hsame in *.
    destruct (merge_runs_stable (range m1 o a) (range m2 (o + a) b)) as [Hs Hr];
      [done..|].
    split; [done|]. rewrite range_app.
    eapply same_runs_trans; [|done]. by apply same_runs_app.
  - apply unchanged_trans with m2; [apply unchanged_trans with m1|].
    + eapply unchanged_weaken; [|done]. unfold buffers, within. intros; lia.
    + eapply unchanged_weaken; [|done]. unfold buffers, within. intros; lia.
    + eapply unchanged_weaken; [|done]. unfold buffers, within, d.
      intros x. destruct (decide _); lia.
Qed.

(** ** Counting digits *)

Section digits.

Variable dig : T → nat.

Lemma count_of_app (v : nat) (l1 l2 : list T) :
  count_of dig v (l1 ++ l2) = count_of dig v l1 + count_of dig v l2.
Proof. unfold count_of. by rewrite filter_app, length_app. Qed.

Lemma count_of_take_S (v : nat) (l : list T) (i : nat) (x : T) :
  l !! i = Some x →
  count_of dig v (take (S i) l)
    = count_of dig v (take i l) + (if decide (dig x = v) then 1 else 0).
Proof.
  intros Hx. rewrite (take_S_r l i x Hx), count_of_app. f_equal.
  unfold count_of. rewrite filter_cons, filter_nil. by destruct (decide _).
Qed.

Lemma count_of_take_le (v : nat) (l : list T) (i : nat) :
  count_of dig v (take i l) ≤ count_of dig v l.
Proof. rewrite <- (take_drop i l) at 2. rewrite count_of_app. lia. Qed.

Lemma count_of_take_lt (v : nat) (l : list T) (i : nat) (x : T) :
  l !! i = Some x → dig x = v → count_of dig v (take i l) < count_of dig v l.
Proof.
  intros Hx Hv. pose proof (count_of_take_le v l (S i)) as Hle.
  rewrite (count_of_take_S v l i x Hx), decide_True in Hle by done. lia.
Qed.

Lemma bucket_start_0 (l : list T) : bucket_start dig 0 l = 0.
Proof.
  unfold bucket_start. rewrite filter_none; [done|]. intros x _. lia.
Qed.

Lemma bucket_start_S (j : nat) (l : list T) :
  bucket_start dig (S j) l = bucket_start dig j l + count_of dig j l.
Proof.
  unfold bucket_start, count_of. induction l as [|x l IH]; [done|].
  rewrite !filter_cons.
  destruct (decide (dig x < S j)), (decide (dig x < j)), (decide (dig x = j));
    simpl; lia.
Qed.

Lemma bucket_start_le (j : nat) (l : list T) : bucket_start dig j l ≤ length l.
Proof. apply length_filter. Qed.

Lemma bucket_start_mono (j j' : nat) (l : list T) :
  j ≤ j' → bucket_start dig j l ≤ bucket_start dig j' l.
Proof.
  induction 1 as [|j' _ IH]; [done|]. rewrite bucket_start_S. lia.
Qed.

Lemma bucket_start_all (K : nat) (l : list T) :
  (∀ x, x ∈ l → dig x < K) → bucket_start dig K l = length l.
Proof. intros H. unfold bucket_start. by rewrite filter_all. Qed.

Lemma bucket_end_le (K j : nat) (l : list T) :
  (∀ x, x ∈ l → dig x < K) → j < K →
  bucket_start dig j l + count_of dig j l ≤ length l.
Proof.
  intros H Hj. rewrite <- bucket_start_S, <- (bucket_start_all K l H).
  apply bucket_start_mono. lia.
Qed.

(** A bucket as long as the sequence holds every element. *)
Lemma count_of_full (v : nat) (l : list T) :
  count_of dig v l = length l → ∀ x, x ∈ l → dig x = v.
Proof.
  unfold count_of. induction l as [|y l IH]; intros Hlen x Hx.
  { by apply elem_of_nil in Hx. }
  rewrite filter_cons in Hlen. pose proof (length_filter (λ x, dig x = v) l).
  destruct (decide (dig y = v)); simpl in Hlen; [|lia].
  apply elem_of_cons in Hx as [->|Hx]; [done|]. apply IH; [lia|done].
Qed.

Lemma count_of_const (v : nat) (l : list T) :
  (∀ x, x ∈ l → dig x = v) → count_of dig v l = length l.
Proof. intros H. unfold count_of. by rewrite filter_all. Qed.

Lemma bucket_start_const (v j : nat) (l : list T) :
  (∀ x, x ∈ l → dig x = v) →
  bucket_start dig j l = if decide (j ≤ v) then 0 else length l.
Proof.
  intros H. unfold bucket_start. destruct (decide (j ≤ v)).
  - rewrite filter_none; [done|]. intros x Hx%H. lia.
  - rewrite filter_all; [done|]. intros x Hx%H. lia.
Qed.

End digits.

(** ** The counters *)

Lemma incr_total (c : list nat) (i : nat) :
  i < length c → incr c i = Some (<[i:=c !!! i + 1]> c).
Proof. intros. apply incr_Some. by apply list_lookup_lookup_total_lt. Qed.

Lemma pair_sum_incr_even (c : list nat) (k v : nat) :
  2 * k < length c →
  pair_sum (<[2 * k:=c !!! (2 * k) + 1]> c) v
    = pair_sum c v + (if decide (k = v) then 1 else 0).
Proof.
  intros Hk. unfold pair_sum.
  rewrite (list_lookup_total_insert_ne c (2 * k) (2 * v + 1)) by lia.
  destruct (decide (k = v)) as [->|Hne].
  - rewrite list_lookup_total_insert_eq by done. lia.
  - rewrite list_lookup_total_insert_ne by lia. lia.
Qed.

Lemma pair_sum_incr_odd (c : list nat) (k v : nat) :
  2 * k + 1 < length c →
  pair_sum (<[2 * k + 1:=c !!! (2 * k + 1) + 1]> c) v
    = pair_sum c v + (if decide (k = v) then 1 else 0).
Proof.
  intros Hk. unfold pair_sum.
  rewrite (list_lookup_total_insert_ne c (2 * k + 1) (2 * v)) by lia.
  destruct (decide (k = v)) as [->|Hne].
  - rewrite list_lookup_total_insert_eq by done. lia.
  - rewrite list_lookup_total_insert_ne by lia. lia.
Qed.

Lemma land_1 (n : nat) : Nat.land n 1 = n mod 2.
Proof. apply (Nat.land_ones n 1). Qed.

Lemma digit_le (OFFSET MASK : nat) (x : T) : digit OFFSET MASK x ≤ MASK.
Proof.
  unfold digit.
  pose proof (N.land_le_r (N.shiftr (get_key x) (N.of_nat OFFSET)) (N.of_nat MASK)).
  lia.
Qed.

(** The counting pass leaves in [c[0..SIZE)] where each bucket starts. *)
Lemma count_digits_spec (OFFSET MASK SIZE : nat) (src n : nat) (m : list T) :
  src + n ≤ length m → MASK < SIZE →
  ∃ c, count_digits OFFSET MASK SIZE src n m = Some c ∧ length c = 2 * SIZE ∧
    ∀ v, v < SIZE →
      c !! v = Some (bucket_start (digit OFFSET MASK) v (range m src n)).
Proof.
  intros Hsrc Hmask. unfold count_digits.
  set (dig := digit OFFSET MASK). set (L := range m src n).
  assert (length L = n) as HlenL by (by apply length_range).
  assert (∀ x, dig x < SIZE) as Hdig.
  { intros x. pose proof (digit_le OFFSET MASK x). unfold dig. lia. }
  assert (∀ i, i < n → m !! (src + i) = L !! i) as Hload.
  { intros i Hi. unfold L. by rewrite range_lookup. }
  pose proof (Nat.div_mod_eq n 2) as Hdiv.
  pose proof (Nat.mod_upper_bound n 2 ltac:(lia)) as Hmod.
  (* the unrolled histogram *)
  edestruct (for_loop_inv
    (λ i c, length c = 2 * SIZE ∧
       ∀ v, v < SIZE → pair_sum c v = count_of dig v (take (2 * i) L)))
    as (c1 & -> & Hlen1 & Hc1); [| |].
  { split; [by rewrite length_replicate|]. intros v Hv. unfold pair_sum.
    rewrite !lookup_total_replicate_2 by lia. done. }
  { intros i c Hi [Hlen Hc].
    destruct (lookup_lt_is_Some_2 L (2 * i)) as [x0 Hx0]; [lia|].
    destruct (lookup_lt_is_Some_2 L (2 * i + 1)) as [x1 Hx1]; [lia|].
    rewrite (load_range m src n _ x0 Hx0). mstep.
    rewrite (load_range m src n _ x1 Hx1). mstep.
    pose proof (Hdig x0). pose proof (Hdig x1).
    rewrite incr_total by lia. mstep.
    rewrite incr_total by (rewrite length_insert; lia).
    eexists. split; [done|]. rewrite !length_insert. split; [done|].
    intros v Hv.
    rewrite pair_sum_incr_odd by (rewrite length_insert; lia).
    rewrite pair_sum_incr_even by lia. rewrite (Hc v Hv).
    replace (2 * S i) with (S (S (2 * i))) by lia.
    rewrite (count_of_take_S dig v L (S (2 * i)) x1)
      by (rewrite <- Hx1; f_equal; lia).
    rewrite (count_of_take_S dig v L (2 * i) x0 Hx0). done. }
  mstep.
  (* the odd element *)
  assert (∃ c2, (if decide (Nat.land n 1 ≠ 0)
                 then x ← load m src (n - 1); incr c1 (2 * dig x)
                 else Some c1) = Some c2 ∧ length c2 = 2 * SIZE ∧
            ∀ v, v < SIZE → pair_sum c2 v = count_of dig v L)
    as (c2 & -> & Hlen2 & Hc2).
  { rewrite land_1. destruct (decide (n mod 2 ≠ 0)) as [Hodd|Heven].
    - destruct (lookup_lt_is_Some_2 L (n - 1)) as [x Hx]; [lia|].
      rewrite (load_range m src n _ x Hx). mstep. pose proof (Hdig x).
      rewrite incr_total by lia. eexists. split; [done|].
      rewrite length_insert. split; [done|]. intros v Hv.
      rewrite pair_sum_incr_even by lia. rewrite (Hc1 v Hv).
      replace (2 * (0 + n `div` 2)) with (n - 1) by lia.
      rewrite <- (count_of_take_S dig v L (n - 1) x Hx).
      by rewrite take_ge by lia.
    - exists c1. split_and!; [done..|]. intros v Hv. rewrite (Hc1 v Hv).
      by rewrite take_ge by lia. }
  mstep.
  (* the running sum *)
  edestruct (for_loop_inv
    (λ j '(c, s), length c = 2 * SIZE ∧ s = bucket_start dig j L ∧
       (∀ v, v < j → c !! v = Some (bucket_start dig v L)) ∧
       (∀ v, j ≤ v < SIZE → pair_sum c v = count_of dig v L)))
    as ([c3 s3] & -> & Hlen3 & _ & Hc3 & _); [| |].
  { split_and!; [done|by rewrite bucket_start_0|intros; lia|intros; auto with lia]. }
  { intros j [c s] Hj (Hlen & -> & Hlo & Hhi). unfold aget.
    rewrite !list_lookup_lookup_total_lt by lia. mstep.
    rewrite aset_Some by lia. mstep. eexists. split; [done|]. split_and!.
    - by rewrite length_insert.
    - rewrite bucket_start_S, <- (Hhi j) by lia. done.
    - intros v Hv. destruct (decide (v = j)) as [->|Hne].
      + by rewrite list_lookup_insert_eq by lia.
      + rewrite list_lookup_insert_ne by lia. apply Hlo. lia.
    - intros v Hv. rewrite <- (Hhi v) by lia. unfold pair_sum.
      by rewrite !list_lookup_total_insert_ne by lia. }
  mstep. exists c3. split_and!; [done|done|].
  intros v Hv. apply Hc3. lia.
Qed.

(** The test for a bucket that holds all the elements. *)
Lemma find_full_bucket_spec (dig : T → nat) (c : list nat) (l : list T)
    (n j count : nat) :
  (∀ v, v ≤ j + count → c !! v = Some (bucket_start dig v l)) →
  ∃ b : bool, find_full_bucket c n j count = Some b ∧
    (b = true ↔ ∃ v, j ≤ v < j + count ∧ count_of dig v l = n).
Proof.
  revert j. induction count as [|count IH]; intros j Hc; simpl.
  { exists false. split; [done|]. split; [done|]. intros (v & ? & _). lia. }
  unfold aget. rewrite !Hc by lia. mstep.
  replace (j + 1) with (S j) by lia. rewrite bucket_start_S.
  replace (bucket_start dig j l + count_of dig j l - bucket_start dig j l)
    with (count_of dig j l) by lia.
  destruct (decide (count_of dig j l = n)) as [Hfull|Hnot].
  - exists true. split; [done|]. split; [|done]. intros _. exists j. split; [lia|done].
  - destruct (IH (S j)) as (b & -> & Hb).
    { intros v Hv. apply Hc. lia. }
    exists b. split; [done|]. rewrite Hb. split; intros (v & Hv & Hn).
    + exists v. split; [lia|done].
    + exists v. split; [|done]. destruct (decide (v = j)) as [->|]; [done|lia].
Qed.

(** ** Buckets *)

Section buckets.

Variable dig : T → nat.

Lemma buckets_S (K : nat) (l : list T) :
  buckets dig (S K) l = buckets dig K l ++ [filter (λ x, dig x = K) l].
Proof. unfold buckets. by rewrite seq_S, fmap_app. Qed.

Lemma length_buckets (K : nat) (l : list T) : length (buckets dig K l) = K.
Proof. unfold buckets. by rewrite length_fmap, length_seq. Qed.

Lemma buckets_lookup (K v : nat) (l : list T) :
  v < K → buckets dig K l !! v = Some (filter (λ x, dig x = v) l).
Proof.
  intros Hv. unfold buckets. by rewrite list_lookup_fmap, lookup_seq_lt.
Qed.

Lemma take_buckets (K j : nat) (l : list T) :
  j ≤ K → take j (buckets dig K l) = buckets dig j l.
Proof.
  intros Hj. unfold buckets. rewrite <- fmap_take. f_equal.
  rewrite take_seq. f_equal. lia.
Qed.

Lemma length_concat_buckets (K : nat) (l : list T) :
  length (concat (buckets dig K l)) = bucket_start dig K l.
Proof.
  induction K as [|K IH]; [by rewrite bucket_start_0|].
  rewrite buckets_S, concat_app, length_app, IH, bucket_start_S. simpl.
  by rewrite app_nil_r.
Qed.

(** Buckets that lie one after the other make up the whole range. *)
Lemma range_buckets (m : list T) (p K : nat) (l : list T) :
  (∀ v, v < K →
     range m (p + bucket_start dig v l) (count_of dig v l)
       = filter (λ x, dig x = v) l) →
  range m p (bucket_start dig K l) = concat (buckets dig K l).
Proof.
  induction K as [|K IH]; intros H.
  { by rewrite bucket_start_0. }
  rewrite bucket_start_S, range_app, buckets_S, concat_app, IH, H by auto with lia.
  simpl. by rewrite app_nil_r.
Qed.

Lemma elem_of_concat_buckets (K : nat) (l : list T) (x : T) :
  x ∈ concat (buckets dig K l) → x ∈ l ∧ dig x < K.
Proof.
  induction K as [|K IH]; [by intros ?%elem_of_nil|].
  rewrite buckets_S, concat_app. simpl. rewrite app_nil_r.
  intros [Hx|Hx]%elem_of_app.
  - destruct (IH Hx). split; [done|lia].
  - apply list_elem_of_filter in Hx as [-> ?]. split; [done|lia].
Qed.

(** A filter that selects inside one bucket does not see the scatter. *)
Lemma filter_concat_buckets (P : T → Prop) `{!∀ x, Decision (P x)}
    (K j : nat) (l : list T) :
  (∀ x, x ∈ l → dig x < K) → (∀ x, P x → dig x = j) →
  filter P (concat (buckets dig K l)) = filter P l.
Proof.
  intros HK HP.
  assert (∀ K', filter P (concat (buckets dig K' l))
                = if decide (j < K') then filter P l else []) as Hgen.
  { induction K' as [|K' IH]; [done|].
    rewrite buckets_S, concat_app, filter_app, IH. simpl. rewrite app_nil_r.
    destruct (decide (j < K')), (decide (j < S K')); try lia.
    - rewrite (filter_none P (filter _ _)), app_nil_r; [done|].
      intros x [Hx _]%list_elem_of_filter HPx%HP. lia.
    - assert (j = K') as -> by lia. simpl.
      rewrite list_filter_filter_l by done. done.
    - apply filter_none. intros x [Hx _]%list_elem_of_filter HPx%HP. lia. }
  rewrite Hgen. destruct (decide (j < K)); [done|].
  symmetry. apply filter_none. intros x Hx%HK HPx%HP. lia.
Qed.

Lemma concat_buckets_Permutation (K : nat) (l : list T) :
  (∀ x, x ∈ l → dig x < K) → concat (buckets dig K l) ≡ₚ l.
Proof.
  intros H.
  assert (∀ K', concat (buckets dig K' l) ≡ₚ filter (λ x, dig x < K') l) as Hgen.
  { induction K' as [|K' IH].
    - rewrite filter_none; [done|]. intros x _. lia.
    - rewrite buckets_S, concat_app, IH. simpl. rewrite app_nil_r.
      clear IH. induction l as [|x l IHl]; [done|].
      rewrite !filter_cons.
      destruct (decide (dig x < K')), (decide (dig x = K')), (decide (dig x < S K'));
        try lia; simpl; rewrite ?IHl by set_solver; try done.
      by rewrite <- Permutation_middle, IHl by set_solver. }
  rewrite Hgen. by rewrite filter_all.
Qed.

(** When one digit is shared, the scatter has nothing to do. *)
Lemma concat_buckets_const (K v : nat) (l : list T) :
  v < K → (∀ x, x ∈ l → dig x = v) → concat (buckets dig K l) = l.
Proof.
  intros Hv H.
  assert (∀ K', concat (buckets dig K' l) = if decide (v < K') then l else [])
    as Hgen.
  { induction K' as [|K' IH]; [done|].
    rewrite buckets_S, concat_app, IH. simpl. rewrite app_nil_r.
    destruct (decide (v < K')), (decide (v < S K')); try lia.
    - rewrite filter_none, app_nil_r; [done|]. intros x Hx%H. lia.
    - simpl. apply filter_all. intros x Hx%H. lia.
    - apply filter_none. intros x Hx%H. lia. }
  rewrite Hgen. by rewrite decide_True.
Qed.

End buckets.

(** The scatter of the out-of-place engines writes the buckets one after
    the other into [dst], and leaves in [c] where each bucket ends. *)
Lemma scatter_spec (OFFSET MASK SIZE : nat) (src dst n : nat)
    (c : list nat) (m : list T) :
  src + n ≤ length m → dst + n ≤ length m → disjoint src dst n → MASK < SIZE →
  (∀ v, v < SIZE →
     c !! v = Some (bucket_start (digit OFFSET MASK) v (range m src n))) →
  ∃ c' m', scatter OFFSET MASK src dst n c m = Some (c', m') ∧
    length m' = length m ∧
    range m' dst n = concat (buckets (digit OFFSET MASK) SIZE (range m src n)) ∧
    (∀ v, v < SIZE →
       c' !! v = Some (bucket_start (digit OFFSET MASK) (S v) (range m src n))) ∧
    unchanged_outside (within dst n) m m'.
Proof.
  intros Hsrc Hdst Hsep Hmask Hc. unfold scatter, disjoint in *.
  set (dig := digit OFFSET MASK) in *. set (L := range m src n) in *.
  assert (length L = n) as HlenL by (by apply length_range).
  assert (∀ x, dig x < SIZE) as Hdig.
  { intros x. pose proof (digit_le OFFSET MASK x). unfold dig. lia. }
  edestruct (for_loop_inv
    (λ i '(c', m'), length m' = length m ∧
       (∀ v, v < SIZE →
          (c' : list nat) !! v
            = Some (bucket_start dig v L + count_of dig v (take i L))) ∧
       (∀ v, v < SIZE →
          range m' (dst + bucket_start dig v L) (count_of dig v (take i L))
            = filter (λ x, dig x = v) (take i L)) ∧
       unchanged_outside (within dst n) m m'))
    as ([c' m'] & -> & Hlen' & Hc' & Hranges & Hun); [| |].
  { split_and!; [done| |done|apply unchanged_refl].
    intros v Hv. rewrite (Hc v Hv). f_equal. unfold count_of. simpl. lia. }
  { intros i [c' m'] Hi (Hlen' & Hc' & Hranges & Hun).
    destruct (lookup_lt_is_Some_2 L i) as [x Hx]; [lia|].
    rewrite (load_unchanged _ m m' src i Hun) by (unfold within; lia).
    rewrite (load_range m src n i x Hx). mstep.
    pose proof (Hdig x) as Hk. set (k := dig x) in *.
    unfold aget. rewrite (Hc' k Hk). mstep.
    pose proof (count_of_take_lt dig k L i x Hx eq_refl) as Hlt.
    pose proof (bucket_end_le dig SIZE k L ltac:(auto) Hk) as Hend.
    rewrite store_Some by lia. mstep.
    rewrite aset_Some by (eapply lookup_lt_Some, (Hc' k Hk)). mstep.
    eexists. split; [done|]. split_and!.
    - by rewrite length_insert.
    - intros v Hv. rewrite (count_of_take_S dig v L i x Hx). fold k.
      destruct (decide (k = v)) as [<-|Hne].
      + rewrite list_lookup_insert_eq by (eapply lookup_lt_Some, (Hc' k Hk)).
        f_equal. lia.
      + rewrite list_lookup_insert_ne by done. rewrite (Hc' v Hv). f_equal. lia.
    - intros v Hv. rewrite (count_of_take_S dig v L i x Hx), (take_S_r L i x Hx).
      rewrite filter_app, filter_cons, filter_nil. fold k.
      destruct (decide (k = v)) as [<-|Hne].
      + replace (dst + (bucket_start dig k L + count_of dig k (take i L)))
          with (dst + bucket_start dig k L + count_of dig k (take i L)) by lia.
        replace (count_of dig k (take i L) + 1)
          with (S (count_of dig k (take i L))) by lia.
        rewrite range_insert_snoc by lia. by rewrite (Hranges k Hk).
      + rewrite Nat.add_0_r, app_nil_r. rewrite <- (Hranges v Hv).
        apply range_insert_outside. unfold within.
        pose proof (count_of_take_le dig v L i).
        pose proof (bucket_start_S dig v L). pose proof (bucket_start_S dig k L).
        destruct (decide (v < k)).
        * pose proof (bucket_start_mono dig (S v) k L ltac:(lia)). lia.
        * pose proof (bucket_start_mono dig (S k) v L ltac:(lia)). lia.
    - apply unchanged_insert; [unfold within; lia|done]. }
  exists c', m'. replace (0 + n) with n in * by lia.
  rewrite take_ge in Hc', Hranges by lia.
  split_and!; [done|done| | |done].
  - rewrite <- (range_buckets dig m' dst SIZE L) by done.
    rewrite bucket_start_all by auto. by rewrite HlenL.
  - intros v Hv. rewrite (Hc' v Hv), bucket_start_S. done.
Qed.

(** ** Digits as slices of the key *)

Lemma N_of_nat_mask (k : nat) : N.of_nat (2 ^ k - 1) = N.ones (N.of_nat k).
Proof.
  rewrite N.ones_equiv, Nat2N.inj_sub, Nat2N.inj_pow. simpl. lia.
Qed.

Lemma digit_eq (OFFSET k : nat) (x : T) :
  N.of_nat (digit OFFSET (2 ^ k - 1) x) = (key_hi OFFSET x mod 2 ^ N.of_nat k)%N.
Proof.
  unfold digit, key_hi.
  by rewrite N2Nat.id, N_of_nat_mask, N.land_ones, N.shiftr_div_pow2.
Qed.

Lemma key_hi_digit (OFFSET k : nat) (x : T) :
  key_hi OFFSET x
    = (key_hi (OFFSET + k) x * 2 ^ N.of_nat k
       + N.of_nat (digit OFFSET (2 ^ k - 1) x))%N.
Proof.
  rewrite digit_eq. unfold key_hi.
  rewrite Nat2N.inj_add, N.pow_add_r, <- N.Div0.div_div.
  pose proof (N.div_mod (get_key x / 2 ^ N.of_nat OFFSET) (2 ^ N.of_nat k)) as H.
  rewrite H at 1 by (apply N.pow_nonzero; lia). lia.
Qed.

Lemma key_lo_digit (OFFSET k : nat) (x : T) :
  key_lo (OFFSET + k) x
    = (N.of_nat (digit OFFSET (2 ^ k - 1) x) * 2 ^ N.of_nat OFFSET
       + key_lo OFFSET x)%N.
Proof.
  rewrite digit_eq. unfold key_lo, key_hi.
  rewrite Nat2N.inj_add, N.pow_add_r, N.Div0.mod_mul_r. lia.
Qed.

Lemma key_lo_lt (w : nat) (x : T) : (key_lo w x < 2 ^ N.of_nat w)%N.
Proof. apply N.mod_lt, N.pow_nonzero. lia. Qed.

Lemma key_hi_0 (x : T) : key_hi 0 x = get_key x.
Proof. unfold key_hi. simpl. apply N.div_1_r. Qed.

Lemma key_hi_le (w : nat) (x y : T) :
  (key_hi w x < key_hi w y)%N → (get_key x < get_key y)%N.
Proof.
  unfold key_hi. intros Hlt.
  destruct (decide (get_key x < get_key y)%N) as [|Hge]; [done|].
  pose proof (N.Div0.div_le_mono (get_key y) (get_key x) (2 ^ N.of_nat w)
    ltac:(lia)). lia.
Qed.

(** In a range that agrees on the bits above the digit, the digit orders
    the keys. *)
Lemma digit_lt_key_lt (OFFSET k : nat) (x y : T) :
  key_hi (OFFSET + k) x = key_hi (OFFSET + k) y →
  digit OFFSET (2 ^ k - 1) x < digit OFFSET (2 ^ k - 1) y →
  (get_key x < get_key y)%N.
Proof.
  intros Hhi Hdig. apply (key_hi_le OFFSET).
  rewrite (key_hi_digit OFFSET k x), (key_hi_digit OFFSET k y), Hhi. lia.
Qed.

Lemma digit_eq_key_hi (OFFSET k : nat) (x y : T) :
  key_hi (OFFSET + k) x = key_hi (OFFSET + k) y →
  digit OFFSET (2 ^ k - 1) x = digit OFFSET (2 ^ k - 1) y →
  key_hi OFFSET x = key_hi OFFSET y.
Proof.
  intros Hhi Hdig.
  by rewrite (key_hi_digit OFFSET k x), (key_hi_digit OFFSET k y), Hhi, Hdig.
Qed.

Lemma digit_key (OFFSET MASK : nat) (x y : T) :
  get_key x = get_key y → digit OFFSET MASK x = digit OFFSET MASK y.
Proof. unfold digit. by intros ->. Qed.

Lemma pow2_pos (k : nat) : 0 < 2 ^ k.
Proof. induction k; simpl; lia. Qed.

Lemma digit_lt (OFFSET k : nat) (x : T) : digit OFFSET (2 ^ k - 1) x < 2 ^ k.
Proof.
  pose proof (digit_le OFFSET (2 ^ k - 1) x). pose proof (pow2_pos k). lia.
Qed.

(** ** Sorted buckets make a sorted range *)

Lemma same_runs_concat (kf : T → N) (Bs Ss : list (list T)) :
  Forall2 (same_runs kf) Bs Ss → same_runs kf (concat Bs) (concat Ss).
Proof.
  induction 1 as [|B S Bs Ss HBS _ IH]; [apply same_runs_refl|].
  simpl. by apply same_runs_app.
Qed.

Lemma same_runs_buckets (kf : T → N) (dig : T → nat) (K : nat) (l : list T) :
  (∀ x, x ∈ l → dig x < K) →
  (∀ x y, kf x = kf y → dig x = dig y) →
  same_runs kf l (concat (buckets dig K l)).
Proof.
  intros HK Hkf k.
  destruct (filter (λ x, kf x = k) l) as [|x0 r] eqn:Hf.
  - apply filter_none. intros x [Hx _]%elem_of_concat_buckets Hk.
    by apply (filter_nil_not_elem_of _ _ x Hf).
  - rewrite <- Hf. assert (kf x0 = k) as <-.
    { assert (x0 ∈ filter (λ x, kf x = k) l) as Hin by (rewrite Hf; set_solver).
      by apply list_elem_of_filter in Hin as [? _]. }
    apply (filter_concat_buckets _ _ _ (dig x0)); [done|]. intros x. apply Hkf.
Qed.

(** The buckets of a digit that orders the keys, each one sorted, make the
    stable sort of the whole. *)
Lemma buckets_assemble (kf : T → N) (dig : T → nat) (K : nat) (l : list T)
    (Ss : list (list T)) :
  Forall2 (stable_sort_of kf) (buckets dig K l) Ss →
  (∀ x, x ∈ l → dig x < K) →
  (∀ x y, x ∈ l → y ∈ l → dig x < dig y → (kf x ≤ kf y)%N) →
  (∀ x y, kf x = kf y → dig x = dig y) →
  stable_sort_of kf l (concat Ss).
Proof.
  intros HF HK Hord Hkf. split.
  - clear HK.
    assert (sorted_by kf (concat Ss)
            ∧ ∀ x, x ∈ concat Ss → x ∈ l ∧ dig x < K) as [? _]; [|done].
    revert Ss HF. induction K as [|K IH]; intros Ss HF.
    { apply Forall2_nil_inv_l in HF as ->. split; [constructor|].
      by intros x ?%elem_of_nil. }
    rewrite buckets_S in HF.
    apply Forall2_app_inv_l in HF as (Ss1 & Ss2 & HF1 & HF2 & ->).
    apply Forall2_cons_inv_l in HF2 as (S & Ss3 & [HS HR] & HF3 & ->).
    apply Forall2_nil_inv_l in HF3 as ->.
    destruct (IH Ss1 HF1) as [Hsorted Hin].
    rewrite concat_app. simpl. rewrite app_nil_r.
    assert (∀ y, y ∈ S → y ∈ l ∧ dig y = K) as HinS.
    { intros y Hy. apply (same_runs_elem_of _ _ _ _ HR) in Hy.
      by apply list_elem_of_filter in Hy as [? ?]. }
    split.
    + apply sorted_by_app. split_and!; [|done|done].
      intros x y [Hx Hdx]%Hin [Hy Hdy]%HinS. apply Hord; [done|done|lia].
    + intros x [Hx|Hx]%elem_of_app.
      * destruct (Hin x Hx). split; [done|lia].
      * destruct (HinS x Hx). split; [done|lia].
  - eapply same_runs_trans; [by apply same_runs_buckets|].
    apply same_runs_concat. eapply Forall2_impl; [done|]. by intros ?? [_ ?].
Qed.

(** ** The loop over the buckets of the engines *)

(** [body] sorts the segment [B] found at [from+b] into [to+b], for each
    of the segments [Bs] in turn; the segments may use [other+b] too. *)
Lemma segments_loop (R : list T → list T → Prop)
    (body : nat → nat * list T → option (nat * list T))
    (from to other : nat) (Bs : list (list T)) (n SIZE : nat) (m : list T) :
  length Bs = SIZE →
  (to = from ∨ to = other) → (from = other ∨ disjoint from other n) →
  from + n ≤ length m → other + n ≤ length m →
  range m from n = concat Bs →
  (∀ j b B m', Bs !! j = Some B → b = length (concat (take j Bs)) →
     b + length B ≤ n →
     length m' = length m → range m' (from + b) (length B) = B →
     ∃ m'', body j (b, m') = Some (b + length B, m'') ∧
       length m'' = length m' ∧
       R B (range m'' (to + b) (length B)) ∧
       unchanged_outside (buffers (from + b) (other + b) (length B)) m' m'') →
  ∃ e m' Ss, for_loop body 0 SIZE (0, m) = Some (e, m') ∧
    length m' = length m ∧ range m' to n = concat Ss ∧ Forall2 R Bs Ss ∧
    unchanged_outside (buffers from other n) m m'.
Proof.
  intros HlenBs Hto Hsep Hfrom Hother HBs Hbody.
  assert (length (concat Bs) = n) as Hn by (rewrite <- HBs; by apply length_range).
  assert (∀ j, length (concat (take j Bs)) ≤ n) as Hprefix.
  { intros j. rewrite <- Hn. rewrite <- (take_drop j Bs) at 2.
    rewrite concat_app, length_app. lia. }
  unfold disjoint in Hsep.
  edestruct (for_loop_inv
    (λ j '(b, m'), b = length (concat (take j Bs)) ∧ length m' = length m ∧
       (∃ Ss, Forall2 R (take j Bs) Ss ∧ range m' to b = concat Ss) ∧
       range m' (from + b) (n - b) = concat (drop j Bs) ∧
       unchanged_outside (buffers from other n) m m') body 0 SIZE (0, m))
    as ([e m'] & Hrun & -> & Hlen' & (Ss & HSs & Hout) & _ & Hun); [| |].
  { split_and!; [done|done| | |apply unchanged_refl].
    - exists []. split; [constructor|done].
    - by rewrite Nat.add_0_r, Nat.sub_0_r, drop_0. }
  { intros j [b m'] Hj (-> & Hlen' & (Ss & HSs & Hout) & Hrest & Hun).
    set (b := length (concat (take j Bs))) in *.
    destruct (lookup_lt_is_Some_2 Bs j) as [B HB]; [lia|].
    assert (length (concat (take (S j) Bs)) = b + length B) as HbS.
    { rewrite (take_S_r Bs j B HB), concat_app, length_app. simpl.
      rewrite app_nil_r. done. }
    pose proof (Hprefix (S j)) as HleS. rewrite HbS in HleS.
    rewrite (drop_S Bs B j HB) in Hrest. simpl in Hrest.
    destruct (Hbody j b B m') as (m'' & -> & Hlen'' & HR & Hun'');
      [done|done|done|done| |].
    { rewrite <- (range_take_le m' (from + b) (length B) (n - b)) by lia.
      by rewrite Hrest, take_app_length. }
    eexists. split; [done|]. split_and!.
    - done.
    - lia.
    - exists (Ss ++ [range m'' (to + b) (length B)]). split.
      + rewrite (take_S_r Bs j B HB). apply Forall2_app; [done|].
        by repeat constructor.
      + rewrite range_app, concat_app. simpl. rewrite app_nil_r. f_equal.
        rewrite <- Hout. apply unchanged_range with
          (R := buffers (from + b) (other + b) (length B)); [done|].
        unfold buffers, within. intros a. lia.
    - replace (from + (b + length B)) with (from + b + length B) by lia.
      replace (n - (b + length B)) with (n - b - length B) by lia.
      rewrite (unchanged_range _ m' m'' _ _ Hun'').
      + by rewrite <- range_drop, Hrest, drop_app_length.
      + unfold buffers, within. intros a. lia.
    - eapply unchanged_trans; [done|].
      eapply unchanged_weaken; [|done]. unfold buffers, within. intros a. lia. }
  exists (length (concat (take (0 + SIZE) Bs))), m', Ss.
  rewrite take_ge in HSs, Hout, Hrun by lia. rewrite Hn in Hout.
  rewrite take_ge by lia. done.
Qed.

(** ** radix_sort_msd_impl *)

Lemma xor1_0 : xor1 0 = 1%Z.
Proof. done. Qed.

Lemma xor1_1 : xor1 1 = 0%Z.
Proof. done. Qed.

Lemma stable_sort_of_pair (x0 x1 : T) :
  stable_sort_of get_key [x0; x1]
    (if key_lt x1 x0 then [x1; x0] else [x0; x1]).
Proof.
  destruct (key_lt x1 x0) eqn:Hlt.
  - apply key_lt_spec in Hlt. unfold key_le in Hlt. split.
    + apply sorted_by_cons. split; [|apply sorted_by_singleton].
      intros y ->%list_elem_of_singleton. lia.
    + intros k. rewrite !filter_cons, !filter_nil.
      destruct (decide (get_key x0 = k)), (decide (get_key x1 = k)); try done. lia.
  - assert (key_le x0 x1) as Hle.
    { destruct (decide (key_le x0 x1)) as [|Hn]; [done|].
      apply key_lt_spec in Hn. congruence. }
    split; [|apply same_runs_refl].
    apply sorted_by_cons. split; [|apply sorted_by_singleton].
    by intros y ->%list_elem_of_singleton.
Qed.

(** The [switch] on the size of a bucket, in the loop of the engine. *)
Lemma msd_segment_spec (depth' gas W' BITS THRESHOLD : nat) (src dst b : nat)
    (destination : Z) (B : list T) (m : list T) :
  msd_contract depth' gas W' BITS THRESHOLD →
  (destination = 0 ∨ destination = 1)%Z →
  length B < gas →
  src + b + length B ≤ length m → dst + b + length B ≤ length m →
  disjoint (src + b) (dst + b) (length B) →
  range m (dst + b) (length B) = B → same_hi W' B →
  ∃ m', match length B with
        | 0 => Some m
        | 1 =>
            x ← load m dst b;
            store m (if decide (destination = 0%Z) then src else dst) b x
        | 2 =>
            x1 ← load m dst (b + 1);
            x0 ← load m dst b;
            L ← load m dst (b + (if key_lt x1 x0 then 1 else 0));
            H ← load m dst (b + (if key_lt x1 x0 then 0 else 1));
            m ← store m (if decide (destination = 0%Z) then src else dst) b L;
            store m (if decide (destination = 0%Z) then src else dst) (b + 1) H
        | _ =>
            '(_, m) ← radix_sort_msd_impl depth' gas W' BITS THRESHOLD
              (dst + b) (src + b) (length B) (xor1 destination) m;
            Some m
        end = Some m' ∧
    length m' = length m ∧
    stable_sort_of get_key B
      (range m' ((if decide (destination = 0%Z) then src else dst) + b) (length B)) ∧
    unchanged_outside (buffers (dst + b) (src + b) (length B)) m m'.
Proof.
  intros Hrec Hdest Hgas Hsrc Hdst Hsep HB Hhi. unfold disjoint in Hsep.
  set (out := if decide (destination = 0%Z) then src else dst).
  assert (out = src ∨ out = dst) as Hout by (unfold out; destruct (decide _); auto).
  destruct B as [|x0 [|x1 [|x2 B]]]; cbn [length] in *.
  - exists m. split_and!; [done|done| |apply unchanged_refl].
    rewrite range_0. apply stable_sort_of_nil.
  - rewrite (load_of_range m _ _ _ 0 dst b x0 HB) by (done || lia). mstep.
    rewrite store_Some by lia. eexists. split; [done|]. split_and!.
    + by rewrite length_insert.
    + rewrite (range_cons _ _ _ x0) by (apply list_lookup_insert_eq; lia).
      rewrite range_0. apply stable_sort_of_singleton.
    + apply unchanged_insert; [|apply unchanged_refl].
      unfold buffers, within. lia.
  - rewrite (load_of_range m _ _ _ 1 dst (b + 1) x1 HB) by (done || lia). mstep.
    rewrite (load_of_range m _ _ _ 0 dst b x0 HB) by (done || lia). mstep.
    pose proof (stable_sort_of_pair x0 x1) as Hpair.
    destruct (key_lt x1 x0).
    + rewrite (load_of_range m _ _ _ 1 dst (b + 1) x1 HB) by (done || lia). mstep.
      rewrite (load_of_range m _ _ _ 0 dst (b + 0) x0 HB) by (done || lia). mstep.
      rewrite store_Some by lia. mstep.
      rewrite store_Some by (rewrite length_insert; lia).
      eexists. split; [done|]. split_and!.
      * by rewrite !length_insert.
      * rewrite (range_cons _ _ _ x1).
        2:{ rewrite list_lookup_insert_ne by lia. apply list_lookup_insert_eq. lia. }
        rewrite (range_cons _ _ _ x0).
        2:{ replace (S (out + b)) with (out + (b + 1)) by lia.
            apply list_lookup_insert_eq. rewrite length_insert. lia. }
        by rewrite range_0.
      * apply unchanged_insert; [unfold buffers, within; lia|].
        apply unchanged_insert; [unfold buffers, within; lia|].
        apply unchanged_refl.
    + rewrite (load_of_range m _ _ _ 0 dst (b + 0) x0 HB) by (done || lia). mstep.
      rewrite (load_of_range m _ _ _ 1 dst (b + 1) x1 HB) by (done || lia). mstep.
      rewrite store_Some by lia. mstep.
      rewrite store_Some by (rewrite length_insert; lia).
      eexists. split; [done|]. split_and!.
      * by rewrite !length_insert.
      * rewrite (range_cons _ _ _ x0).
        2:{ rewrite list_lookup_insert_ne by lia. apply list_lookup_insert_eq. lia. }
        rewrite (range_cons _ _ _ x1).
        2:{ replace (S (out + b)) with (out + (b + 1)) by lia.
            apply list_lookup_insert_eq. rewrite length_insert. lia. }
        by rewrite range_0.
      * apply unchanged_insert; [unfold buffers, within; lia|].
        apply unchanged_insert; [unfold buffers, within; lia|].
        apply unchanged_refl.
  - set (B' := x0 :: x1 :: x2 :: B) in *.
    change (S (S (S (length B)))) with (length B') in *.
    destruct (Hrec (dst + b) (src + b) (length B') (xor1 destination) m)
      as (m' & -> & Hlen' & Hsort & Hun);
      [done|lia|lia|unfold disjoint; lia| |by rewrite HB|].
    { destruct Hdest as [->| ->]; [right|left]; done. }
    mstep. exists m'. split; [done|]. split_and!; [done| |done].
    rewrite HB in Hsort.
    replace (out + b)
      with (if decide (xor1 destination = 0%Z) then dst + b else src + b); [done|].
    unfold out. destruct Hdest as [->| ->]; done.
Qed.

Lemma stable_sort_of_same_key (l : list T) :
  same_hi 0 l → stable_sort_of get_key l l.
Proof.
  intros Hhi. split; [|apply same_runs_refl].
  destruct l as [|x0 l]; [constructor|].
  apply (sorted_by_const _ _ (get_key x0)). intros x Hx.
  rewrite <- !key_hi_0. apply Hhi; [done|set_solver].
Qed.

Lemma same_hi_bucket (OFFSET k j : nat) (l : list T) :
  same_hi (OFFSET + k) l →
  same_hi OFFSET (filter (λ x, digit OFFSET (2 ^ k - 1) x = j) l).
Proof.
  intros Hhi x y [Hdx Hx]%list_elem_of_filter [Hdy Hy]%list_elem_of_filter.
  apply (digit_eq_key_hi OFFSET k); [by apply Hhi|congruence].
Qed.

Lemma msd_assemble (OFFSET k K : nat) (l : list T) (Ss : list (list T)) :
  same_hi (OFFSET + k) l →
  (∀ x, x ∈ l → digit OFFSET (2 ^ k - 1) x < K) →
  Forall2 (stable_sort_of get_key) (buckets (digit OFFSET (2 ^ k - 1)) K l) Ss →
  stable_sort_of get_key l (concat Ss).
Proof.
  intros Hhi HK HF.
  apply (buckets_assemble get_key (digit OFFSET (2 ^ k - 1)) K); [done|done| |].
  - intros x y Hx Hy Hlt. apply N.lt_le_incl.
    apply (digit_lt_key_lt OFFSET k); [by apply Hhi|done].
  - intros x y. apply digit_key.
Qed.

Lemma radix_sort_msd_impl_spec (depth gas WIDTH BITS THRESHOLD : nat) :
  0 < BITS → 0 < WIDTH → WIDTH ≤ depth * BITS →
  msd_contract depth gas WIDTH BITS THRESHOLD.
Proof.
  revert WIDTH. induction depth as [|depth IH]; intros WIDTH HBITS HWIDTH Hdepth;
    [lia|].
  intros src dst n destination m Hgas Hsrc Hdst Hsep Hdest Hhi.
  cbn [radix_sort_msd_impl].
  set (k := if decide (BITS < WIDTH) then BITS else WIDTH).
  set (OFFSET := WIDTH - k).
  assert (WIDTH = OFFSET + k ∧ 0 < k ∧ (0 < OFFSET → OFFSET ≤ depth * BITS))
    as (HW & Hk & HO).
  { unfold OFFSET, k. destruct (decide (BITS < WIDTH)); lia. }
  destruct (decide (n < THRESHOLD)) as [Hsmall|Hbig].
  { by apply fallback_sort_spec. }
  set (L := range m src n) in *. set (dig := digit OFFSET (2 ^ k - 1)).
  assert (length L = n) as HlenL by (by apply length_range).
  pose proof (pow2_pos k) as Hpow.
  assert (∀ x, dig x < 2 ^ k) as Hdig by (intros x; apply digit_lt).
  rewrite HW in Hhi.
  unfold msd_partition.
  destruct (count_digits_spec OFFSET (2 ^ k - 1) (2 ^ k) src n m)
    as (c & -> & Hlenc & Hc); [done|lia|]. mstep. fold dig L in Hc.
  destruct (find_full_bucket_spec dig c L n 0 (2 ^ k - 1))
    as (full & -> & Hfull); [intros v Hv; apply Hc; lia|]. mstep.
  (* the state after the partition *)
  match goal with |- context [mbind ?f (if full then ?a else ?b)] =>
    assert (∃ src' dst' dest' c' m1 Bs,
      (if full then a else b) = Some (src', dst', dest', c', m1) ∧
      (src' = src ∧ dst' = dst ∧ dest' = destination
       ∨ src' = dst ∧ dst' = src ∧ dest' = xor1 destination) ∧
      length m1 = length m ∧ unchanged_outside (buffers src dst n) m m1 ∧
      length Bs = 2 ^ k ∧ range m1 dst' n = concat Bs ∧
      (∀ j, j < 2 ^ k → c' !! j = Some (length (concat (take (S j) Bs)))) ∧
      (∀ B, B ∈ Bs → same_hi OFFSET B) ∧
      (∀ Ss, Forall2 (stable_sort_of get_key) Bs Ss →
         stable_sort_of get_key L (concat Ss)))
      as (src' & dst' & dest' & c' & m1 & Bs & -> & Hroles & Hlen1 & Hun1
          & HlenBs & HBs & Hc' & HhiBs & Hasm)
  end.
  { destruct full.
    - destruct Hfull as [Hex _]. destruct (Hex eq_refl) as (v & Hv & Hcount).
      assert (∀ x, x ∈ L → dig x = v) as Hconst.
      { apply count_of_full. by rewrite HlenL. }
      exists dst, src, (xor1 destination), c, m, ([] :: buckets dig (2 ^ k - 1) L).
      split_and!; [done|by right|done|apply unchanged_refl| | | | |].
      + simpl. rewrite length_buckets. lia.
      + simpl. by rewrite (concat_buckets_const dig _ v) by (done || lia).
      + intros j Hj. rewrite Hc by done. f_equal. simpl.
        rewrite take_buckets by lia. by rewrite length_concat_buckets.
      + intros B [->|HB]%elem_of_cons.
        { by intros x y ?%elem_of_nil. }
        apply list_elem_of_lookup in HB as [j HB].
        pose proof (lookup_lt_Some _ _ _ HB) as Hj. rewrite length_buckets in Hj.
        rewrite buckets_lookup in HB by done. injection HB as <-.
        by apply same_hi_bucket.
      + intros Ss HF. apply Forall2_cons_inv_l in HF as (S0 & Ss' & [_ HS0] & HF & ->).
        apply same_runs_nil_inv in HS0 as ->. simpl.
        apply (msd_assemble OFFSET k (2 ^ k - 1)); [done| |done].
        intros x Hx. fold dig. rewrite (Hconst x Hx). lia.
    - destruct (scatter_spec OFFSET (2 ^ k - 1) (2 ^ k) src dst n c m)
        as (c' & m1 & -> & Hlen1 & Hout & Hc' & Hun1); [done|done|done|lia|done|].
      mstep. fold dig L in Hout, Hc'.
      exists src, dst, destination, c', m1, (buckets dig (2 ^ k) L).
      split_and!; [done|by left|done| | |done| | |].
      + eapply unchanged_weaken; [|done]. unfold buffers. tauto.
      + apply length_buckets.
      + intros j Hj. rewrite Hc' by done. f_equal.
        rewrite take_buckets by lia. by rewrite length_concat_buckets.
      + intros B HB. apply list_elem_of_lookup in HB as [j HB].
        pose proof (lookup_lt_Some _ _ _ HB) as Hj. rewrite length_buckets in Hj.
        rewrite buckets_lookup in HB by done. injection HB as <-.
        by apply same_hi_bucket.
      + intros Ss HF. apply (msd_assemble OFFSET k (2 ^ k)); [done| |done].
        intros x _. apply Hdig. }
  mstep.
  set (out := if decide (dest' = 0%Z) then src' else dst').
  assert (out = (if decide (destination = 0%Z) then src else dst)
          ∧ (dest' = 0 ∨ dest' = 1)%Z ∧ disjoint dst' src' n
          ∧ dst' + n ≤ length m1 ∧ src' + n ≤ length m1
          ∧ (∀ a, buffers dst' src' n a → buffers src dst n a))
    as (Hout & Hdest' & Hsep' & Hdst' & Hsrc' & Hbuf).
  { unfold out, disjoint, buffers in *.
    destruct Hroles as [(-> & -> & ->)|(-> & -> & ->)];
      destruct Hdest as [->| ->]; simpl; split_and!; auto; try lia; tauto. }
  (* the loop over the buckets *)
  match goal with |- context [mbind ?f (if decide (0 < OFFSET) then ?a else ?b)] =>
    assert (∃ m2 Ss, (if decide (0 < OFFSET) then a else b) = Some m2 ∧
      length m2 = length m1 ∧ unchanged_outside (buffers dst' src' n) m1 m2 ∧
      Forall2 (stable_sort_of get_key) Bs Ss ∧
      range m2 (if decide (0 < OFFSET) then out else dst') n = concat Ss)
      as (m2 & Ss & -> & Hlen2 & Hun2 & HSs & Hres)
  end.
  { destruct (decide (0 < OFFSET)) as [Hpos|Hzero].
    - edestruct segments_loop with (R := stable_sort_of get_key)
        (from := dst') (to := out) (other := src') (Bs := Bs) (n := n)
        (SIZE := 2 ^ k) (m := m1)
        as (e & m2 & Ss & -> & Hlen2 & Hres & HSs & Hun2);
        [done| |by right|done|done|done| |].
      { unfold out. destruct (decide (dest' = 0%Z)); auto. }
      { intros j b B m' HB Hb Hle Hlen' Hrange.
        pose proof (lookup_lt_Some _ _ _ HB) as Hj. rewrite HlenBs in Hj.
        unfold aget. rewrite (Hc' j Hj). mstep.
        rewrite (take_S_r Bs j B HB), concat_app, length_app, <- Hb. simpl.
        rewrite app_nil_r. replace (b + length B - b) with (length B) by lia.
        unfold disjoint in Hsep'. unfold out.
        destruct (msd_segment_spec depth gas OFFSET BITS THRESHOLD src' dst' b
          dest' B m') as (m'' & -> & Hlen'' & Hsort & Hun'');
          [by apply IH; auto|done|lia|lia|lia|unfold disjoint; lia|done|
           by apply HhiBs, (list_elem_of_lookup_2 _ j)|].
        mstep. exists m''. done. }
      mstep. exists m2, Ss. done.
    - assert (OFFSET = 0) as HO0 by lia. exists m1, Bs.
      split_and!; [done|done|apply unchanged_refl| |done].
      apply Forall_Forall2_diag, Forall_forall. intros B HB.
      apply stable_sort_of_same_key. rewrite <- HO0. by apply HhiBs. }
  mstep.
  destruct (decide (OFFSET = 0 ∧ dest' = 0%Z)) as [[HO0 Hd0]|Hno].
  - rewrite decide_False in Hres by lia.
    destruct (copy_loop_spec dst' src' n m2) as (m3 & -> & Hlen3 & Hcopy & Hun3);
      [lia|lia|done|]. mstep.
    exists m3. rewrite <- Hout. split; [done|]. split_and!; [lia| |].
    + unfold out. rewrite decide_True by done. rewrite Hcopy, Hres. by apply Hasm.
    + eapply unchanged_trans; [done|]. eapply unchanged_trans.
      * eapply unchanged_weaken; [|done]. done.
      * eapply unchanged_weaken; [|done]. intros a Ha. apply Hbuf.
        unfold buffers. tauto.
  - mstep. exists m2. rewrite <- Hout. split; [done|]. split_and!; [lia| |].
    + assert (range m2 out n = concat Ss) as ->; [|by apply Hasm].
      destruct (decide (0 < OFFSET)); [done|].
      unfold out. rewrite decide_False; [done|]. intros ?. apply Hno. lia.
    + eapply unchanged_trans; [done|]. eapply unchanged_weaken; [|done]. done.
Qed.

(** ** radix_sort_lsd_impl *)

Lemma sorted_by_impl (kf kf' : T → N) (l : list T) :
  (∀ x y, x ∈ l → y ∈ l → (kf x ≤ kf y)%N → (kf' x ≤ kf' y)%N) →
  sorted_by kf l → sorted_by kf' l.
Proof.
  induction l as [|x l IH]; intros Himp; [constructor|].
  rewrite !sorted_by_cons. intros [Hx Hl]. split.
  - intros y Hy. apply Himp; [set_solver|set_solver|by apply Hx].
  - apply IH; [|done]. intros y z Hy Hz. apply Himp; set_solver.
Qed.

Lemma stable_sort_of_ext (kf kf' : T → N) (l l' : list T) :
  (∀ x, kf x = kf' x) → stable_sort_of kf l l' → stable_sort_of kf' l l'.
Proof.
  intros Heq [Hs Hr]. split.
  - eapply sorted_by_impl; [|done]. intros x y _ _. by rewrite !Heq.
  - intros k. specialize (Hr k).
    rewrite <- (list_filter_iff (λ x, kf x = k) (λ x, kf' x = k) l')
      by (intros x; by rewrite Heq).
    rewrite <- (list_filter_iff (λ x, kf x = k) (λ x, kf' x = k) l)
      by (intros x; by rewrite Heq).
    done.
Qed.

Lemma key_lo_mod (OFFSET k : nat) (x : T) :
  (key_lo (OFFSET + k) x mod 2 ^ N.of_nat OFFSET)%N = key_lo OFFSET x.
Proof.
  rewrite key_lo_digit. pose proof (key_lo_lt OFFSET x).
  rewrite N.add_comm, N.Div0.mod_add. by apply N.mod_small.
Qed.

Lemma key_lo_div (OFFSET k : nat) (x : T) :
  (key_lo (OFFSET + k) x / 2 ^ N.of_nat OFFSET)%N
    = N.of_nat (digit OFFSET (2 ^ k - 1) x).
Proof.
  rewrite key_lo_digit. pose proof (key_lo_lt OFFSET x).
  rewrite N.div_add_l by (apply N.pow_nonzero; lia).
  rewrite N.div_small by done. lia.
Qed.

(** One pass of the least significant digit sort: a sequence sorted on its
    [OFFSET] low bits, scattered on the next digit, is sorted on the bits
    up to that digit. *)
Lemma lsd_pass (OFFSET k : nat) (l0 l : list T) :
  stable_sort_of (key_lo OFFSET) l0 l →
  stable_sort_of (key_lo (OFFSET + k)) l0
    (concat (buckets (digit OFFSET (2 ^ k - 1)) (2 ^ k) l)).
Proof.
  intros [Hs Hr].
  set (dig := digit OFFSET (2 ^ k - 1)). set (kf := key_lo (OFFSET + k)).
  assert (∀ x, kf x = (N.of_nat (dig x) * 2 ^ N.of_nat OFFSET + key_lo OFFSET x)%N)
    as Hkf by (intros x; apply key_lo_digit).
  assert (stable_sort_of kf l (concat (buckets dig (2 ^ k) l))) as [Hs' Hr'].
  { apply (buckets_assemble kf dig (2 ^ k)).
    - apply Forall_Forall2_diag, Forall_forall.
      intros B [j HB]%list_elem_of_lookup.
      pose proof (lookup_lt_Some _ _ _ HB) as Hj. rewrite length_buckets in Hj.
      rewrite buckets_lookup in HB by done. injection HB as <-.
      split; [|apply same_runs_refl].
      apply (sorted_by_impl (key_lo OFFSET)); [|by apply sorted_by_filter].
      intros x y [Hx _]%list_elem_of_filter [Hy _]%list_elem_of_filter.
      rewrite !Hkf, Hx, Hy. lia.
    - intros x _. apply digit_lt.
    - intros x y _ _ Hlt. rewrite !Hkf.
      pose proof (key_lo_lt OFFSET x). nia.
    - intros x y Heq. apply Nat2N.inj. unfold dig.
      rewrite <- !key_lo_div. fold kf. by rewrite Heq. }
  split; [done|]. eapply same_runs_trans; [|done].
  intros c.
  rewrite <- (list_filter_filter_l (λ x, kf x = c)
    (λ x, key_lo OFFSET x = (c mod 2 ^ N.of_nat OFFSET)%N) l)
    by (intros x <-; symmetry; apply key_lo_mod).
  rewrite <- (list_filter_filter_l (λ x, kf x = c)
    (λ x, key_lo OFFSET x = (c mod 2 ^ N.of_nat OFFSET)%N) l0)
    by (intros x <-; symmetry; apply key_lo_mod).
  by rewrite Hr.
Qed.

Lemma radix_sort_lsd_impl_spec (depth WIDTH BITS : nat) (src dst n : nat)
    (m : list T) (l0 : list T) :
  0 < BITS → 0 < WIDTH → WIDTH ≤ sizeof_key * CHAR_BIT → WIDTH ≤ depth * BITS →
  src + n ≤ length m → dst + n ≤ length m → disjoint src dst n →
  stable_sort_of (key_lo (sizeof_key * CHAR_BIT - WIDTH)) l0 (range m src n) →
  ∃ ret m', radix_sort_lsd_impl depth WIDTH BITS src dst n m = Some (ret, m') ∧
    (ret = src ∨ ret = dst) ∧ length m' = length m ∧
    stable_sort_of (key_lo (sizeof_key * CHAR_BIT)) l0 (range m' ret n) ∧
    unchanged_outside (buffers src dst n) m m'.
Proof.
  revert WIDTH src dst m.
  induction depth as [|depth IH];
    intros WIDTH src dst m HBITS HWIDTH HW Hdepth Hsrc Hdst Hsep Hsorted; [lia|].
  cbn [radix_sort_lsd_impl].
  set (W := sizeof_key * CHAR_BIT) in *.
  set (k := if decide (BITS < WIDTH) then BITS else WIDTH).
  set (OFFSET := W - WIDTH) in *.
  set (L := range m src n) in *. set (dig := digit OFFSET (2 ^ k - 1)).
  assert (length L = n) as HlenL by (by apply length_range).
  pose proof (pow2_pos k) as Hpow.
  unfold lsd_partition.
  destruct (count_digits_spec OFFSET (2 ^ k - 1) (2 ^ k) src n m)
    as (c & -> & Hlenc & Hc); [done|lia|]. mstep. fold dig L in Hc.
  destruct (find_full_bucket_spec dig c L n 0 (2 ^ k - 1))
    as (full & -> & Hfull); [intros v Hv; apply Hc; lia|]. mstep.
  match goal with |- context [mbind ?f (if full then ?a else ?b)] =>
    assert (∃ src' dst' m1,
      (if full then a else b) = Some (src', dst', m1) ∧
      (src' = src ∧ dst' = dst ∨ src' = dst ∧ dst' = src) ∧
      length m1 = length m ∧ unchanged_outside (buffers src dst n) m m1 ∧
      range m1 dst' n = concat (buckets dig (2 ^ k) L))
      as (src' & dst' & m1 & -> & Hroles & Hlen1 & Hun1 & Hout)
  end.
  { destruct full.
    - destruct Hfull as [Hex _]. destruct (Hex eq_refl) as (v & Hv & Hcount).
      assert (∀ x, x ∈ L → dig x = v) as Hconst.
      { apply count_of_full. by rewrite HlenL. }
      exists dst, src, m. split_and!; [done|by right|done|apply unchanged_refl|].
      by rewrite (concat_buckets_const dig _ v) by (done || lia).
    - destruct (scatter_spec OFFSET (2 ^ k - 1) (2 ^ k) src dst n c m)
        as (c' & m1 & -> & Hlen1 & Hout & Hc' & Hun1); [done|done|done|lia|done|].
      mstep. exists src, dst, m1. split_and!; [done|by left|done| |done].
      eapply unchanged_weaken; [|done]. unfold buffers. tauto. }
  mstep.
  assert (stable_sort_of (key_lo (OFFSET + k)) l0 (range m1 dst' n)) as Hpass.
  { rewrite Hout. by apply lsd_pass. }
  assert (disjoint dst' src' n ∧ dst' + n ≤ length m1 ∧ src' + n ≤ length m1
          ∧ (∀ a, buffers dst' src' n a → buffers src dst n a))
    as (Hsep' & Hdst' & Hsrc' & Hbuf).
  { unfold disjoint, buffers in *.
    destruct Hroles as [[-> ->]|[-> ->]]; split_and!; try lia; tauto. }
  destruct (decide (BITS < WIDTH)) as [Hlt|Hge].
  - destruct (IH (WIDTH - BITS) dst' src' m1)
      as (ret & m2 & -> & Hret & Hlen2 & Hsort2 & Hun2); [lia..|done| |].
    { fold W. replace (W - (WIDTH - BITS)) with (OFFSET + k); [done|].
      unfold OFFSET, k. cbn [decide]. lia. }
    exists ret, m2. split_and!; [done| |lia|done|].
    + destruct Hroles as [[-> ->]|[-> ->]]; tauto.
    + eapply unchanged_trans; [done|]. eapply unchanged_weaken; [|done]. done.
  - exists dst', m1. split_and!; [done| |done| |done].
    + destruct Hroles as [[-> ->]|[-> ->]]; tauto.
    + replace W with (OFFSET + k); [done|].
      unfold OFFSET, k. lia.
Qed.

(** ** Swaps and counts, for the in-place engine *)

Lemma insert_Permutation (l : list T) (j : nat) (y a : T) :
  l !! j = Some y → y :: <[j:=a]> l ≡ₚ a :: l.
Proof.
  revert j. induction l as [|b l IH]; intros [|j] Hj; simplify_eq/=.
  - apply Permutation_swap.
  - rewrite Permutation_swap, (IH j Hj). apply Permutation_swap.
Qed.

(** Exchanging two cells permutes the sequence. *)
Lemma swap_Permutation (l : list T) (i j : nat) (x y : T) :
  l !! i = Some x → l !! j = Some y → <[j:=x]> (<[i:=y]> l) ≡ₚ l.
Proof.
  revert i j. induction l as [|a l IH]; intros [|i] [|j] Hi Hj; simplify_eq/=.
  - done.
  - by apply insert_Permutation.
  - by apply insert_Permutation.
  - f_equiv. by apply IH.
Qed.

Lemma range_insert_inside (m : list T) (p n i : nat) (v : T) :
  i < n → range (<[p + i:=v]> m) p n = <[i:=v]> (range m p n).
Proof.
  intros Hi. unfold range. rewrite drop_insert_ge by lia.
  replace (p + i - p) with i by lia. by rewrite take_insert_lt.
Qed.

Lemma range_swap_Permutation (m : list T) (p n i j : nat) (x y : T) :
  i < n → j < n → m !! (p + i) = Some x → m !! (p + j) = Some y →
  range (<[p + j:=x]> (<[p + i:=y]> m)) p n ≡ₚ range m p n.
Proof.
  intros Hi Hj Hx Hy. rewrite !range_insert_inside by done.
  apply swap_Permutation; by rewrite range_lookup.
Qed.

Section counting.

Variable dig : T → nat.

Lemma count_of_Permutation (v : nat) (l l' : list T) :
  l ≡ₚ l' → count_of dig v l = count_of dig v l'.
Proof. intros H. unfold count_of. by rewrite H. Qed.

Lemma count_of_pos (v : nat) (l : list T) (i : nat) (x : T) :
  l !! i = Some x → dig x = v → 1 ≤ count_of dig v l.
Proof.
  intros Hx Hv. pose proof (count_of_take_lt dig v l i x Hx Hv). lia.
Qed.

(** A digit found in all the cells [a..b) and in one more cell occurs
    more than [b-a] times. *)
Lemma count_of_segment (v : nat) (l : list T) (a b k : nat) :
  a ≤ b → b ≤ length l →
  (∀ i, a ≤ i < b → ∃ x, l !! i = Some x ∧ dig x = v) →
  (k < a ∨ b ≤ k) → (∃ x, l !! k = Some x ∧ dig x = v) →
  b - a + 1 ≤ count_of dig v l.
Proof.
  intros Hab Hb Hseg Hk (x & Hx & Hv).
  rewrite <- (take_drop a l), count_of_app.
  rewrite <- (take_drop (b - a) (drop a l)), count_of_app, drop_drop.
  assert (count_of dig v (take (b - a) (drop a l)) = b - a) as ->.
  { rewrite count_of_const.
    - rewrite length_take, length_drop. lia.
    - intros y [i [Hy Hi]]%elem_of_take. rewrite lookup_drop in Hy.
      destruct (Hseg (a + i)) as (z & Hz & ?); [lia|]. congruence. }
  destruct Hk as [Hk|Hk].
  - assert (1 ≤ count_of dig v (take a l)); [|lia].
    apply (count_of_pos v _ k x); [|done]. by rewrite lookup_take_lt.
  - assert (1 ≤ count_of dig v (drop (a + (b - a)) l)); [|lia].
    apply (count_of_pos v _ (k - b) x); [|done].
    rewrite lookup_drop, <- Hx. f_equal. lia.
Qed.

Lemma count_of_bucket (j : nat) (l : list T) :
  count_of dig j l = bucket_start dig (S j) l - bucket_start dig j l.
Proof. rewrite bucket_start_S. lia. Qed.

End counting.

(** ** Sums over the buckets *)

Lemma sum_list_with_le (f g : nat → nat) (l : list nat) :
  (∀ v, v ∈ l → g v ≤ f v) → sum_list_with g l ≤ sum_list_with f l.
Proof.
  induction l as [|a l IH]; intros H; simpl; [done|].
  pose proof (H a ltac:(set_solver)). pose proof (IH ltac:(set_solver)). lia.
Qed.

Lemma sum_list_with_lt (f g : nat → nat) (l : list nat) (h : nat) :
  h ∈ l → (∀ v, v ∈ l → g v ≤ f v) → g h < f h →
  sum_list_with g l < sum_list_with f l.
Proof.
  induction l as [|a l IH]; intros Hh H Hlt; [by apply elem_of_nil in Hh|].
  simpl. pose proof (H a ltac:(set_solver)).
  pose proof (sum_list_with_le f g l ltac:(set_solver)).
  apply elem_of_cons in Hh as [->|Hh]; [lia|].
  pose proof (IH Hh ltac:(set_solver) Hlt). lia.
Qed.

Lemma sum_bucket_sizes (dig : T → nat) (l : list T) (K : nat) :
  sum_list_with (λ v, bucket_start dig (S v) l - bucket_start dig v l) (seq 0 K)
    = bucket_start dig K l.
Proof.
  induction K as [|K IH]; [by rewrite bucket_start_0|].
  rewrite seq_S, sum_list_with_app, IH. simpl.
  pose proof (bucket_start_mono dig K (S K) l). lia.
Qed.

(** ** The in-place scatter *)

Section inplace_scatter.

Variables (OFFSET MASK SIZE src n : nat) (l m0 : list T).

Hypothesis Hmask : MASK < SIZE.
Hypothesis Hsrc : src + n ≤ length m0.
Hypothesis Hlen : length l = n.

Local Abbreviation dig := (digit OFFSET MASK).
Local Abbreviation bs := (bucket_start (digit OFFSET MASK)).
Local Abbreviation inv := (inplace_inv (digit OFFSET MASK) SIZE src n l m0).

Lemma dig_lt (x : T) : dig x < SIZE.
Proof. pose proof (digit_le OFFSET MASK x). lia. Qed.

Lemma bs_le_n (v : nat) : bs v l ≤ n.
Proof. rewrite <- Hlen. apply bucket_start_le. Qed.

Lemma bucket_ranges_disjoint (v v' i i' : nat) :
  v ≠ v' → bs v l ≤ i < bs (S v) l → bs v' l ≤ i' < bs (S v') l → i ≠ i'.
Proof.
  intros Hne Hi Hi'. destruct (decide (v < v')).
  - pose proof (bucket_start_mono dig (S v) v' l ltac:(lia)). lia.
  - pose proof (bucket_start_mono dig (S v') v l ltac:(lia)). lia.
Qed.

Lemma unplaced_le (c : list nat) (m : list T) : inv c m → unplaced dig SIZE l c ≤ n.
Proof.
  intros (_ & _ & _ & _ & _ & Hd). unfold unplaced.
  etrans; [|apply (bs_le_n SIZE)]. rewrite <- sum_bucket_sizes.
  apply sum_list_with_le. intros v [_ Hv]%elem_of_seq.
  destruct (Hd v) as [? _]; lia.
Qed.

Lemma inplace_inv_init (c : list nat) :
  length c = 2 * SIZE →
  (∀ v, v < SIZE → c !! v = Some (bs v l)) →
  (∀ v, v < SIZE → c !! (SIZE + v) = Some (bs (S v) l)) →
  range m0 src n = l →
  inv c m0.
Proof.
  intros Hlenc Hc Hd Hl. split_and!; [done|apply unchanged_refl|by rewrite Hl|done|done|].
  intros v Hv. rewrite (list_lookup_total_correct _ _ _ (Hc v Hv)).
  pose proof (bucket_start_mono dig v (S v) l). split; [lia|]. intros i Hi. lia.
Qed.

(** The chase: an element out of place is exchanged with the cell at the
    cursor of its bucket, until an element of bucket [j] arrives. *)
Lemma chase_spec (gas : nat) (j k h : nat) (c : list nat) (m : list T) :
  n < gas → j < SIZE →
  inv c m → complete_below dig l j c →
  c !!! j = k → k < bs (S j) l →
  (∃ x, m !! (src + k) = Some x ∧ dig x = h) →
  ∃ c' m', chase gas OFFSET MASK src j k h c m = Some (c', m') ∧
    inv c' m' ∧ complete_below dig l j c' ∧ c' !!! j = k ∧
    (∃ x, m' !! (src + k) = Some x ∧ dig x = j).
Proof.
  intros Hgas Hj Hinv Hcomp Hcj Hk Hat. unfold chase.
  edestruct (loop_inv
    (λ '(h, c, m), inv c m ∧ complete_below dig l j c ∧ c !!! j = k ∧
       ∃ x, m !! (src + k) = Some x ∧ dig x = h)
    (λ '(h, c, m), unplaced dig SIZE l c)
    (λ '(c', m'), inv c' m' ∧ complete_below dig l j c' ∧ c' !!! j = k ∧
       ∃ x, m' !! (src + k) = Some x ∧ dig x = j))
    as ([c' m'] & Hrun & HQ); [| |intros [[h' c1] m1]|].
  4: { exists c', m'. split; [exact Hrun|exact HQ]. }
  { done. }
  { simpl. pose proof (unplaced_le c m Hinv). lia. }
  clear h c m Hinv Hcomp Hcj Hat.
  intros (Hinv & Hcomp & Hcj & xk & Hxk & Hh). simpl.
  destruct (decide (j ≠ h')) as [Hne|Heq].
  2: { assert (j = h') as <- by (by apply dec_stable). eauto 10. }
  set (h := h') in *.
  destruct Hinv as (Hlenm & Hun & Hperm & Hlenc & Hd & Hplaced).
  assert (h < SIZE) as HhS by (rewrite <- Hh; apply dig_lt).
  destruct (Hplaced h HhS) as [Hch Hplaced_h].
  destruct (Hplaced j Hj) as [Hcj' _]. rewrite Hcj in Hcj'.
  set (ch := c1 !!! h) in *.
  pose proof (bs_le_n (S h)) as HSh. pose proof (bs_le_n (S j)) as HSj.
  assert (k < bs h l ∨ bs (S h) l ≤ k) as Hout.
  { destruct (decide (j < h)).
    - pose proof (bucket_start_mono dig (S j) h l ltac:(lia)). lia.
    - pose proof (bucket_start_mono dig (S h) j l ltac:(lia)). lia. }
  assert (ch < bs (S h) l) as Hroom.
  { pose proof (count_of_segment dig h (range m1 src n) (bs h l) ch k) as Hcount.
    rewrite (count_of_Permutation dig h _ l Hperm), count_of_bucket in Hcount.
    rewrite length_range in Hcount by lia.
    pose proof (bucket_start_mono dig h (S h) l ltac:(lia)).
    enough (ch - bs h l + 1 ≤ bs (S h) l - bs h l) by lia.
    apply Hcount; [lia|lia| |lia|].
    - intros i Hi. rewrite range_lookup by lia. by apply Hplaced_h.
    - exists xk. by rewrite range_lookup by lia. }
  assert (ch ≠ k) as Hchk by lia.
  unfold aget. rewrite (list_lookup_lookup_total_lt c1 h) by lia. mstep. fold ch.
  destruct (lookup_lt_is_Some_2 m1 (src + ch)) as [t Ht]; [lia|].
  rewrite !load_lookup, Ht. mstep. rewrite Hxk. mstep.
  rewrite store_Some by lia. mstep. rewrite aset_Some by lia. mstep.
  rewrite store_Some by (rewrite length_insert; lia). mstep.
  fold ch.
  set (c2 := <[h:=ch + 1]> c1). set (m2 := <[src + k:=t]> (<[src + ch:=xk]> m1)).
  assert (∀ v, v ≠ h → c2 !!! v = c1 !!! v) as Hc2
    by (intros v Hv; unfold c2; by rewrite list_lookup_total_insert_ne).
  assert (c2 !!! h = ch + 1) as Hc2h
    by (unfold c2; rewrite list_lookup_total_insert_eq; [done|lia]).
  assert (∀ i, i ≠ k → i ≠ ch → m2 !! (src + i) = m1 !! (src + i)) as Hm2.
  { intros i Hik Hich. unfold m2. by rewrite !list_lookup_insert_ne by lia. }
  assert (m2 !! (src + k) = Some t) as Hm2k.
  { unfold m2. apply list_lookup_insert_eq. rewrite length_insert. lia. }
  assert (m2 !! (src + ch) = Some xk) as Hm2ch.
  { unfold m2. rewrite list_lookup_insert_ne by lia.
    apply list_lookup_insert_eq. lia. }
  split.
  - split_and!.
    + split_and!.
      * unfold m2. rewrite !length_insert. done.
      * unfold m2. apply unchanged_insert; [unfold within; lia|].
        apply unchanged_insert; [unfold within; lia|done].
      * rewrite <- Hperm. unfold m2.
        apply range_swap_Permutation; [lia|lia|done|done].
      * unfold c2. by rewrite length_insert.
      * intros v Hv. unfold c2. rewrite list_lookup_insert_ne by lia. by apply Hd.
      * intros v Hv. destruct (Hplaced v Hv) as [Hcv Hplaced_v].
        destruct (decide (v = h)) as [->|Hvh].
        -- rewrite Hc2h. split; [lia|]. intros i Hi.
           destruct (decide (i = ch)) as [->|Hich]; [by eauto|].
           rewrite Hm2 by lia. apply Hplaced_h. lia.
        -- rewrite (Hc2 v Hvh). split; [done|]. intros i Hi.
           rewrite Hm2; [by apply Hplaced_v| |].
           ++ destruct (decide (v = j)) as [->|Hvj]; [lia|].
              apply (bucket_ranges_disjoint v j); [done|lia|lia].
           ++ apply (bucket_ranges_disjoint v h); [done|lia|lia].
    + intros v Hv. destruct (decide (v = h)) as [->|Hvh].
      * pose proof (Hcomp h Hv). lia.
      * rewrite (Hc2 v Hvh). by apply Hcomp.
    + by rewrite (Hc2 j) by done.
    + by eauto.
  - unfold unplaced. apply (sum_list_with_lt _ _ _ h).
    + apply elem_of_seq. lia.
    + intros v _. destruct (decide (v = h)) as [->|Hvh].
      * rewrite Hc2h. lia.
      * by rewrite (Hc2 v Hvh).
    + rewrite Hc2h. lia.
Qed.

(** The cursor of bucket [j] runs to the end of the bucket. *)
Lemma fill_bucket_spec (gas : nat) (j : nat) (c : list nat) (m : list T) :
  n < gas → j < SIZE →
  inv c m → complete_below dig l j c →
  ∃ c' m', fill_bucket gas OFFSET MASK SIZE src j c m = Some (c', m') ∧
    inv c' m' ∧ complete_below dig l (S j) c'.
Proof.
  intros Hgas Hj Hinv Hcomp. unfold fill_bucket.
  edestruct (loop_inv
    (λ '(c, m), inv c m ∧ complete_below dig l j c)
    (λ '(c, m), bs (S j) l - c !!! j)
    (λ '(c', m'), inv c' m' ∧ complete_below dig l (S j) c'))
    as ([c' m'] & Hrun & HQ); [| |intros [c1 m1]|].
  4: { exists c', m'. split; [exact Hrun|exact HQ]. }
  { done. }
  { simpl. pose proof (bs_le_n (S j)). lia. }
  clear c m Hinv Hcomp. intros [Hinv Hcomp]. simpl.
  pose proof Hinv as (Hlenm & Hun & Hperm & Hlenc & Hd & Hplaced).
  destruct (Hplaced j Hj) as [Hcj Hplaced_j].
  unfold aget. rewrite (list_lookup_lookup_total_lt c1 j) by lia. mstep.
  rewrite (Hd j Hj). mstep.
  destruct (decide (c1 !!! j ≠ bs (S j) l)) as [Hne|Heq].
  2: { split; [done|]. intros v Hv. destruct (decide (v = j)) as [->|].
       - by apply dec_stable.
       - apply Hcomp. lia. }
  set (k := c1 !!! j) in *. pose proof (bs_le_n (S j)) as HSj.
  destruct (lookup_lt_is_Some_2 m1 (src + k)) as [xk Hxk]; [lia|].
  rewrite load_lookup, Hxk. mstep.
  destruct (chase_spec gas j k (dig xk) c1 m1)
    as (c2 & m2 & -> & Hinv2 & Hcomp2 & Hc2j & x & Hx & Hdx);
    [done|done|done|done|done|lia|by eauto|].
  mstep.
  destruct Hinv2 as (Hlenm2 & Hun2 & Hperm2 & Hlenc2 & Hd2 & Hplaced2).
  rewrite incr_total by lia. mstep. rewrite Hc2j.
  split; [|rewrite list_lookup_total_insert_eq by lia; lia].
  split.
  - split_and!; try done.
    + by rewrite length_insert.
    + intros v Hv. rewrite list_lookup_insert_ne by lia. by apply Hd2.
    + intros v Hv. destruct (Hplaced2 v Hv) as [Hcv Hplaced_v].
      destruct (decide (v = j)) as [->|Hvj].
      * rewrite list_lookup_total_insert_eq by lia. split; [lia|].
        intros i Hi. destruct (decide (i = k)) as [->|]; [by eauto|].
        apply Hplaced_v. lia.
      * by rewrite list_lookup_total_insert_ne by done.
  - intros v Hv. rewrite list_lookup_total_insert_ne by lia. by apply Hcomp2.
Qed.

Lemma scatter_inplace_spec (gas : nat) (c : list nat) (m : list T) :
  n < gas → inv c m →
  ∃ c' m', scatter_inplace gas OFFSET MASK SIZE src c m = Some (c', m') ∧
    inv c' m' ∧ complete_below dig l SIZE c'.
Proof.
  intros Hgas Hinv. unfold scatter_inplace.
  edestruct (for_loop_inv
    (λ j '(c, m), inv c m ∧ complete_below dig l j c))
    as ([c' m'] & -> & HI); [| |].
  - split; [done|]. intros v Hv. lia.
  - intros j [c1 m1] Hj [Hinv1 Hcomp1].
    destruct (fill_bucket_spec gas j c1 m1) as (c2 & m2 & -> & ?);
      [done|lia|done|done|]. eauto.
  - eauto.
Qed.

End inplace_scatter.

(** ** radix_sort_msd_inplace_impl *)

Lemma stable_sort_of_sort_of (l l' : list T) :
  stable_sort_of get_key l l' → sort_of l l'.
Proof. intros [Hs Hr]. split; [done|by eapply same_runs_Permutation]. Qed.

Section segments.

Variable dig : T → nat.

Lemma segments_S (K : nat) (l m : list T) (p : nat) :
  segments dig (S K) l m p
    = segments dig K l m p
      ++ [range m (p + bucket_start dig K l) (count_of dig K l)].
Proof. unfold segments. by rewrite seq_S, fmap_app. Qed.

Lemma length_segments (K : nat) (l m : list T) (p : nat) :
  length (segments dig K l m p) = K.
Proof. unfold segments. by rewrite length_fmap, length_seq. Qed.

Lemma segments_lookup (K v : nat) (l m : list T) (p : nat) :
  v < K →
  segments dig K l m p !! v
    = Some (range m (p + bucket_start dig v l) (count_of dig v l)).
Proof.
  intros Hv. unfold segments. by rewrite list_lookup_fmap, lookup_seq_lt.
Qed.

Lemma take_segments (K j : nat) (l m : list T) (p : nat) :
  j ≤ K → take j (segments dig K l m p) = segments dig j l m p.
Proof.
  intros Hj. unfold segments. rewrite <- fmap_take. f_equal.
  rewrite take_seq. f_equal. lia.
Qed.

Lemma concat_segments (K : nat) (l m : list T) (p : nat) :
  concat (segments dig K l m p) = range m p (bucket_start dig K l).
Proof.
  induction K as [|K IH]; [by rewrite bucket_start_0|].
  rewrite segments_S, concat_app, IH, bucket_start_S, range_app. simpl.
  by rewrite app_nil_r.
Qed.

(** Sorted segments, each of one digit that orders the keys, make a
    sorted sequence. *)
Lemma sorted_segments (Bs Ss : list (list T)) (v0 : nat) :
  Forall2 sort_of Bs Ss →
  (∀ v B, Bs !! v = Some B → ∀ x, x ∈ B → dig x = v0 + v) →
  (∀ x y, x ∈ concat Bs → y ∈ concat Bs → dig x < dig y →
     (get_key x ≤ get_key y)%N) →
  sorted (concat Ss) ∧ concat Bs ≡ₚ concat Ss
  ∧ ∀ y, y ∈ concat Ss → v0 ≤ dig y.
Proof.
  intros HF. revert v0.
  induction HF as [|B S' Bs Ss [HsS HpS] _ IH]; intros v0 Hdig Hord.
  { split_and!; [constructor|done|]. by intros y ?%elem_of_nil. }
  destruct (IH (S v0)) as (Hs & Hp & Hlo).
  { intros v B' HB' x Hx. rewrite (Hdig (S v) B' HB' x Hx). lia. }
  { intros x y Hx Hy. apply Hord; simpl; set_solver. }
  simpl. split_and!.
  - apply sorted_by_app. split_and!; [|done|done].
    intros x y Hx Hy. apply Hord.
    + rewrite <- HpS in Hx. set_solver.
    + rewrite <- Hp in Hy. set_solver.
    + rewrite <- HpS in Hx. rewrite (Hdig 0 B eq_refl x Hx).
      specialize (Hlo y Hy). lia.
  - by rewrite HpS, Hp.
  - intros y [Hy|Hy]%elem_of_app.
    + rewrite <- HpS in Hy. rewrite (Hdig 0 B eq_refl y Hy). lia.
    + specialize (Hlo y Hy). lia.
Qed.

End segments.

Lemma sort_of_pair_swap (x0 x1 : T) :
  key_lt x1 x0 = true → sort_of [x0; x1] [x1; x0].
Proof.
  intros Hlt%key_lt_spec. unfold key_le in Hlt. split; [|apply Permutation_swap].
  apply sorted_by_cons. split; [|apply sorted_by_singleton].
  intros y ->%list_elem_of_singleton. lia.
Qed.

Lemma sort_of_pair_keep (x0 x1 : T) :
  key_lt x1 x0 = false → sort_of [x0; x1] [x0; x1].
Proof.
  intros Hlt. split; [|done].
  assert (key_le x0 x1) as Hle.
  { destruct (decide (key_le x0 x1)) as [|Hn]; [done|].
    apply key_lt_spec in Hn. congruence. }
  apply sorted_by_cons. split; [|apply sorted_by_singleton].
  by intros y ->%list_elem_of_singleton.
Qed.

(** The [switch] on the size of a bucket, in the loop of the in-place
    engine. *)
Lemma inplace_segment_spec (depth' gas W' BITS THRESHOLD : nat) (src b : nat)
    (B : list T) (m : list T) :
  inplace_contract depth' gas W' BITS THRESHOLD →
  length B < gas → src + b + length B ≤ length m →
  range m (src + b) (length B) = B → same_hi W' B →
  ∃ m', match length B with
        | 0 | 1 => Some m
        | 2 =>
            x1 ← load m src (b + 1);
            x0 ← load m src b;
            if key_lt x1 x0 then
              tmp ← load m src (b + 1);
              y ← load m src b;
              m ← store m src (b + 1) y;
              store m src b tmp
            else Some m
        | _ =>
            radix_sort_msd_inplace_impl depth' gas W' BITS THRESHOLD
              (src + b) (length B) m
        end = Some m' ∧
    length m' = length m ∧
    sort_of B (range m' (src + b) (length B)) ∧
    unchanged_outside (buffers (src + b) (src + b) (length B)) m m'.
Proof.
  intros Hrec Hgas Hsrc HB Hhi.
  destruct B as [|x0 [|x1 [|x2 B]]]; cbn [length] in *.
  - exists m. split_and!; [done|done| |apply unchanged_refl].
    rewrite range_0. split; [constructor|done].
  - exists m. split_and!; [done|done| |apply unchanged_refl].
    rewrite HB. split; [apply sorted_by_singleton|done].
  - rewrite (load_of_range m _ _ _ 1 src (b + 1) x1 HB) by (done || lia). mstep.
    rewrite (load_of_range m _ _ _ 0 src b x0 HB) by (done || lia). mstep.
    destruct (key_lt x1 x0) eqn:Hlt.
    + rewrite store_Some by lia. mstep.
      rewrite store_Some by (rewrite length_insert; lia).
      eexists. split; [done|]. split_and!.
      * by rewrite !length_insert.
      * rewrite (range_cons _ _ _ x1) by (apply list_lookup_insert_eq;
          rewrite length_insert; lia).
        rewrite (range_cons _ _ _ x0).
        2:{ rewrite list_lookup_insert_ne by lia.
            replace (S (src + b)) with (src + (b + 1)) by lia.
            apply list_lookup_insert_eq. lia. }
        rewrite range_0. by apply sort_of_pair_swap.
      * apply unchanged_insert; [unfold buffers, within; lia|].
        apply unchanged_insert; [unfold buffers, within; lia|].
        apply unchanged_refl.
    + exists m. split_and!; [done|done| |apply unchanged_refl].
      rewrite HB. by apply sort_of_pair_keep.
  - set (B' := x0 :: x1 :: x2 :: B) in *.
    change (S (S (S (length B)))) with (length B') in *.
    destruct (Hrec (src + b) (length B') m) as (m' & -> & Hlen' & Hsort & Hun);
      [done|lia|by rewrite HB|].
    exists m'. split_and!; [done|done|by rewrite HB in Hsort|].
    eapply unchanged_weaken; [|done]. unfold buffers. tauto.
Qed.

Lemma radix_sort_msd_inplace_impl_spec (depth gas WIDTH BITS THRESHOLD : nat) :
  0 < BITS → 0 < WIDTH → WIDTH ≤ depth * BITS →
  inplace_contract depth gas WIDTH BITS THRESHOLD.
Proof.
  revert WIDTH. induction depth as [|depth IH]; intros WIDTH HBITS HWIDTH Hdepth;
    [lia|].
  intros src n m Hgas Hsrc Hhi.
  cbn [radix_sort_msd_inplace_impl].
  set (k := if decide (BITS < WIDTH) then BITS else WIDTH).
  set (OFFSET := WIDTH - k).
  assert (WIDTH = OFFSET + k ∧ 0 < k ∧ (0 < OFFSET → OFFSET ≤ depth * BITS))
    as (HW & Hk & HO).
  { unfold OFFSET, k. destruct (decide (BITS < WIDTH)); lia. }
  destruct (decide (n < THRESHOLD)) as [Hsmall|Hbig].
  { (* the fallback sort, with its local array *)
    destruct (fallback_sort_spec gas src (length m) n 0
      (m ++ replicate THRESHOLD T_default))
      as (m1 & -> & Hlen1 & Hsort & Hun);
      [done|rewrite length_app; lia|rewrite length_app, length_replicate; lia|
       unfold disjoint; lia|].
    mstep. rewrite decide_True in Hsort by done.
    rewrite length_app, length_replicate in Hlen1.
    exists (take (length m) m1). split_and!; [done| | |].
    - rewrite length_take. lia.
    - apply stable_sort_of_sort_of.
      replace (range (take (length m) m1) src n) with (range m1 src n).
      2:{ symmetry. apply range_ext. intros i Hi. by rewrite lookup_take_lt by lia. }
      replace (range m src n)
        with (range (m ++ replicate THRESHOLD T_default) src n); [done|].
      apply range_ext. intros i Hi. by rewrite lookup_app_l by lia.
    - split; [rewrite length_take; lia|]. intros a Ha.
      destruct (decide (a < length m)) as [Hlt|Hge].
      + rewrite lookup_take_lt by done. destruct Hun as [_ Hun].
        rewrite Hun; [by rewrite lookup_app_l|].
        unfold buffers, within in *. lia.
      + rewrite lookup_take_ge by lia. symmetry. apply lookup_ge_None. lia. }
  set (L := range m src n) in *. set (dig := digit OFFSET (2 ^ k - 1)).
  assert (length L = n) as HlenL by (by apply length_range).
  pose proof (pow2_pos k) as Hpow.
  assert (∀ x, dig x < 2 ^ k) as Hdig by (intros x; apply digit_lt).
  rewrite HW in Hhi.
  unfold inplace_partition.
  destruct (count_digits_spec OFFSET (2 ^ k - 1) (2 ^ k) src n m)
    as (c0 & -> & Hlenc0 & Hc0); [done|lia|]. mstep. fold dig L in Hc0.
  (* the ends of the buckets *)
  edestruct (for_loop_inv
    (λ j c, length c = 2 * 2 ^ k ∧
       (∀ v, v < 2 ^ k → c !! v = Some (bucket_start dig v L)) ∧
       (∀ v, v < j → c !! (2 ^ k + v) = Some (bucket_start dig (S v) L))))
    as (c1 & -> & Hlenc1 & Hc1 & Hd1); [| |].
  { split_and!; [done|done|]. intros; lia. }
  { intros j c Hj (Hlenc & Hc & Hd). unfold aget.
    rewrite Hc by lia. mstep. rewrite aset_Some by lia.
    eexists. split; [done|]. split_and!.
    - by rewrite length_insert.
    - intros v Hv. rewrite list_lookup_insert_ne by lia. by apply Hc.
    - intros v Hv. destruct (decide (v = j)) as [->|].
      + rewrite list_lookup_insert_eq by lia. f_equal. f_equal. lia.
      + rewrite list_lookup_insert_ne by lia. apply Hd. lia. }
  mstep. rewrite aset_Some by lia. mstep.
  set (c2 := <[2 ^ k + (2 ^ k - 1):=n]> c1).
  assert (length c2 = 2 * 2 ^ k) as Hlenc2 by (unfold c2; by rewrite length_insert).
  assert (∀ v, v < 2 ^ k → c2 !! v = Some (bucket_start dig v L)) as Hc2.
  { intros v Hv. unfold c2. rewrite list_lookup_insert_ne by lia. by apply Hc1. }
  assert (∀ v, v < 2 ^ k → c2 !! (2 ^ k + v) = Some (bucket_start dig (S v) L))
    as Hd2.
  { intros v Hv. unfold c2. destruct (decide (v = 2 ^ k - 1)) as [->|].
    - rewrite list_lookup_insert_eq by lia. f_equal.
      replace (S (2 ^ k - 1)) with (2 ^ k) by lia.
      rewrite bucket_start_all by auto. done.
    - rewrite list_lookup_insert_ne by lia. apply Hd1. lia. }
  destruct (find_full_bucket_spec dig c2 L n 0 (2 ^ k - 1))
    as (full & -> & Hfull); [intros v Hv; apply Hc2; lia|]. mstep.
  (* the state after the partition *)
  match goal with |- context [mbind ?f (if full then ?a else ?b)] =>
    assert (∃ c' m1,
      (if full then a else b) = Some (c', m1) ∧
      length m1 = length m ∧ unchanged_outside (within src n) m m1 ∧
      range m1 src n ≡ₚ L ∧
      (∀ v, v < 2 ^ k → c' !! (2 ^ k + v) = Some (bucket_start dig (S v) L)) ∧
      (∀ v, v < 2 ^ k → ∀ i,
         bucket_start dig v L ≤ i < bucket_start dig (S v) L →
         ∃ x, m1 !! (src + i) = Some x ∧ dig x = v))
      as (c' & m1 & -> & Hlen1 & Hun1 & Hperm & Hd' & Hplaced)
  end.
  { destruct full.
    - destruct Hfull as [Hex _]. destruct (Hex eq_refl) as (v0 & Hv0 & Hcount).
      assert (∀ x, x ∈ L → dig x = v0) as Hconst.
      { apply count_of_full. by rewrite HlenL. }
      exists c2, m. split_and!; [done|done|apply unchanged_refl|done|done|].
      intros v Hv i Hi.
      rewrite !(bucket_start_const dig v0) in Hi by done.
      destruct (decide (v ≤ v0)), (decide (S v ≤ v0)); try lia.
      destruct (lookup_lt_is_Some_2 L i) as [x Hx]; [lia|].
      exists x. split.
      + by apply range_lookup_Some in Hx as [? _].
      + rewrite (Hconst x) by (by eapply list_elem_of_lookup_2). lia.
    - destruct (scatter_inplace_spec OFFSET (2 ^ k - 1) (2 ^ k) src n L m
        ltac:(lia) Hsrc HlenL gas c2 m)
        as (c' & m1 & -> & Hinv & Hcomp);
        [done|apply inplace_inv_init; (done || lia)|].
      destruct Hinv as (Hlen1 & Hun1 & Hperm & Hlenc' & Hd' & Hplaced).
      exists c', m1. split_and!; [done..|].
      intros v Hv i Hi. destruct (Hplaced v Hv) as [_ Hp]. apply Hp.
      rewrite (Hcomp v Hv). done. }
  mstep.
  set (Bs := segments dig (2 ^ k) L m1 src).
  assert (range m1 src n = concat Bs) as HBs.
  { unfold Bs. rewrite concat_segments, bucket_start_all by auto. by rewrite HlenL. }
  assert (∀ v B, Bs !! v = Some B → ∀ x, x ∈ B → dig x = v ∧ x ∈ L) as HinBs.
  { intros v B HB x Hx.
    pose proof (lookup_lt_Some _ _ _ HB) as Hv. unfold Bs in Hv, HB.
    rewrite length_segments in Hv. rewrite segments_lookup in HB by done.
    injection HB as <-. apply range_elem_of in Hx as (i & Hi & Hx).
    pose proof (bucket_end_le dig (2 ^ k) v L ltac:(auto) Hv) as Hend.
    rewrite HlenL in Hend.
    destruct (Hplaced v Hv (bucket_start dig v L + i)) as (y & Hy & Hdy).
    { rewrite bucket_start_S. lia. }
    rewrite Nat.add_assoc, Hx in Hy. injection Hy as <-. split; [done|].
    rewrite <- Hperm. apply list_elem_of_lookup.
    exists (bucket_start dig v L + i). rewrite range_lookup by lia.
    by rewrite Nat.add_assoc. }
  assert (∀ B, B ∈ Bs → same_hi OFFSET B) as HhiBs.
  { intros B [v HB]%list_elem_of_lookup x y Hx Hy.
    destruct (HinBs v B HB x Hx) as [Hdx HxL].
    destruct (HinBs v B HB y Hy) as [Hdy HyL].
    apply (digit_eq_key_hi OFFSET k); [by apply Hhi|]. fold dig. congruence. }
  (* the loop over the buckets *)
  match goal with
  |- ∃ m', (if decide (0 < OFFSET) then ?a else ?b) = Some m' ∧ _ =>
    assert (∃ m2 Ss, (if decide (0 < OFFSET) then a else b) = Some m2 ∧
      length m2 = length m1 ∧ unchanged_outside (within src n) m1 m2 ∧
      Forall2 sort_of Bs Ss ∧ range m2 src n = concat Ss)
      as (m2 & Ss & Hrun & Hlen2 & Hun2 & HSs & Hres)
  end.
  { destruct (decide (0 < OFFSET)) as [Hpos|Hzero].
    - edestruct segments_loop with (R := sort_of)
        (from := src) (to := src) (other := src) (Bs := Bs) (n := n)
        (SIZE := 2 ^ k) (m := m1)
        as (e & m2 & Ss & -> & Hlen2 & Hres & HSs & Hun2);
        [apply length_segments|by left|by left|lia|lia|done| |].
      { intros j b B m' HB Hb Hle Hlen' Hrange.
        pose proof (lookup_lt_Some _ _ _ HB) as Hj. unfold Bs in Hj.
        rewrite length_segments in Hj.
        unfold aget. rewrite (Hd' j Hj). mstep.
        assert (bucket_start dig (S j) L = b + length B) as ->.
        { rewrite Hb. unfold Bs. rewrite take_segments, concat_segments by lia.
          pose proof (bucket_start_le dig j L).
          rewrite length_range by lia.
          unfold Bs in HB. rewrite segments_lookup in HB by done.
          injection HB as <-.
          pose proof (bucket_end_le dig (2 ^ k) j L ltac:(auto) Hj).
          rewrite length_range by lia. apply bucket_start_S. }
        replace (b + length B - b) with (length B) by lia.
        destruct (inplace_segment_spec depth gas OFFSET BITS THRESHOLD src b B m')
          as (m'' & -> & Hlen'' & Hsort & Hun'');
          [by apply IH; auto|lia|lia|done|
           by apply HhiBs, (list_elem_of_lookup_2 _ j)|].
        mstep. exists m''. done. }
      mstep. exists m2, Ss. split_and!; [done|done| |done|done].
      eapply unchanged_weaken; [|done]. unfold buffers. tauto.
    - assert (OFFSET = 0) as HO0 by lia. exists m1, Bs.
      split_and!; [done|done|apply unchanged_refl| |done].
      apply Forall_Forall2_diag, Forall_forall. intros B HB.
      apply stable_sort_of_sort_of, stable_sort_of_same_key.
      rewrite <- HO0. by apply HhiBs. }
  rewrite Hrun. exists m2. split_and!; [done|lia| |].
  - destruct (sorted_segments dig Bs Ss 0 HSs) as (Hsorted & Hp & _).
    + intros v B HB x Hx. by destruct (HinBs v B HB x Hx).
    + intros x y Hx Hy Hlt. rewrite <- HBs, Hperm in Hx, Hy. apply N.lt_le_incl.
      apply (digit_lt_key_lt OFFSET k); [by apply Hhi|done].
    + split; [by rewrite Hres|]. by rewrite Hres, <- Hp, <- HBs, Hperm.
  - eapply unchanged_trans; done.
Qed.

(** ** The wrappers and the entry points *)

Lemma div_ceil_le (a b d : nat) : 0 < b → div_ceil a b ≤ d → a ≤ d * b.
Proof.
  unfold div_ceil. intros Hb Hd.
  pose proof (Nat.div_mod_eq (a + b - 1) b) as Hdm.
  pose proof (Nat.mod_upper_bound (a + b - 1) b ltac:(lia)) as Hmod.
  set (q := (a + b - 1) `div` b) in *. set (r := (a + b - 1) `mod` b) in *.
  assert (b * q ≤ b * d) by (apply Nat.mul_le_mono_l; lia). lia.
Qed.

Lemma same_hi_key_bits (l : list T) : key_fits → same_hi key_bits l.
Proof.
  intros [_ Hfit] x y _ _. unfold key_hi.
  by rewrite !N.div_small by apply Hfit.
Qed.

Lemma choose_bits_cases (n : nat) : choose_bits n = 8 ∨ choose_bits n = 11.
Proof. unfold choose_bits. repeat destruct (decide _); auto. Qed.

Lemma radix_sort_msd_spec (depth gas BITS THRESHOLD : nat) (src tmp n : nat)
    (destination : Z) (m : list T) :
  key_fits → 0 < BITS → div_ceil key_bits BITS ≤ depth → n < gas →
  src + n ≤ length m → tmp + n ≤ length m → disjoint src tmp n →
  ∃ m', radix_sort_msd depth gas BITS THRESHOLD src tmp n destination m
      = Some (if decide (destination = 1%Z) then tmp else src, m') ∧
    length m' = length m ∧
    stable_sort_of get_key (range m src n)
      (range m' (if decide (destination = 1%Z) then tmp else src) n) ∧
    unchanged_outside (buffers src tmp n) m m'.
Proof.
  intros Hfit HBITS Hdepth Hgas Hsrc Htmp Hsep. unfold radix_sort_msd.
  pose proof Hfit as [Hpos _].
  destruct (radix_sort_msd_impl_spec depth gas key_bits BITS THRESHOLD)
    with (src := src) (dst := tmp) (n := n) (m := m)
         (destination := if decide (destination ≠ 1%Z) then 0%Z else destination)
    as (m' & Hrun & Hlen & Hsort & Hun);
    [done|unfold key_bits, CHAR_BIT; lia|by apply div_ceil_le|done..| |
     by apply same_hi_key_bits|].
  { destruct (decide (destination ≠ 1%Z)); [by left|right].
    by apply dec_stable. }
  fold key_bits. rewrite Hrun. exists m'.
  assert ((if decide ((if decide (destination ≠ 1%Z) then 0%Z else destination)
                      = 0%Z) then src else tmp)
          = (if decide (destination = 1%Z) then tmp else src)) as <-; [|done].
  destruct (decide (destination = 1%Z)) as [->|Hne]; [done|].
  rewrite (decide_True (P := destination ≠ 1%Z)) by done. done.
Qed.

Lemma stable_sort_of_key_lo_0 (l : list T) : stable_sort_of (key_lo 0) l l.
Proof.
  split; [|apply same_runs_refl].
  apply (sorted_by_const _ _ 0%N). intros x _. unfold key_lo. simpl.
  apply N.mod_1_r.
Qed.

Lemma radix_sort_lsd_spec (depth BITS : nat) (src tmp n : nat)
    (destination : Z) (m : list T) :
  key_fits → 0 < BITS → div_ceil key_bits BITS ≤ depth →
  src + n ≤ length m → tmp + n ≤ length m → disjoint src tmp n →
  ∃ ret m', radix_sort_lsd depth BITS src tmp n destination m = Some (ret, m') ∧
    (ret = src ∨ ret = tmp) ∧
    (destination = 0%Z → ret = src) ∧ (destination = 1%Z → ret = tmp) ∧
    length m' = length m ∧
    stable_sort_of get_key (range m src n) (range m' ret n) ∧
    unchanged_outside (buffers src tmp n) m m'.
Proof.
  intros Hfit HBITS Hdepth Hsrc Htmp Hsep. unfold radix_sort_lsd.
  pose proof Hfit as [Hpos Hrange].
  destruct (radix_sort_lsd_impl_spec depth key_bits BITS src tmp n m
    (range m src n)) as (ret & m1 & Hrun & Hret & Hlen1 & Hsort1 & Hun1);
    [done|unfold key_bits, CHAR_BIT; lia|done|by apply div_ceil_le|done..| |].
  { fold key_bits. rewrite Nat.sub_diag. apply stable_sort_of_key_lo_0. }
  fold key_bits in Hrun, Hsort1. fold key_bits. rewrite Hrun. mstep.
  apply (stable_sort_of_ext _ get_key) in Hsort1.
  2:{ intros x. unfold key_lo. by apply N.mod_small. }
  unfold disjoint in Hsep.
  destruct (decide (destination = 0%Z ∧ ret ≠ src)) as [[Hd Hne]|Hno0].
  - assert (ret = tmp) as -> by (destruct Hret; congruence).
    destruct (copy_loop_spec tmp src n m1) as (m2 & -> & Hlen2 & Hcopy & Hun2);
      [lia|lia|unfold disjoint; lia|]. mstep.
    rewrite decide_False by (intros [? _]; lia).
    exists src, m2. split_and!; [done|by left|done|intros; lia|lia| |].
    + by rewrite Hcopy.
    + eapply unchanged_trans; [done|]. eapply unchanged_weaken; [|done].
      unfold buffers. tauto.
  - mstep.
    destruct (decide (destination = 1%Z ∧ ret ≠ tmp)) as [[Hd Hne]|Hno1].
    + assert (ret = src) as -> by (destruct Hret; congruence).
      destruct (copy_loop_spec src tmp n m1) as (m2 & -> & Hlen2 & Hcopy & Hun2);
        [lia|lia|done|]. mstep.
      exists tmp, m2. split_and!; [done|by right|intros; lia|done|lia| |].
      * by rewrite Hcopy.
      * eapply unchanged_trans; [done|]. eapply unchanged_weaken; [|done].
        unfold buffers. tauto.
    + exists ret, m1. split_and!; [done|done| | |done|done|done].
      * intros Hd. apply dec_stable. intros Hne. apply Hno0. done.
      * intros Hd. apply dec_stable. intros Hne. apply Hno1. done.
Qed.

(** [radix_sort_stable]: the stable sort of [src[0..n)] is left in the
    buffer returned, which is the one that [destination] asks for. *)
Lemma radix_sort_stable_spec (depth gas : nat) (src tmp n : nat)
    (destination mode : Z) (m : list T) :
  key_fits → div_ceil key_bits (stable_bits n mode) ≤ depth → n < gas →
  src + n ≤ length m → tmp + n ≤ length m → disjoint src tmp n →
  ∃ ret m', radix_sort_stable depth gas src tmp n destination mode m
      = Some (ret, m') ∧
    (ret = src ∨ ret = tmp) ∧
    (destination = 0%Z → ret = src) ∧ (destination = 1%Z → ret = tmp) ∧
    (use_msd n mode → destination ≠ 1%Z → ret = src) ∧
    length m' = length m ∧
    stable_sort_of get_key (range m src n) (range m' ret n) ∧
    unchanged_outside (buffers src tmp n) m m'.
Proof.
  intros Hfit Hdepth Hgas Hsrc Htmp Hsep.
  unfold radix_sort_stable, stable_bits in *.
  destruct (decide (use_msd n mode)) as [Hmsd|Hlsd].
  - assert (∃ m', (if decide (choose_bits n = 8)
                   then radix_sort_msd depth gas 8 128 src tmp n destination m
                   else radix_sort_msd depth gas 11 256 src tmp n destination m)
        = Some (if decide (destination = 1%Z) then tmp else src, m') ∧
      length m' = length m ∧
      stable_sort_of get_key (range m src n)
        (range m' (if decide (destination = 1%Z) then tmp else src) n) ∧
      unchanged_outside (buffers src tmp n) m m')
      as (m' & -> & Hlen & Hsort & Hun).
    { destruct (choose_bits_cases n) as [Hb|Hb]; rewrite Hb in *; simpl.
      - apply radix_sort_msd_spec; (done || lia).
      - apply radix_sort_msd_spec; (done || lia). }
    eexists _, m'. split; [done|].
    destruct (decide (destination = 1%Z)); split_and!; auto; try lia; done.
  - destruct (radix_sort_lsd_spec depth 8 src tmp n destination m)
      as (ret & m' & -> & ? & ? & ? & ? & ? & ?); [done|lia|done..|].
    exists ret, m'. split_and!; try done.
Qed.

(** [radix_sort_inplace]: [src[0..n)] is sorted in place. *)
Lemma radix_sort_inplace_spec (depth gas : nat) (src n : nat) (m : list T) :
  key_fits → div_ceil key_bits (choose_bits n) ≤ depth → n < gas →
  src + n ≤ length m →
  ∃ m', radix_sort_inplace depth gas src n m = Some m' ∧
    length m' = length m ∧
    sort_of (range m src n) (range m' src n) ∧
    unchanged_outside (within src n) m m'.
Proof.
  intros Hfit Hdepth Hgas Hsrc. unfold radix_sort_inplace.
  pose proof Hfit as [Hpos _]. fold key_bits.
  destruct (choose_bits_cases n) as [Hb|Hb]; rewrite Hb in *; simpl.
  - apply radix_sort_msd_inplace_impl_spec;
      [lia|unfold key_bits, CHAR_BIT; lia|apply div_ceil_le; (lia || done)|
       done|done|by apply same_hi_key_bits].
  - apply radix_sort_msd_inplace_impl_spec;
      [lia|unfold key_bits, CHAR_BIT; lia|apply div_ceil_le; (lia || done)|
       done|done|by apply same_hi_key_bits].
Qed.

(** ** Properties of the entry points *)

Lemma div_ceil_mono (a b b' : nat) :
  0 < b → b ≤ b' → div_ceil a b' ≤ div_ceil a b.
Proof.
  intros Hb Hbb'.
  assert (a ≤ div_ceil a b * b) as Hle.
  { unfold div_ceil.
    pose proof (Nat.div_mod_eq (a + b - 1) b) as Hdm.
    pose proof (Nat.mod_upper_bound (a + b - 1) b ltac:(lia)) as Hmod. lia. }
  assert (div_ceil a b * b ≤ div_ceil a b * b')
    by (apply Nat.mul_le_mono_l; lia).
  unfold div_ceil at 1. apply Nat.lt_succ_r, Nat.Div0.div_lt_upper_bound. lia.
Qed.

Lemma stable_bits_ge (n : nat) (mode : Z) : 8 ≤ stable_bits n mode.
Proof.
  unfold stable_bits. destruct (decide _); [|done].
  destruct (choose_bits_cases n) as [-> | ->]; lia.
Qed.

Lemma sorted_adjacent (l : list T) : sorted l → adjacent_sorted l.
Proof.
  intros Hl i x y Hx Hy.
  apply (sorted_by_lookup get_key l i (i + 1) x y); (done || lia).
Qed.

(** The entry points, for a bound on the depth that does not depend on
    the engine chosen. *)
Lemma radix_sort_stable_ok (depth gas : nat) (src tmp n : nat)
    (destination mode : Z) (m : list T) :
  key_fits → div_ceil key_bits 8 ≤ depth → n < gas →
  src + n ≤ length m → tmp + n ≤ length m → disjoint src tmp n →
  ∃ ret m', radix_sort_stable depth gas src tmp n destination mode m
      = Some (ret, m') ∧
    (ret = src ∨ ret = tmp) ∧
    (destination = 0%Z → ret = src) ∧ (destination = 1%Z → ret = tmp) ∧
    (use_msd n mode → destination ≠ 1%Z → ret = src) ∧
    length m' = length m ∧
    stable_sort_of get_key (range m src n) (range m' ret n) ∧
    unchanged_outside (buffers src tmp n) m m'.
Proof.
  intros Hfit Hdepth. apply radix_sort_stable_spec; [done|].
  etrans; [|done]. apply div_ceil_mono; [lia|apply stable_bits_ge].
Qed.

Lemma radix_sort_inplace_ok (depth gas : nat) (src n : nat) (m : list T) :
  key_fits → div_ceil key_bits 8 ≤ depth → n < gas → src + n ≤ length m →
  ∃ m', radix_sort_inplace depth gas src n m = Some m' ∧
    length m' = length m ∧
    sort_of (range m src n) (range m' src n) ∧
    unchanged_outside (within src n) m m'.
Proof.
  intros Hfit Hdepth. apply radix_sort_inplace_spec; [done|].
  etrans; [|done]. apply div_ceil_mono; [lia|].
  destruct (choose_bits_cases n) as [-> | ->]; lia.
Qed.

(** C1. Sortedness: [radix_sort_stable] returns one of its two buffers,
    [radix_sort_inplace] keeps to [src], the memory keeps its size so that
    the result has its [n] elements, and the keys of every adjacent pair
    of elements of the result are in unsigned order, for every input,
    destination and mode.  [radix_sort_inplace] needs [src] only. *)
Theorem sortedness (depth gas : nat) (src tmp n : nat) (destination mode : Z)
    (m : list T) :
  key_fits → div_ceil key_bits 8 ≤ depth → n < gas → src + n ≤ length m →
  (tmp + n ≤ length m → disjoint src tmp n →
   ∃ ret m', radix_sort_stable depth gas src tmp n destination mode m
       = Some (ret, m') ∧
     (ret = src ∨ ret = tmp) ∧ length m' = length m ∧
     length (range m' ret n) = n ∧
     adjacent_sorted (range m' ret n)) ∧
  (∃ m', radix_sort_inplace depth gas src n m = Some m' ∧
     length m' = length m ∧
     length (range m' src n) = n ∧
     adjacent_sorted (range m' src n)).
Proof.
  intros Hfit Hdepth Hgas Hsrc. split.
  - intros Htmp Hsep.
    destruct (radix_sort_stable_ok depth gas src tmp n destination mode m)
      as (ret & m' & Hrun & Hret & _ & _ & _ & Hlen & [Hsorted _] & _);
      [done..|].
    exists ret, m'. split_and!; [done|done|done| |by apply sorted_adjacent].
    apply length_range. destruct Hret as [-> | ->]; lia.
  - destruct (radix_sort_inplace_ok depth gas src n m)
      as (m' & Hrun & Hlen & [Hsorted _] & _); [done..|].
    exists m'. split_and!; [done|done| |by apply sorted_adjacent].
    apply length_range. lia.
Qed.

(** C2. Permutation: the elements in the buffer that [radix_sort_stable]
    returns, and in [src] after [radix_sort_inplace], are the elements of
    the input, each as many times as in the input.  [radix_sort_inplace]
    needs [src] only. *)
Theorem permutation_of_input (depth gas : nat) (src tmp n : nat) (destination mode : Z)
    (m : list T) :
  key_fits → div_ceil key_bits 8 ≤ depth → n < gas → src + n ≤ length m →
  (tmp + n ≤ length m → disjoint src tmp n →
   ∃ ret m', radix_sort_stable depth gas src tmp n destination mode m
       = Some (ret, m') ∧
     (ret = src ∨ ret = tmp) ∧ length m' = length m ∧
     range m src n ≡ₚ range m' ret n) ∧
  (∃ m', radix_sort_inplace depth gas src n m = Some m' ∧
     length m' = length m ∧
     range m src n ≡ₚ range m' src n).
Proof.
  intros Hfit Hdepth Hgas Hsrc. split.
  - intros Htmp Hsep.
    destruct (radix_sort_stable_ok depth gas src tmp n destination mode m)
      as (ret & m' & Hrun & Hret & _ & _ & _ & Hlen & [_ Hruns] & _);
      [done..|].
    exists ret, m'. split_and!; [done..|]. by eapply same_runs_Permutation.
  - destruct (radix_sort_inplace_ok depth gas src n m)
      as (m' & Hrun & Hlen & [_ Hperm] & _); [done..|].
    exists m'. done.
Qed.

(** Elements that a filter keeps stay in their order. *)
Lemma filter_lookup_lt (P : T → Prop) `{!∀ x, Decision (P x)} (l : list T)
    (i j : nat) (x y : T) :
  i < j → l !! i = Some x → l !! j = Some y → P x → P y →
  ∃ l1 l2 l3, filter P l = l1 ++ x :: l2 ++ y :: l3.
Proof.
  intros Hij Hx Hy HPx HPy.
  rewrite <- (take_drop_middle l i x Hx).
  assert (drop (S i) l !! (j - S i) = Some y) as Hy'.
  { rewrite lookup_drop, <- Hy. f_equal. lia. }
  rewrite <- (take_drop_middle _ _ y Hy').
  rewrite filter_app, (filter_cons_True P x) by done.
  rewrite filter_app, (filter_cons_True P y) by done.
  eauto.
Qed.

Lemma StronglySorted_filter (R : relation T) (P : T → Prop)
    `{!∀ x, Decision (P x)} (l : list T) :
  StronglySorted R l → StronglySorted R (filter P l).
Proof.
  induction 1 as [|x l Hl IH Hx]; [constructor|].
  rewrite filter_cons. destruct (decide (P x)); [|done].
  constructor; [done|]. rewrite Forall_forall in *.
  intros y [_ Hy]%list_elem_of_filter. auto.
Qed.

(** With the elements tagged in the order of the input, the tags of equal
    keys are in order in the output. *)
Lemma same_runs_tags (tag : T → nat) (l l' : list T) :
  same_runs get_key l l' →
  StronglySorted (λ x y, tag x < tag y) l →
  ∀ i j x y, i < j → l' !! i = Some x → l' !! j = Some y →
    get_key x = get_key y → tag x < tag y.
Proof.
  intros Hruns Htags i j x y Hij Hx Hy Hk.
  destruct (filter_lookup_lt (λ z, get_key z = get_key y) l' i j x y)
    as (l1 & l2 & l3 & Hf); [done..|].
  rewrite (Hruns (get_key y)) in Hf.
  pose proof (StronglySorted_filter _ (λ z, get_key z = get_key y) l Htags)
    as Hsorted.
  rewrite Hf in Hsorted.
  apply StronglySorted_app_1_r, StronglySorted_cons in Hsorted as [Hall _].
  rewrite Forall_forall in Hall. apply Hall. set_solver.
Qed.

(** C3. Stability: in the buffer that [radix_sort_stable] returns, the
    elements of each key are those of the input in the order of the input;
    so when the input is tagged in ascending order, the tags of any two
    elements of equal keys are in ascending order in the output. *)
Theorem stability (depth gas : nat) (src tmp n : nat) (destination mode : Z)
    (m : list T) :
  key_fits → div_ceil key_bits 8 ≤ depth → n < gas →
  src + n ≤ length m → tmp + n ≤ length m → disjoint src tmp n →
  ∃ ret m', radix_sort_stable depth gas src tmp n destination mode m
      = Some (ret, m') ∧
    same_runs get_key (range m src n) (range m' ret n) ∧
    ∀ tag : T → nat,
      StronglySorted (λ x y, tag x < tag y) (range m src n) →
      ∀ i j x y, i < j →
        range m' ret n !! i = Some x → range m' ret n !! j = Some y →
        get_key x = get_key y → tag x < tag y.
Proof.
  intros Hfit Hdepth Hgas Hsrc Htmp Hsep.
  destruct (radix_sort_stable_ok depth gas src tmp n destination mode m)
    as (ret & m' & Hrun & _ & _ & _ & _ & _ & [_ Hruns] & _); [done..|].
  exists ret, m'. split_and!; [done|done|].
  intros tag Htags. by apply (same_runs_tags tag (range m src n)).
Qed.

(** C5. Destination: with [destination=0] the function returns [src], with
    [destination=1] it returns [tmp], with any other value one of the
    two; the buffer returned holds the stable sort of the input. *)
Theorem destination_correct (depth gas : nat) (src tmp n : nat)
    (destination mode : Z) (m : list T) :
  key_fits → div_ceil key_bits 8 ≤ depth → n < gas →
  src + n ≤ length m → tmp + n ≤ length m → disjoint src tmp n →
  ∃ ret m', radix_sort_stable depth gas src tmp n destination mode m
      = Some (ret, m') ∧
    (destination = 0%Z → ret = src) ∧
    (destination = 1%Z → ret = tmp) ∧
    (ret = src ∨ ret = tmp) ∧
    stable_sort_of get_key (range m src n) (range m' ret n).
Proof.
  intros Hfit Hdepth Hgas Hsrc Htmp Hsep.
  destruct (radix_sort_stable_ok depth gas src tmp n destination mode m)
    as (ret & m' & Hrun & Hret & H0 & H1 & _ & _ & Hsort & _); [done..|].
  exists ret, m'. done.
Qed.

(** C10. When the most significant digit engine is chosen and
    [destination] is neither 0 nor 1, the function returns [src], and
    [src] holds the stable sort of the input. *)
Theorem msd_dont_care_returns_src (depth gas : nat) (src tmp n : nat)
    (destination mode : Z) (m : list T) :
  key_fits → div_ceil key_bits 8 ≤ depth → n < gas →
  src + n ≤ length m → tmp + n ≤ length m → disjoint src tmp n →
  use_msd n mode → destination ≠ 0%Z → destination ≠ 1%Z →
  ∃ m', radix_sort_stable depth gas src tmp n destination mode m
      = Some (src, m') ∧
    stable_sort_of get_key (range m src n) (range m' src n).
Proof.
  intros Hfit Hdepth Hgas Hsrc Htmp Hsep Hmsd Hne0 Hne1.
  destruct (radix_sort_stable_ok depth gas src tmp n destination mode m)
    as (ret & m' & Hrun & _ & _ & _ & Hmsd' & _ & Hsort & _); [done..|].
  rewrite (Hmsd' Hmsd Hne1) in *. exists m'. done.
Qed.

(** C6. The choice of the engine and of the radix width:
    [radix_sort_stable] runs the most significant digit engine exactly
    when [mode=1], or [mode] is neither 0 nor 1 and [n<1500] or the key
    has more than 40 bits or the element has more than 64 bits and
    [n>10000000/sizeof(T)]; the engine then has 11 bits and threshold 256
    exactly when [4000<n<60000] or [2000000<n<9000000], and 8 bits and
    threshold 128 otherwise.  In all other cases the least significant digit
    engine runs, with 8 bits.  [radix_sort_inplace] chooses the width and
    the threshold in the same way. *)
Theorem engine_selection (depth gas : nat) (src tmp n : nat)
    (destination mode : Z) (m : list T) :
  radix_sort_stable depth gas src tmp n destination mode m
    = (if decide (spec_selects_msd n mode) then
         if decide (spec_selects_11_bits n) then
           radix_sort_msd depth gas 11 256 src tmp n destination m
         else radix_sort_msd depth gas 8 128 src tmp n destination m
       else radix_sort_lsd depth 8 src tmp n destination m) ∧
  radix_sort_inplace depth gas src n m
    = (if decide (spec_selects_11_bits n) then
         radix_sort_msd_inplace_impl depth gas key_bits 11 256 src n m
       else radix_sort_msd_inplace_impl depth gas key_bits 8 128 src n m).
Proof.
  assert (use_msd n mode ↔ spec_selects_msd n mode) as Hmsd.
  { unfold use_msd, spec_selects_msd, key_bits, CHAR_BIT.
    change (N.of_nat 8) with 8%N. lia. }
  assert (choose_bits n = (if decide (spec_selects_11_bits n) then 11 else 8))
    as Hbits.
  { unfold choose_bits, spec_selects_11_bits.
    repeat destruct (decide _); (done || lia). }
  unfold radix_sort_stable, radix_sort_inplace. rewrite Hbits. fold key_bits.
  split.
  - destruct (decide (use_msd n mode)), (decide (spec_selects_msd n mode));
      try tauto; by destruct (decide (spec_selects_11_bits n)).
  - by destruct (decide (spec_selects_11_bits n)).
Qed.

(** The integer quotient of the selection is the real quotient:
    [n>10000000/sizeof(T)] says that [n] elements take more than 10000000
    bytes. *)
Lemma size_cutoff (n : nat) :
  (0 < sizeof_T)%N →
  (10000000 / sizeof_T < N.of_nat n)%N ↔ (10000000 < N.of_nat n * sizeof_T)%N.
Proof.
  intros Hpos. pose proof (N.div_mod 10000000 sizeof_T ltac:(lia)) as Hdm.
  pose proof (N.mod_lt 10000000 sizeof_T ltac:(lia)) as Hmod.
  set (q := (10000000 / sizeof_T)%N) in *.
  set (r := (10000000 mod sizeof_T)%N) in *.
  split; intros H.
  - assert (sizeof_T * (q + 1) ≤ sizeof_T * N.of_nat n)%N
      by (apply N.mul_le_mono_l; lia). lia.
  - destruct (decide (q < N.of_nat n)%N) as [|Hge]; [done|].
    assert (sizeof_T * N.of_nat n ≤ sizeof_T * q)%N
      by (apply N.mul_le_mono_l; lia). lia.
Qed.

(** C7. Termination: with a depth of [ceil(W/B)] for the recursion on the
    key width [W] in digits of [B] bits, and with more than [n] steps for
    each loop and for the recursion of the merge sort, the engines and the
    two entry points return a result for every input.  The in-place
    engine and its entry point need [src] only. *)
Theorem termination (depth gas BITS THRESHOLD : nat) (src tmp n : nat)
    (destination mode : Z) (m : list T) :
  key_fits → n < gas → src + n ≤ length m →
  (tmp + n ≤ length m → disjoint src tmp n →
   is_Some (fallback_sort gas src tmp n destination m) ∧
   (0 < BITS → BITS < 32 → div_ceil key_bits BITS ≤ depth →
      is_Some
        (radix_sort_msd depth gas BITS THRESHOLD src tmp n destination m)) ∧
   (div_ceil key_bits (stable_bits n mode) ≤ depth →
      is_Some (radix_sort_stable depth gas src tmp n destination mode m))) ∧
  (0 < BITS → BITS < 32 → 0 < THRESHOLD → div_ceil key_bits BITS ≤ depth →
     is_Some (radix_sort_msd_inplace_impl depth gas key_bits BITS THRESHOLD
                src n m)) ∧
  (div_ceil key_bits (choose_bits n) ≤ depth →
     is_Some (radix_sort_inplace depth gas src n m)).
Proof.
  intros Hfit Hgas Hsrc. pose proof Hfit as [Hpos _]. split_and!.
  - intros Htmp Hsep. split_and!.
    + destruct (fallback_sort_spec gas src tmp n destination m)
        as (m' & -> & _); [done..|]. eauto.
    + intros HBITS _ Hdepth.
      destruct (radix_sort_msd_spec depth gas BITS THRESHOLD src tmp n
        destination m) as (m' & -> & _); [done..|]. eauto.
    + intros Hdepth.
      destruct (radix_sort_stable_spec depth gas src tmp n destination mode m)
        as (ret & m' & -> & _); [done..|]. eauto.
  - intros HBITS _ _ Hdepth.
    destruct (radix_sort_msd_inplace_impl_spec depth gas key_bits BITS
      THRESHOLD) with (src := src) (n := n) (m := m) as (m' & -> & _);
      [done|unfold key_bits, CHAR_BIT; lia|by apply div_ceil_le|done|done|
       by apply same_hi_key_bits|]. eauto.
  - intros Hdepth.
    destruct (radix_sort_inplace_spec depth gas src n m)
      as (m' & -> & _); [done..|]. eauto.
Qed.

Lemma unchanged_empty (src tmp : nat) (m m' : list T) :
  unchanged_outside (buffers src tmp 0) m m' → m' = m.
Proof.
  intros [_ Hun]. apply list_eq. intros a. apply Hun.
  unfold buffers, within. lia.
Qed.

Lemma unchanged_empty_1 (src : nat) (m m' : list T) :
  unchanged_outside (within src 0) m m' → m' = m.
Proof.
  intros [_ Hun]. apply list_eq. intros a. apply Hun. unfold within. lia.
Qed.

Lemma range_1_eq (m m' : list T) (p q : nat) :
  p + 1 ≤ length m → range m p 1 ≡ₚ range m' q 1 → m' !! q = m !! p.
Proof.
  intros Hp Hperm.
  destruct (lookup_lt_is_Some_2 m p) as [x Hx]; [lia|].
  rewrite (range_cons m p 0 x Hx), range_0 in Hperm.
  apply Permutation_singleton_l in Hperm.
  assert (range m' q 1 !! 0 = Some x) as Hq by (by rewrite <- Hperm).
  apply range_lookup_Some in Hq as [Hq _]. rewrite Nat.add_0_r in Hq. congruence.
Qed.

(** C8. Boundary sizes: for [n=0] the two entry points return without
    writing to the memory; for [n=1] the element of the buffer returned by
    [radix_sort_stable] is the element of the input, and
    [radix_sort_inplace] leaves the memory as it is.
    [radix_sort_inplace] needs [src] only. *)
Theorem boundary_sizes (depth gas : nat) (src tmp : nat) (destination mode : Z)
    (m : list T) :
  key_fits → div_ceil key_bits 8 ≤ depth →
  (0 < gas → src ≤ length m → tmp ≤ length m →
     ∃ ret, radix_sort_stable depth gas src tmp 0 destination mode m
        = Some (ret, m)) ∧
  (0 < gas → src ≤ length m →
     radix_sort_inplace depth gas src 0 m = Some m) ∧
  (1 < gas → src + 1 ≤ length m → tmp + 1 ≤ length m → disjoint src tmp 1 →
     ∃ ret m', radix_sort_stable depth gas src tmp 1 destination mode m
        = Some (ret, m') ∧ m' !! ret = m !! src) ∧
  (1 < gas → src + 1 ≤ length m →
     radix_sort_inplace depth gas src 1 m = Some m).
Proof.
  intros Hfit Hdepth. split_and!.
  - intros Hgas Hsrc Htmp.
    destruct (radix_sort_stable_ok depth gas src tmp 0 destination mode m)
      as (ret & m' & Hrun & _ & _ & _ & _ & _ & _ & Hun);
      [done|done|lia|lia|lia|unfold disjoint; lia|].
    apply unchanged_empty in Hun as ->. eauto.
  - intros Hgas Hsrc.
    destruct (radix_sort_inplace_ok depth gas src 0 m)
      as (m' & Hrun & _ & _ & Hun); [done|done|lia|lia|].
    by apply unchanged_empty_1 in Hun as ->.
  - intros Hgas Hsrc Htmp Hsep.
    destruct (radix_sort_stable_ok depth gas src tmp 1 destination mode m)
      as (ret & m' & Hrun & _ & _ & _ & _ & _ & [_ Hruns] & _); [done..|].
    exists ret, m'. split; [done|].
    apply range_1_eq; [done|]. by eapply same_runs_Permutation.
  - intros Hgas Hsrc.
    destruct (radix_sort_inplace_ok depth gas src 1 m)
      as (m' & Hrun & Hlen & [_ Hperm] & [_ Hun]); [done..|].
    rewrite Hrun. f_equal. apply list_eq. intros a.
    destruct (decide (a = src)) as [->|Hne].
    + by apply range_1_eq.
    + apply Hun. unfold within. lia.
Qed.

(** ** The counting pass against a plain histogram *)

Section plain_count.

Variable dig : T → nat.

Lemma length_plain_histogram (SIZE : nat) (l : list T) :
  length (plain_histogram dig SIZE l) = SIZE.
Proof.
  unfold plain_histogram. induction l as [|x l IH] using rev_ind.
  - apply length_replicate.
  - by rewrite foldl_snoc, length_alter.
Qed.

Lemma plain_histogram_lookup (SIZE : nat) (l : list T) (v : nat) :
  v < SIZE → plain_histogram dig SIZE l !! v = Some (count_of dig v l).
Proof.
  intros Hv. unfold plain_histogram. induction l as [|x l IH] using rev_ind.
  - by apply lookup_replicate_2.
  - rewrite foldl_snoc, list_lookup_alter, count_of_app.
    unfold count_of at 2. rewrite filter_cons, filter_nil.
    destruct (decide (dig x = v)) as [->|Hne].
    + rewrite IH. simpl. f_equal. lia.
    + rewrite IH. f_equal. simpl. lia.
Qed.

Lemma length_exclusive_prefix_sum (s : nat) (h : list nat) :
  length (exclusive_prefix_sum s h) = length h.
Proof. revert s. induction h as [|x h IH]; intros s; simpl; [done|]. by rewrite IH. Qed.

Lemma exclusive_prefix_sum_lookup (s : nat) (h : list nat) (v : nat) :
  v < length h →
  exclusive_prefix_sum s h !! v = Some (s + sum_list (take v h)).
Proof.
  revert s v. induction h as [|x h IH]; intros s [|v] Hv; simpl in *; try lia.
  - f_equal. lia.
  - rewrite IH by lia. f_equal. lia.
Qed.

Lemma sum_plain_histogram (SIZE : nat) (l : list T) (v : nat) :
  v ≤ SIZE →
  sum_list (take v (plain_histogram dig SIZE l)) = bucket_start dig v l.
Proof.
  induction v as [|v IH]; intros Hv.
  - by rewrite bucket_start_0.
  - rewrite (take_S_r _ v (count_of dig v l)) by (apply plain_histogram_lookup; lia).
    rewrite sum_list_with_app, IH, bucket_start_S by lia. simpl. lia.
Qed.

End plain_count.

(** C9. The counting loop unrolled twice over the even and odd counters,
    followed by the running sum of the pairs, leaves in [c[0..SIZE)] the
    exclusive prefix sum of the plain histogram of the digits. *)
Theorem unrolled_count_is_plain_count (OFFSET MASK SIZE : nat) (src n : nat)
    (m : list T) :
  src + n ≤ length m → MASK < SIZE →
  ∃ c, count_digits OFFSET MASK SIZE src n m = Some c ∧
    take SIZE c
      = exclusive_prefix_sum 0
          (plain_histogram (digit OFFSET MASK) SIZE (range m src n)).
Proof.
  intros Hsrc Hmask.
  destruct (count_digits_spec OFFSET MASK SIZE src n m)
    as (c & Hrun & Hlen & Hc); [done..|].
  exists c. split; [done|]. apply list_eq. intros v.
  destruct (decide (v < SIZE)) as [Hv|Hv].
  - rewrite lookup_take_lt, (Hc v Hv) by done.
    rewrite exclusive_prefix_sum_lookup
      by (by rewrite length_plain_histogram).
    by rewrite sum_plain_histogram by lia.
  - rewrite lookup_take_ge by lia. symmetry. apply lookup_ge_None.
    rewrite length_exclusive_prefix_sum, length_plain_histogram. lia.
Qed.

(** ** The pass over elements that share one digit *)

Lemma count_of_other (dig : T → nat) (v v' : nat) (l : list T) :
  (∀ x, x ∈ l → dig x = v) → v' ≠ v → count_of dig v' l = 0.
Proof.
  intros Hconst Hne. unfold count_of. rewrite filter_none; [done|].
  intros x Hx%Hconst. congruence.
Qed.

(** The test of the full bucket finds the digit [v] unless it is the last
    one, which the loop [for(j=0;j+1<SIZE;++j)] does not reach. *)
Lemma find_full_bucket_const_true (dig : T → nat) (SIZE n v : nat)
    (l : list T) (c : list nat) :
  length l = n → (∀ x, x ∈ l → dig x = v) → v + 1 < SIZE →
  (∀ v', v' < SIZE → c !! v' = Some (bucket_start dig v' l)) →
  find_full_bucket c n 0 (SIZE - 1) = Some true.
Proof.
  intros Hlen Hconst Hv Hc.
  destruct (find_full_bucket_spec dig c l n 0 (SIZE - 1)) as (b & -> & Hb).
  { intros v' Hv'. apply Hc. lia. }
  f_equal. apply Hb. exists v. split; [lia|]. by rewrite count_of_const.
Qed.

Lemma find_full_bucket_const_false (dig : T → nat) (SIZE n v : nat)
    (l : list T) (c : list nat) :
  length l = n → (∀ x, x ∈ l → dig x = v) → v + 1 = SIZE → 0 < n →
  (∀ v', v' < SIZE → c !! v' = Some (bucket_start dig v' l)) →
  find_full_bucket c n 0 (SIZE - 1) = Some false.
Proof.
  intros Hlen Hconst Hv Hn Hc.
  destruct (find_full_bucket_spec dig c l n 0 (SIZE - 1)) as (b & -> & Hb).
  { intros v' Hv'. apply Hc. lia. }
  destruct b; [|done]. destruct Hb as [Hb _].
  destruct (Hb eq_refl) as (v' & Hv' & Hcount).
  rewrite (count_of_other dig v) in Hcount by (done || lia). lia.
Qed.

(** The ends of the buckets, [d[j]=c[j+1]] and [d[SIZE-1]=n]. *)
Lemma bucket_ends_spec (dig : T → nat) (SIZE n : nat) (l : list T)
    (c0 : list nat) :
  0 < SIZE → length l = n → (∀ x, x ∈ l → dig x < SIZE) →
  length c0 = 2 * SIZE →
  (∀ v, v < SIZE → c0 !! v = Some (bucket_start dig v l)) →
  ∃ c1 c2,
    for_loop (λ j c, x ← aget c (j + 1); aset c (SIZE + j) x) 0 (SIZE - 1) c0
      = Some c1 ∧
    aset c1 (SIZE + (SIZE - 1)) n = Some c2 ∧
    length c2 = 2 * SIZE ∧
    (∀ v, v < SIZE → c2 !! v = Some (bucket_start dig v l)) ∧
    (∀ v, v < SIZE → c2 !! (SIZE + v) = Some (bucket_start dig (S v) l)).
Proof.
  intros HSIZE Hlen Hdig Hlenc0 Hc0.
  edestruct (for_loop_inv
    (λ j c, length c = 2 * SIZE ∧
       (∀ v, v < SIZE → c !! v = Some (bucket_start dig v l)) ∧
       (∀ v, v < j → c !! (SIZE + v) = Some (bucket_start dig (S v) l)))
    (λ j c, x ← aget c (j + 1); aset c (SIZE + j) x) 0 (SIZE - 1) c0)
    as (c1 & Hrun & Hlenc1 & Hc1 & Hd1); [| |].
  { split_and!; [exact Hlenc0|exact Hc0|]. intros; lia. }
  { intros j c Hj (Hlenc & Hc & Hd). unfold aget.
    rewrite Hc by lia. mstep. rewrite aset_Some by lia.
    eexists. split; [done|]. split_and!.
    - by rewrite length_insert.
    - intros v Hv. rewrite list_lookup_insert_ne by lia. by apply Hc.
    - intros v Hv. destruct (decide (v = j)) as [->|].
      + rewrite list_lookup_insert_eq by lia. f_equal. f_equal. lia.
      + rewrite list_lookup_insert_ne by lia. apply Hd. lia. }
  exists c1, (<[SIZE + (SIZE - 1):=n]> c1).
  split; [exact Hrun|]. split; [apply aset_Some; lia|]. split_and!.
  - by rewrite length_insert.
  - intros v Hv. rewrite list_lookup_insert_ne by lia. by apply Hc1.
  - intros v Hv. destruct (decide (v = SIZE - 1)) as [->|].
    + rewrite list_lookup_insert_eq by lia. f_equal.
      replace (S (SIZE - 1)) with SIZE by lia.
      rewrite bucket_start_all by auto. done.
    + rewrite list_lookup_insert_ne by lia. apply Hd1. lia.
Qed.

(** The permutation loop over elements of one digit: every element is
    found in its bucket, the chase does not start, nothing is written. *)
Lemma scatter_inplace_const (gas : nat) (OFFSET MASK SIZE : nat) (src n v : nat)
    (c : list nat) (m : list T) :
  src + n ≤ length m → n < gas →
  (∀ x, x ∈ range m src n → digit OFFSET MASK x = v) →
  length c = 2 * SIZE →
  (∀ v', v' < SIZE →
     c !! v' = Some (bucket_start (digit OFFSET MASK) v' (range m src n))) →
  (∀ v', v' < SIZE →
     c !! (SIZE + v')
       = Some (bucket_start (digit OFFSET MASK) (S v') (range m src n))) →
  ∃ c', scatter_inplace gas OFFSET MASK SIZE src c m = Some (c', m).
Proof.
  intros Hsrc Hgas Hconst Hlenc Hc Hd. unfold scatter_inplace.
  set (dig := digit OFFSET MASK) in *. set (L := range m src n) in *.
  assert (length L = n) as HlenL by (by apply length_range).
  assert (∀ j, bucket_start dig (S j) L ≤ n) as Hle.
  { intros j. rewrite <- HlenL. apply length_filter. }
  edestruct (for_loop_inv
    (λ j '(c', m'), m' = m ∧ length c' = 2 * SIZE ∧
       (∀ v', j ≤ v' < SIZE →
          (c' : list nat) !! v' = Some (bucket_start dig v' L)) ∧
       (∀ v', v' < SIZE → c' !! (SIZE + v') = Some (bucket_start dig (S v') L))))
    as ([c' m'] & -> & -> & _); [| |by eauto].
  { split_and!; [done|done| |done]. intros v' Hv'. apply Hc. lia. }
  intros j [c1 m1] Hj (-> & Hlenc1 & Hc1 & Hd1). unfold fill_bucket.
  edestruct (loop_inv
    (λ '(c', m'), m' = m ∧ length c' = 2 * SIZE ∧
       (∀ v', j < v' < SIZE →
          (c' : list nat) !! v' = Some (bucket_start dig v' L)) ∧
       (∀ v', v' < SIZE → c' !! (SIZE + v') = Some (bucket_start dig (S v') L)) ∧
       bucket_start dig j L ≤ c' !!! j ≤ bucket_start dig (S j) L)
    (λ '(c', m'), bucket_start dig (S j) L - c' !!! j)
    (λ '(c', m'), m' = m ∧ length c' = 2 * SIZE ∧
       (∀ v', S j ≤ v' < SIZE →
          (c' : list nat) !! v' = Some (bucket_start dig v' L)) ∧
       (∀ v', v' < SIZE → c' !! (SIZE + v') = Some (bucket_start dig (S v') L))))
    as ([c' m'] & Hrun & HQ); [| |intros [c2 m2]|].
  4: { exists (c', m'). split; [exact Hrun|exact HQ]. }
  { assert (c1 !!! j = bucket_start dig j L) as Hcj
      by (apply list_lookup_total_correct, Hc1; lia).
    pose proof (bucket_start_S dig j L).
    split_and!; [done|done| |done|lia|lia].
    intros v' Hv'. apply Hc1. lia. }
  { simpl. pose proof (Hle j). lia. }
  intros (-> & Hlenc2 & Hc2 & Hd2 & Hlo & Hhi). simpl.
  unfold aget. rewrite (list_lookup_lookup_total_lt c2 j) by lia. mstep.
  rewrite (Hd2 j) by lia. mstep.
  destruct (decide (c2 !!! j ≠ bucket_start dig (S j) L)) as [Hne|Heq].
  2: { split_and!; [done|done| |done]. intros v' Hv'. apply Hc2. lia. }
  set (k := c2 !!! j) in *. pose proof (Hle j) as HSj.
  destruct (lookup_lt_is_Some_2 L k) as [xk Hxk]; [lia|].
  rewrite (load_range m src n k xk Hxk). mstep.
  assert (dig xk = v) as Hdv by (by eapply Hconst, list_elem_of_lookup_2).
  assert (j = v) as Hjv.
  { destruct (decide (j = v)) as [|Hjv]; [done|].
    pose proof (bucket_start_S dig j L) as HS.
    rewrite (count_of_other dig v) in HS by done. lia. }
  fold dig. rewrite Hdv, <- Hjv. unfold chase.
  destruct gas as [|gas']; [lia|]. cbn [loop].
  rewrite decide_False by (intros Hjj; by apply Hjj). mstep.
  rewrite incr_total by lia. mstep. fold k.
  rewrite list_lookup_total_insert_eq by lia.
  split_and!; [done|by rewrite length_insert| | |lia|lia|lia].
  - intros v' Hv'. rewrite list_lookup_insert_ne by lia. apply Hc2. lia.
  - intros v' Hv'. rewrite list_lookup_insert_ne by lia. by apply Hd2.
Qed.

(** C4.  When all the elements of the range share the digit [v], the
    in-place pass leaves the memory as it is, for every [v].  The passes of
    the out-of-place engines exchange the roles of the buffers and copy
    nothing when [v] is not the last digit value ([v+1<SIZE]); for the last
    digit value [SIZE-1], which the test loop [j+1<SIZE] does not reach,
    they keep the roles and the scatter copies the [n] elements to [dst]
    in their order. *)
Theorem degenerate_pass (gas : nat) (OFFSET MASK SIZE : nat) (src dst n : nat)
    (destination : Z) (v : nat) (m : list T) :
  MASK < SIZE → src + n ≤ length m → n < gas →
  (∀ x, x ∈ range m src n → digit OFFSET MASK x = v) →
  (∃ c, inplace_partition gas OFFSET MASK SIZE src n m = Some (c, m)) ∧
  (v + 1 < SIZE →
     (∃ c, msd_partition OFFSET MASK SIZE src dst n destination m
        = Some (dst, src, xor1 destination, c, m)) ∧
     lsd_partition OFFSET MASK SIZE src dst n m = Some (dst, src, m)) ∧
  (v + 1 = SIZE → 0 < n → dst + n ≤ length m → disjoint src dst n →
     (∃ c m', msd_partition OFFSET MASK SIZE src dst n destination m
        = Some (src, dst, destination, c, m') ∧
        range m' dst n = range m src n ∧
        unchanged_outside (within dst n) m m') ∧
     (∃ m', lsd_partition OFFSET MASK SIZE src dst n m = Some (src, dst, m') ∧
        range m' dst n = range m src n ∧
        unchanged_outside (within dst n) m m')).
Proof.
  intros Hmask Hsrc Hgas Hconst.
  set (dig := digit OFFSET MASK) in *. set (L := range m src n) in *.
  assert (length L = n) as HlenL by (by apply length_range).
  assert (∀ x, dig x < SIZE) as Hdig.
  { intros x. pose proof (digit_le OFFSET MASK x). unfold dig. lia. }
  destruct (count_digits_spec OFFSET MASK SIZE src n m)
    as (c0 & Hcount & Hlenc0 & Hc0); [done..|]. fold dig L in Hc0.
  split_and!.
  - unfold inplace_partition. rewrite Hcount. mstep.
    destruct (bucket_ends_spec dig SIZE n L c0)
      as (c1 & c2 & -> & Hc2 & Hlenc2 & Hlo & Hhi); [lia|done|by auto|done..|].
    mstep. rewrite Hc2. mstep.
    destruct (find_full_bucket_spec dig c2 L n 0 (SIZE - 1))
      as ([|] & -> & _); [intros v' Hv'; apply Hlo; lia| |]; mstep.
    + by eauto.
    + by apply (scatter_inplace_const gas OFFSET MASK SIZE src n v).
  - intros Hv. unfold msd_partition, lsd_partition. rewrite Hcount. mstep.
    rewrite (find_full_bucket_const_true dig SIZE n v L c0) by done. mstep.
    by eauto.
  - intros Hv Hn Hdst Hsep. unfold msd_partition, lsd_partition.
    rewrite Hcount. mstep.
    rewrite (find_full_bucket_const_false dig SIZE n v L c0) by done. mstep.
    destruct (scatter_spec OFFSET MASK SIZE src dst n c0 m)
      as (c' & m' & -> & Hlen' & Hrange & _ & Hun); [done..|]. mstep.
    fold dig L in Hrange.
    rewrite (concat_buckets_const dig SIZE v L) in Hrange by (done || lia).
    split; [exists c', m'|exists m']; done.
Qed.

(** * Further properties of the library *)

(** ** The sorted sequence is determined *)

(** Two stable sorts of one sequence are equal. *)
Lemma stable_sort_unique (kf : T → N) (l1 l2 : list T) :
  sorted_by kf l1 → sorted_by kf l2 → same_runs kf l1 l2 → l1 = l2.
Proof.
  revert l2. induction l1 as [|x l1 IH]; intros l2 H1 H2 Hruns.
  { symmetry. by apply (same_runs_nil_inv kf). }
  apply sorted_by_cons in H1 as [Hx H1].
  pose proof (Hruns (kf x)) as Hk. rewrite (filter_cons_True _ x l1) in Hk by done.
  apply filter_cons_inv in Hk as (a & b & -> & Ha & _).
  destruct a as [|y a].
  - change ([] ++ x :: b) with (x :: b) in *.
    apply sorted_by_cons in H2 as [_ H2]. f_equal. apply IH; [done..|].
    intros k. specialize (Hruns k). rewrite !filter_cons in Hruns.
    destruct (decide (kf x = k)); congruence.
  - exfalso.
    assert (y ∈ x :: l1) as Hy.
    { apply (same_runs_elem_of kf _ _ y Hruns). set_solver. }
    assert (kf x ≤ kf y)%N as Hxy.
    { apply elem_of_cons in Hy as [->|Hy]; [done|by apply Hx]. }
    assert (kf y ≤ kf x)%N as Hyx.
    { change ((y :: a) ++ x :: b) with (y :: (a ++ x :: b)) in H2.
      apply sorted_by_cons in H2 as [Hy2 _]. apply Hy2. set_solver. }
    rewrite filter_cons_True in Ha by lia. done.
Qed.

Lemma stable_sort_of_unique (kf : T → N) (l l1 l2 : list T) :
  stable_sort_of kf l l1 → stable_sort_of kf l l2 → l1 = l2.
Proof.
  intros [Hs1 Hr1] [Hs2 Hr2]. apply (stable_sort_unique kf); [done..|].
  intros k. by rewrite Hr1, Hr2.
Qed.

(** A sorted sequence is its own stable sort. *)
Lemma stable_sort_of_sorted (kf : T → N) (l : list T) :
  sorted_by kf l → stable_sort_of kf l l.
Proof. intros Hl. split; [done|]. apply same_runs_refl. Qed.

(** Two sorts of a sequence whose keys tell its elements apart are equal. *)
Lemma sort_of_unique (l l1 l2 : list T) :
  (∀ x y, x ∈ l → y ∈ l → get_key x = get_key y → x = y) →
  sort_of l l1 → sort_of l l2 → l1 = l2.
Proof.
  intros Hinj [Hs1 Hp1] [Hs2 Hp2].
  apply (StronglySorted_unique_strong (λ x y, (get_key x ≤ get_key y)%N));
    [|done|done|by rewrite <- Hp1, <- Hp2].
  intros x y Hx Hy Hxy Hyx. apply Hinj; [by rewrite Hp1|by rewrite Hp2|lia].
Qed.

(** ** fallback_sort *)

(** X1. [fallback_sort] leaves the stable sort of [src[0..n)] in the buffer
    that [destination] selects ([src] for [0], [tmp] for every other
    value), returns that buffer, and writes to the two buffers only. *)
Theorem fallback_sort_stable_sort (gas : nat) (src tmp n : nat) (destination : Z)
    (m : list T) :
  n < gas → src + n ≤ length m → tmp + n ≤ length m → disjoint src tmp n →
  ∃ m', fallback_sort gas src tmp n destination m
      = Some (if decide (destination = 0%Z) then src else tmp, m') ∧
    length m' = length m ∧
    stable_sort_of get_key (range m src n)
      (range m' (if decide (destination = 0%Z) then src else tmp) n) ∧
    unchanged_outside (buffers src tmp n) m m'.
Proof. apply fallback_sort_spec. Qed.

(** Up to 18 elements: the insertion sort into the destination buffer. *)
Lemma fallback_sort_small_spec (gas : nat) (src tmp n : nat) (destination : Z)
    (m : list T) :
  n ≤ 18 → n < gas → src + n ≤ length m →
  (destination = 0%Z ∨ tmp = src ∨
   (tmp + n ≤ length m ∧ disjoint src tmp n)) →
  ∃ m', fallback_sort gas src tmp n destination m
      = Some (if decide (destination = 0%Z) then src else tmp, m') ∧
    length m' = length m ∧
    stable_sort_of get_key (range m src n)
      (range m' (if decide (destination = 0%Z) then src else tmp) n) ∧
    unchanged_outside
      (within (if decide (destination = 0%Z) then src else tmp) n) m m'.
Proof.
  intros Hsmall Hgas Hsrc Htmp. destruct gas as [|gas']; [lia|].
  cbn [fallback_sort]. rewrite decide_True by done.
  set (d := if decide (destination = 0%Z) then src else tmp).
  destruct (insertion_sort_spec (S gas') src d n m)
    as (m' & -> & Hlen & Hsort & Hun); [done|done| | |].
  - unfold d. destruct (decide (destination = 0%Z)); [done|].
    destruct Htmp as [?|[->|[? _]]]; done.
  - unfold d. destruct (decide (destination = 0%Z)); [by left|].
    destruct Htmp as [?|[->|[_ ?]]]; [done|by left|by right].
  - mstep. by eauto.
Qed.

(** X2. Up to 18 elements [fallback_sort] is an insertion sort into the
    destination buffer, and writes to that buffer only.  With
    [destination=0] the sort is in place and [tmp] is not used at all;
    with another [destination] and a [tmp] apart from [src] the input
    stays in [src]. *)
Theorem fallback_sort_small (gas : nat) (src tmp n : nat) (destination : Z)
    (m : list T) :
  n ≤ 18 → n < gas → src + n ≤ length m →
  (destination = 0%Z ∨ tmp = src ∨
   (tmp + n ≤ length m ∧ disjoint src tmp n)) →
  ∃ m', fallback_sort gas src tmp n destination m
      = Some (if decide (destination = 0%Z) then src else tmp, m') ∧
    length m' = length m ∧
    stable_sort_of get_key (range m src n)
      (range m' (if decide (destination = 0%Z) then src else tmp) n) ∧
    unchanged_outside
      (within (if decide (destination = 0%Z) then src else tmp) n) m m'.
Proof. apply fallback_sort_small_spec. Qed.

(** ** The engines *)

(** X3. [radix_sort_msd_impl] sorts on the low [WIDTH] bits of the key,
    for a radix width below the 32 bits of [1u] and a [WIDTH] within the
    key: when the keys of [src[0..n)] agree above these bits, the stable
    sort of the range ends up in [src] for [destination=0] and in [dst]
    for [destination=1], and only the two buffers are written. *)
Theorem radix_sort_msd_impl_sorts (depth gas WIDTH BITS THRESHOLD : nat)
    (src dst n : nat) (destination : Z) (m : list T) :
  0 < BITS → BITS < 32 → 0 < WIDTH → WIDTH ≤ sizeof_key * CHAR_BIT →
  WIDTH ≤ depth * BITS →
  n < gas → src + n ≤ length m → dst + n ≤ length m → disjoint src dst n →
  (destination = 0 ∨ destination = 1)%Z →
  same_hi WIDTH (range m src n) →
  ∃ m', radix_sort_msd_impl depth gas WIDTH BITS THRESHOLD src dst n
          destination m
      = Some (if decide (destination = 0%Z) then src else dst, m') ∧
    length m' = length m ∧
    stable_sort_of get_key (range m src n)
      (range m' (if decide (destination = 0%Z) then src else dst) n) ∧
    unchanged_outside (buffers src dst n) m m'.
Proof.
  intros HBITS _ HWIDTH _ Hdepth.
  apply (radix_sort_msd_impl_spec depth gas WIDTH BITS THRESHOLD); done.
Qed.

(** X4. [radix_sort_lsd_impl] sorts on the high [WIDTH] bits of the key,
    for a radix width below the 32 bits of [1u]: when [src[0..n)] is the
    stable sort of a sequence [l0] on the bits below them, the buffer
    returned, [src] or [dst], holds the stable sort of [l0] on the whole
    key. *)
Theorem radix_sort_lsd_impl_sorts (depth WIDTH BITS : nat) (src dst n : nat)
    (m : list T) (l0 : list T) :
  0 < BITS → BITS < 32 →
  0 < WIDTH → WIDTH ≤ sizeof_key * CHAR_BIT → WIDTH ≤ depth * BITS →
  src + n ≤ length m → dst + n ≤ length m → disjoint src dst n →
  stable_sort_of (key_lo (sizeof_key * CHAR_BIT - WIDTH)) l0 (range m src n) →
  ∃ ret m', radix_sort_lsd_impl depth WIDTH BITS src dst n m = Some (ret, m') ∧
    (ret = src ∨ ret = dst) ∧ length m' = length m ∧
    stable_sort_of (key_lo (sizeof_key * CHAR_BIT)) l0 (range m' ret n) ∧
    unchanged_outside (buffers src dst n) m m'.
Proof. intros HBITS _. by apply radix_sort_lsd_impl_spec. Qed.

(** X5. [radix_sort_msd_inplace_impl], for a radix width below the 32 bits
    of [1u], a [WIDTH] within the key and a local array [tmp[THRESHOLD]]
    that is not empty, sorts [src[0..n)] on the low [WIDTH] bits when the
    keys agree above them, and writes to that range only: the array [tmp]
    of the small case is local. *)
Theorem radix_sort_msd_inplace_impl_sorts (depth gas WIDTH BITS THRESHOLD : nat)
    (src n : nat) (m : list T) :
  0 < BITS → BITS < 32 → 0 < THRESHOLD →
  0 < WIDTH → WIDTH ≤ sizeof_key * CHAR_BIT → WIDTH ≤ depth * BITS →
  n < gas → src + n ≤ length m → same_hi WIDTH (range m src n) →
  ∃ m', radix_sort_msd_inplace_impl depth gas WIDTH BITS THRESHOLD src n m
      = Some m' ∧
    length m' = length m ∧
    sort_of (range m src n) (range m' src n) ∧
    unchanged_outside (within src n) m m'.
Proof.
  intros HBITS _ _ HWIDTH _ Hdepth.
  apply (radix_sort_msd_inplace_impl_spec depth gas WIDTH BITS THRESHOLD); done.
Qed.

(** ** The out-of-place wrappers, used as they are *)

(** X6. [radix_sort_msd], for every radix width below the 32 bits of [1u]
    and every threshold, sorts stably into [tmp] for [destination=1] and
    into [src] for every other value. *)
Theorem radix_sort_msd_sorts (depth gas BITS THRESHOLD : nat) (src tmp n : nat)
    (destination : Z) (m : list T) :
  key_fits → 0 < BITS → BITS < 32 → div_ceil key_bits BITS ≤ depth → n < gas →
  src + n ≤ length m → tmp + n ≤ length m → disjoint src tmp n →
  ∃ m', radix_sort_msd depth gas BITS THRESHOLD src tmp n destination m
      = Some (if decide (destination = 1%Z) then tmp else src, m') ∧
    length m' = length m ∧
    stable_sort_of get_key (range m src n)
      (range m' (if decide (destination = 1%Z) then tmp else src) n) ∧
    unchanged_outside (buffers src tmp n) m m'.
Proof. intros Hfit HBITS _. by apply radix_sort_msd_spec. Qed.

(** X7. [radix_sort_lsd], for every radix width below the 32 bits of [1u],
    sorts stably into [src] for [destination=0], into [tmp] for
    [destination=1], and into one of the two for every other value. *)
Theorem radix_sort_lsd_sorts (depth BITS : nat) (src tmp n : nat)
    (destination : Z) (m : list T) :
  key_fits → 0 < BITS → BITS < 32 → div_ceil key_bits BITS ≤ depth →
  src + n ≤ length m → tmp + n ≤ length m → disjoint src tmp n →
  ∃ ret m', radix_sort_lsd depth BITS src tmp n destination m = Some (ret, m') ∧
    (ret = src ∨ ret = tmp) ∧
    (destination = 0%Z → ret = src) ∧ (destination = 1%Z → ret = tmp) ∧
    length m' = length m ∧
    stable_sort_of get_key (range m src n) (range m' ret n) ∧
    unchanged_outside (buffers src tmp n) m m'.
Proof. intros Hfit HBITS _. by apply radix_sort_lsd_spec. Qed.

(** ** The entry points *)

(** X8. [radix_sort_stable] writes to [src[0..n)] and [tmp[0..n)] only, and
    [radix_sort_inplace], which needs [src] only, to [src[0..n)] only. *)
Theorem entry_points_frame (depth gas : nat) (src tmp n : nat)
    (destination mode : Z) (m : list T) :
  key_fits → div_ceil key_bits 8 ≤ depth → n < gas → src + n ≤ length m →
  (tmp + n ≤ length m → disjoint src tmp n →
   ∃ ret m', radix_sort_stable depth gas src tmp n destination mode m
       = Some (ret, m') ∧
     length m' = length m ∧
     ∀ a, ¬ within src n a → ¬ within tmp n a → m' !! a = m !! a) ∧
  (∃ m', radix_sort_inplace depth gas src n m = Some m' ∧
     length m' = length m ∧
     ∀ a, ¬ within src n a → m' !! a = m !! a).
Proof.
  intros Hfit Hdepth Hgas Hsrc. split.
  - intros Htmp Hsep.
    destruct (radix_sort_stable_ok depth gas src tmp n destination mode m)
      as (ret & m' & Hrun & _ & _ & _ & _ & Hlen & _ & [_ Hun]); [done..|].
    exists ret, m'. split_and!; [done..|].
    intros a Ha1 Ha2. apply Hun. unfold buffers. tauto.
  - destruct (radix_sort_inplace_ok depth gas src n m)
      as (m' & Hrun & Hlen & _ & [_ Hun]); [done..|].
    exists m'. done.
Qed.

(** X9. The sequence that [radix_sort_stable] returns depends on the input
    sequence only: not on [mode] nor on [destination], so that the two
    engines give the same output, and not on where the buffers are nor on
    what [tmp] and the rest of the memory hold. *)
Theorem output_depends_on_input_only (depth gas : nat) (n : nat)
    (src1 tmp1 : nat) (destination1 mode1 : Z) (m1 : list T)
    (src2 tmp2 : nat) (destination2 mode2 : Z) (m2 : list T) :
  key_fits → div_ceil key_bits 8 ≤ depth → n < gas →
  src1 + n ≤ length m1 → tmp1 + n ≤ length m1 → disjoint src1 tmp1 n →
  src2 + n ≤ length m2 → tmp2 + n ≤ length m2 → disjoint src2 tmp2 n →
  range m1 src1 n = range m2 src2 n →
  ∃ ret1 m1' ret2 m2',
    radix_sort_stable depth gas src1 tmp1 n destination1 mode1 m1
      = Some (ret1, m1') ∧
    radix_sort_stable depth gas src2 tmp2 n destination2 mode2 m2
      = Some (ret2, m2') ∧
    range m1' ret1 n = range m2' ret2 n.
Proof.
  intros Hfit Hdepth Hgas Hsrc1 Htmp1 Hsep1 Hsrc2 Htmp2 Hsep2 Hin.
  destruct (radix_sort_stable_ok depth gas src1 tmp1 n destination1 mode1 m1)
    as (ret1 & m1' & Hrun1 & _ & _ & _ & _ & _ & Hsort1 & _); [done..|].
  destruct (radix_sort_stable_ok depth gas src2 tmp2 n destination2 mode2 m2)
    as (ret2 & m2' & Hrun2 & _ & _ & _ & _ & _ & Hsort2 & _); [done..|].
  exists ret1, m1', ret2, m2'. split_and!; [done..|].
  rewrite Hin in Hsort1. by eapply stable_sort_of_unique.
Qed.

(** X10. On a sorted input [radix_sort_stable] returns the input sequence:
    sorting again changes nothing. *)
Theorem sorted_input_is_kept (depth gas : nat) (src tmp n : nat)
    (destination mode : Z) (m : list T) :
  key_fits → div_ceil key_bits 8 ≤ depth → n < gas →
  src + n ≤ length m → tmp + n ≤ length m → disjoint src tmp n →
  sorted (range m src n) →
  ∃ ret m', radix_sort_stable depth gas src tmp n destination mode m
      = Some (ret, m') ∧
    range m' ret n = range m src n.
Proof.
  intros Hfit Hdepth Hgas Hsrc Htmp Hsep Hsorted.
  destruct (radix_sort_stable_ok depth gas src tmp n destination mode m)
    as (ret & m' & Hrun & _ & _ & _ & _ & _ & Hsort & _); [done..|].
  exists ret, m'. split; [done|].
  eapply stable_sort_of_unique; [exact Hsort|by apply stable_sort_of_sorted].
Qed.

(** X11. When the keys tell the elements of the input apart, the two entry
    points leave the same sequence. *)
Theorem inplace_agrees_with_stable (depth gas : nat) (src tmp n : nat)
    (destination mode : Z) (m : list T) :
  key_fits → div_ceil key_bits 8 ≤ depth → n < gas →
  src + n ≤ length m → tmp + n ≤ length m → disjoint src tmp n →
  (∀ x y, x ∈ range m src n → y ∈ range m src n →
     get_key x = get_key y → x = y) →
  ∃ ret m1 m2,
    radix_sort_stable depth gas src tmp n destination mode m = Some (ret, m1) ∧
    radix_sort_inplace depth gas src n m = Some m2 ∧
    range m1 ret n = range m2 src n.
Proof.
  intros Hfit Hdepth Hgas Hsrc Htmp Hsep Hinj.
  destruct (radix_sort_stable_ok depth gas src tmp n destination mode m)
    as (ret & m1 & Hrun1 & _ & _ & _ & _ & _ & Hsort1 & _); [done..|].
  destruct (radix_sort_inplace_ok depth gas src n m)
    as (m2 & Hrun2 & _ & Hsort2 & _); [done..|].
  exists ret, m1, m2. split_and!; [done..|].
  eapply sort_of_unique; [exact Hinj|by apply stable_sort_of_sort_of|done].
Qed.

(** Below the threshold [radix_sort_msd_inplace_impl] is the fallback sort
    with a local buffer, which is stable. *)
Lemma radix_sort_msd_inplace_impl_small (depth gas WIDTH BITS THRESHOLD : nat)
    (src n : nat) (m : list T) :
  0 < depth → n < THRESHOLD → n < gas → src + n ≤ length m →
  ∃ m', radix_sort_msd_inplace_impl depth gas WIDTH BITS THRESHOLD src n m
      = Some m' ∧
    length m' = length m ∧
    stable_sort_of get_key (range m src n) (range m' src n) ∧
    unchanged_outside (within src n) m m'.
Proof.
  intros Hdepth Hsmall Hgas Hsrc. destruct depth as [|depth]; [lia|].
  cbn [radix_sort_msd_inplace_impl]. rewrite decide_True by done.
  destruct (fallback_sort_spec gas src (length m) n 0
    (m ++ replicate THRESHOLD T_default))
    as (m1 & -> & Hlen1 & Hsort & Hun);
    [done|rewrite length_app; lia|rewrite length_app, length_replicate; lia|
     unfold disjoint; lia|].
  mstep. rewrite decide_True in Hsort by done.
  rewrite length_app, length_replicate in Hlen1.
  exists (take (length m) m1). split_and!; [done| | |].
  - rewrite length_take. lia.
  - replace (range (take (length m) m1) src n) with (range m1 src n).
    2:{ symmetry. apply range_ext. intros i Hi. by rewrite lookup_take_lt by lia. }
    replace (range m src n)
      with (range (m ++ replicate THRESHOLD T_default) src n); [done|].
    apply range_ext. intros i Hi. by rewrite lookup_app_l by lia.
  - split; [rewrite length_take; lia|]. intros a Ha.
    destruct (decide (a < length m)) as [Hlt|Hge].
    + rewrite lookup_take_lt by done. destruct Hun as [_ Hun].
      rewrite Hun; [by rewrite lookup_app_l|].
      unfold buffers, within in *. lia.
    + rewrite lookup_take_ge by lia. symmetry. apply lookup_ge_None. lia.
Qed.

(** X12. On fewer than 128 elements [radix_sort_inplace] is stable, whatever
    the width of the keys: it is the fallback sort. *)
Theorem radix_sort_inplace_small_stable (depth gas : nat) (src n : nat)
    (m : list T) :
  0 < depth → n < 128 → n < gas → src + n ≤ length m →
  ∃ m', radix_sort_inplace depth gas src n m = Some m' ∧
    length m' = length m ∧
    stable_sort_of get_key (range m src n) (range m' src n) ∧
    unchanged_outside (within src n) m m'.
Proof.
  intros Hdepth Hsmall Hgas Hsrc. unfold radix_sort_inplace.
  assert (choose_bits n = 8) as ->.
  { unfold choose_bits. repeat case_decide; lia. }
  rewrite decide_True by done.
  by apply radix_sort_msd_inplace_impl_small.
Qed.

(** ** The passes *)

(** X13. The pass of the out-of-place engines is a stable partition by the
    digit: the buffer that is [dst] after the pass holds the elements of
    [src[0..n)] bucket after bucket, each bucket in the order of the
    input.  Either the elements were scattered to [dst], or the buffers
    exchanged their roles and the memory is as it was; in the MSD engine
    [destination] is flipped with the roles, so that it selects the same
    buffer as before. *)
Theorem partition_pass_stable (OFFSET MASK SIZE : nat) (src dst n : nat)
    (destination : Z) (m : list T) :
  MASK < SIZE → src + n ≤ length m → dst + n ≤ length m → disjoint src dst n →
  (∃ src' dst' m',
     lsd_partition OFFSET MASK SIZE src dst n m = Some (src', dst', m') ∧
     ((src' = src ∧ dst' = dst) ∨ (src' = dst ∧ dst' = src ∧ m' = m)) ∧
     range m' dst' n
       = concat (buckets (digit OFFSET MASK) SIZE (range m src n)) ∧
     unchanged_outside (within dst n) m m') ∧
  (∃ src' dst' destination' c m',
     msd_partition OFFSET MASK SIZE src dst n destination m
       = Some (src', dst', destination', c, m') ∧
     ((src' = src ∧ dst' = dst ∧ destination' = destination) ∨
      (src' = dst ∧ dst' = src ∧ destination' = xor1 destination ∧ m' = m)) ∧
     ((destination = 0 ∨ destination = 1)%Z →
        (if decide (destination' = 0%Z) then src' else dst')
          = (if decide (destination = 0%Z) then src else dst)) ∧
     range m' dst' n
       = concat (buckets (digit OFFSET MASK) SIZE (range m src n)) ∧
     unchanged_outside (within dst n) m m').
Proof.
  intros Hmask Hsrc Hdst Hsep.
  set (dig := digit OFFSET MASK). set (L := range m src n).
  assert (length L = n) as HlenL by (by apply length_range).
  destruct (count_digits_spec OFFSET MASK SIZE src n m)
    as (c0 & Hcount & Hlenc0 & Hc0); [done..|]. fold dig L in Hc0.
  destruct (find_full_bucket_spec dig c0 L n 0 (SIZE - 1))
    as (full & Hfind & Hfull); [intros v Hv; apply Hc0; lia|].
  unfold lsd_partition, msd_partition. rewrite Hcount. mstep.
  rewrite Hfind. mstep. destruct full.
  - destruct Hfull as [Hex _]. destruct (Hex eq_refl) as (v0 & Hv0 & Hn).
    assert (concat (buckets dig SIZE L) = L) as HL.
    { apply (concat_buckets_const dig SIZE v0); [lia|].
      apply count_of_full. by rewrite HlenL. }
    split.
    + exists dst, src, m. rewrite HL.
      split_and!; [done|by right|done|apply unchanged_refl].
    + exists dst, src, (xor1 destination), c0, m. rewrite HL.
      split_and!; [done|by right| |done|apply unchanged_refl].
      intros [-> | ->]; [by rewrite xor1_0|by rewrite xor1_1].
  - destruct (scatter_spec OFFSET MASK SIZE src dst n c0 m)
      as (c' & m' & -> & Hlen' & Hrange & _ & Hun); [done..|]. mstep.
    split.
    + exists src, dst, m'. split_and!; [done|by left|done|done].
    + exists src, dst, destination, c', m'.
      split_and!; [done|by left|done|done|done].
Qed.

(** X14. The pass of the in-place engine permutes [src[0..n)] so that every
    bucket holds the elements of its digit, leaves the ends of the
    buckets in [d=c+SIZE], and writes to [src[0..n)] only. *)
Theorem inplace_partition_places (gas : nat) (OFFSET MASK SIZE : nat)
    (src n : nat) (m : list T) :
  MASK < SIZE → src + n ≤ length m → n < gas →
  ∃ c m', inplace_partition gas OFFSET MASK SIZE src n m = Some (c, m') ∧
    range m' src n ≡ₚ range m src n ∧
    (∀ v, v < SIZE →
       c !! (SIZE + v)
         = Some (bucket_start (digit OFFSET MASK) (S v) (range m src n))) ∧
    (∀ v i, v < SIZE →
       bucket_start (digit OFFSET MASK) v (range m src n) ≤ i
         < bucket_start (digit OFFSET MASK) (S v) (range m src n) →
       ∃ x, m' !! (src + i) = Some x ∧ digit OFFSET MASK x = v) ∧
    unchanged_outside (within src n) m m'.
Proof.
  intros Hmask Hsrc Hgas.
  set (dig := digit OFFSET MASK). set (L := range m src n).
  assert (length L = n) as HlenL by (by apply length_range).
  assert (∀ x, dig x < SIZE) as Hdig.
  { intros x. pose proof (digit_le OFFSET MASK x). unfold dig. lia. }
  destruct (count_digits_spec OFFSET MASK SIZE src n m)
    as (c0 & Hcount & Hlenc0 & Hc0); [done..|]. fold dig L in Hc0.
  unfold inplace_partition. rewrite Hcount. mstep.
  destruct (bucket_ends_spec dig SIZE n L c0)
    as (c1 & c2 & -> & Hc2 & Hlenc2 & Hlo & Hhi); [lia|done|by auto|done..|].
  mstep. rewrite Hc2. mstep.
  destruct (find_full_bucket_spec dig c2 L n 0 (SIZE - 1))
    as (full & -> & Hfull); [intros v Hv; apply Hlo; lia|]. mstep.
  destruct full.
  - destruct Hfull as [Hex _]. destruct (Hex eq_refl) as (v0 & Hv0 & Hcnt).
    assert (∀ x, x ∈ L → dig x = v0) as Hconst.
    { apply count_of_full. by rewrite HlenL. }
    exists c2, m. split_and!; [done|done|done| |apply unchanged_refl].
    intros v i Hv Hi.
    rewrite !(bucket_start_const dig v0) in Hi by done.
    destruct (decide (v ≤ v0)), (decide (S v ≤ v0)); try lia.
    destruct (lookup_lt_is_Some_2 L i) as [x Hx]; [lia|].
    exists x. split.
    + by apply range_lookup_Some in Hx as [? _].
    + rewrite (Hconst x) by (by eapply list_elem_of_lookup_2). lia.
  - destruct (scatter_inplace_spec OFFSET MASK SIZE src n L m
      Hmask Hsrc HlenL gas c2 m)
      as (c' & m1 & -> & Hinv & Hcomp);
      [done|apply inplace_inv_init; (done || lia)|].
    destruct Hinv as (Hlen1 & Hun1 & Hperm & Hlenc' & Hd' & Hplaced).
    exists c', m1. split_and!; [done..| |done].
    intros v i Hv Hi. destruct (Hplaced v Hv) as [_ Hp]. apply Hp.
    rewrite (Hcomp v Hv). done.
Qed.

(** X15. On at most 18 elements, with a [mode] other than [0],
    [radix_sort_stable] is the insertion sort: with a [destination] other
    than [1] it sorts [src] in place and does not use [tmp] at all; with
    [destination=1] it writes to [tmp] only and the input stays in [src]. *)
Theorem radix_sort_stable_small (depth gas : nat) (src tmp n : nat)
    (destination mode : Z) (m : list T) :
  0 < depth → n ≤ 18 → n < gas → src + n ≤ length m → mode ≠ 0%Z →
  (destination ≠ 1%Z →
     ∃ m', radix_sort_stable depth gas src tmp n destination mode m
         = Some (src, m') ∧
       stable_sort_of get_key (range m src n) (range m' src n) ∧
       unchanged_outside (within src n) m m') ∧
  (destination = 1%Z → tmp + n ≤ length m → disjoint src tmp n →
     ∃ m', radix_sort_stable depth gas src tmp n destination mode m
         = Some (tmp, m') ∧
       stable_sort_of get_key (range m src n) (range m' tmp n) ∧
       unchanged_outside (within tmp n) m m').
Proof.
  intros Hdepth Hsmall Hgas Hsrc Hmode.
  assert (∀ d, radix_sort_stable depth gas src tmp n d mode m
    = fallback_sort gas src tmp n (if decide (d ≠ 1%Z) then 0%Z else d) m)
    as Hrun.
  { intros d. unfold radix_sort_stable.
    rewrite decide_True by (split; [done|]; right; left; lia).
    assert (choose_bits n = 8) as ->.
    { unfold choose_bits. repeat case_decide; lia. }
    rewrite decide_True by done. unfold radix_sort_msd.
    destruct depth as [|depth]; [lia|]. cbn [radix_sort_msd_impl].
    by rewrite decide_True by lia. }
  split.
  - intros Hd. rewrite Hrun, decide_True by done.
    destruct (fallback_sort_small_spec gas src tmp n 0 m)
      as (m' & -> & _ & Hsort & Hun); [done|done|done|by left|].
    rewrite decide_True in Hsort, Hun by done. by eauto.
  - intros -> Htmp Hsep. rewrite Hrun, decide_False by (intros H; by apply H).
    destruct (fallback_sort_small_spec gas src tmp n 1 m)
      as (m' & -> & _ & Hsort & Hun); [done|done|done|by auto|].
    rewrite decide_False in Hsort, Hun by done. by eauto.
Qed.

(** ** Equal keys *)

(** The byte radix passes of the LSD engine over elements of one key [K],
    none of whose bytes is [255]: every pass exchanges the roles of the
    buffers, and the data stays where it is. *)
Lemma radix_sort_lsd_impl_equal_keys (K : N) (n : nat) :
  (∀ i, i < sizeof_key →
     N.land (N.shiftr K (N.of_nat (8 * i))) 255 ≠ 255%N) →
  ∀ depth j src dst (m : list T),
    0 < j → j ≤ sizeof_key → j ≤ depth → src + n ≤ length m →
    (∀ x, x ∈ range m src n → get_key x = K) →
    radix_sort_lsd_impl depth (8 * j) 8 src dst n m = Some (src, m).
Proof.
  intros HK. induction depth as [|depth IH];
    intros j src dst m Hj Hjs Hd Hsrc Hkeys; [lia|].
  cbn [radix_sort_lsd_impl].
  assert (2 ^ (if decide (8 < 8 * j) then 8 else 8 * j) = 256) as ->.
  { destruct (decide (8 < 8 * j)); [done|]. by replace (8 * j) with 8 by lia. }
  change (256 - 1) with 255.
  set (OFFSET := sizeof_key * CHAR_BIT - 8 * j).
  set (v := N.to_nat (N.land (N.shiftr K (N.of_nat OFFSET)) 255)).
  assert (v + 1 < 256) as Hv.
  { pose proof (N.land_le_r (N.shiftr K (N.of_nat OFFSET)) 255).
    pose proof (HK (sizeof_key - j) ltac:(lia)) as Hne.
    replace (8 * (sizeof_key - j)) with OFFSET in Hne
      by (unfold OFFSET, CHAR_BIT; lia).
    unfold v. lia. }
  assert (lsd_partition OFFSET 255 256 src dst n m = Some (dst, src, m)) as ->.
  { unfold lsd_partition.
    destruct (count_digits_spec OFFSET 255 256 src n m)
      as (c & -> & _ & Hc); [done|lia|]. mstep.
    rewrite (find_full_bucket_const_true (digit OFFSET 255) 256 n v
               (range m src n) c); [done|by apply length_range| |done|done].
    intros x Hx. unfold digit. by rewrite (Hkeys x Hx). }
  mstep. destruct (decide (8 < 8 * j)) as [Hmore|Hlast]; [|done].
  replace (8 * j - 8) with (8 * (j - 1)) by lia.
  apply IH; [lia|lia|lia|done|done].
Qed.

(** X16. When all the keys are equal and no byte of the key is [255],
    [radix_sort_stable] in LSD mode with a [destination] other than [1]
    returns [src] and leaves the memory as it is: no element is copied,
    and [tmp] is not used. *)
Theorem lsd_equal_keys_copy_nothing (depth gas : nat) (src tmp n : nat)
    (destination : Z) (K : N) (m : list T) :
  0 < sizeof_key → sizeof_key ≤ depth → src + n ≤ length m →
  destination ≠ 1%Z →
  (∀ x, x ∈ range m src n → get_key x = K) →
  (∀ i, i < sizeof_key →
     N.land (N.shiftr K (N.of_nat (8 * i))) 255 ≠ 255%N) →
  radix_sort_stable depth gas src tmp n destination 0 m = Some (src, m).
Proof.
  intros Hkey Hdepth Hsrc Hdest Hkeys HK. unfold radix_sort_stable.
  rewrite decide_False by (intros [Hmode _]; by apply Hmode).
  unfold radix_sort_lsd.
  replace (sizeof_key * CHAR_BIT) with (8 * sizeof_key)
    by (unfold CHAR_BIT; lia).
  rewrite (radix_sort_lsd_impl_equal_keys K n HK) by done. mstep.
  rewrite decide_False by (intros [_ Hne]; by apply Hne). mstep.
  rewrite decide_False by (intros [Hd _]; by apply Hdest). done.
Qed.

End radixsort.

(** * The key helpers *)

(** X19. [make_key_from_signed] shifts the signed range onto the unsigned one:
    it keeps the order. *)
Theorem make_key_from_signed_monotone (x y : Z) :
  (- 2 ^ 31 ≤ x < 2 ^ 31)%Z → (- 2 ^ 31 ≤ y < 2 ^ 31)%Z →
  make_key_from_signed x = (x + 2 ^ 31)%Z ∧
  ((x < y)%Z ↔ (make_key_from_signed x < make_key_from_signed y)%Z).
Proof.
  assert (∀ z, (- 2 ^ 31 ≤ z < 2 ^ 31)%Z →
    make_key_from_signed z = (z + 2 ^ 31)%Z) as Hval.
  { intros z Hz. unfold make_key_from_signed, to_uint32, INT32_MIN.
    change (2 ^ 31)%Z with 2147483648%Z in *.
    change (2 ^ 32)%Z with 4294967296%Z in *.
    Z.div_mod_to_equations. lia. }
  intros Hx Hy. rewrite !Hval by done. split; [done|lia].
Qed.

(** Bits of 32-bit numbers. *)
Lemma lxor_pow2_31 (r : Z) :
  (0 ≤ r < 2 ^ 31)%Z → Z.lxor r (2 ^ 31) = (r + 2 ^ 31)%Z.
Proof.
  intros Hr. symmetry. apply Z.add_nocarry_lxor.
  apply Z.bits_inj'. intros i Hi.
  rewrite Z.land_spec, Z.bits_0, Z.pow2_bits_eqb by lia.
  destruct (Z.eqb_spec 31 i) as [<-|Hne]; [|by rewrite andb_false_r].
  rewrite <- (Z.mod_small r (2 ^ 31)) by lia.
  by rewrite Z.mod_pow2_bits_high by lia.
Qed.

Lemma lxor_ones_32 (r : Z) :
  (0 ≤ r < 2 ^ 32)%Z → Z.lxor r (2 ^ 32 - 1) = (2 ^ 32 - 1 - r)%Z.
Proof.
  intros Hr.
  assert (Z.land (Z.lxor r (Z.ones 32)) r = 0%Z) as Hland.
  { apply Z.bits_inj'. intros i Hi.
    rewrite Z.land_spec, Z.lxor_spec, Z.bits_0.
    destruct (Z.testbit r i) eqn:Hri; [|by rewrite andb_false_r].
    rewrite Z.testbit_ones_nonneg by lia.
    destruct (Z.ltb_spec i 32) as [Hlt|Hge]; [done|].
    rewrite <- (Z.mod_small r (2 ^ 32)), Z.mod_pow2_bits_high in Hri by lia.
    done. }
  apply Z.add_nocarry_lxor in Hland.
  assert (Z.lxor (Z.lxor r (Z.ones 32)) r = Z.ones 32) as Heq.
  { by rewrite (Z.lxor_comm r), Z.lxor_assoc, Z.lxor_nilpotent, Z.lxor_0_r. }
  rewrite Heq in Hland. change (2 ^ 32 - 1)%Z with (Z.ones 32). lia.
Qed.

(** The key of the bits of a float of sign [0], and of sign [1]. *)
Lemma make_key_from_float_positive (r : Z) :
  (0 ≤ r < 2 ^ 31)%Z → make_key_from_float r = (r + 2 ^ 31 - 0x007FFFFF)%Z.
Proof.
  intros Hr. unfold make_key_from_float.
  assert (to_int32 r = r) as ->.
  { unfold to_int32. change (2 ^ 31)%Z with 2147483648%Z in *.
    change (2 ^ 32)%Z with 4294967296%Z. Z.div_mod_to_equations. lia. }
  rewrite Z.shiftr_div_pow2, Z.div_small by lia.
  change (Z.lor (to_uint32 0) (to_uint32 0x80000000)) with (2 ^ 31)%Z.
  rewrite lxor_pow2_31 by done. unfold to_uint32.
  change (2 ^ 31)%Z with 2147483648%Z in *.
  change (2 ^ 32)%Z with 4294967296%Z. Z.div_mod_to_equations. lia.
Qed.

Lemma make_key_from_float_negative (r : Z) :
  (2 ^ 31 ≤ r < 2 ^ 32)%Z →
  make_key_from_float r = ((2 ^ 32 - 1 - r - 0x007FFFFF) mod 2 ^ 32)%Z.
Proof.
  intros Hr. unfold make_key_from_float.
  assert (Z.shiftr (to_int32 r) 31 = (-1)%Z) as ->.
  { rewrite Z.shiftr_div_pow2 by lia. unfold to_int32.
    change (2 ^ 31)%Z with 2147483648%Z in *.
    change (2 ^ 32)%Z with 4294967296%Z in *. Z.div_mod_to_equations. lia. }
  change (Z.lor (to_uint32 (-1)) (to_uint32 0x80000000)) with (2 ^ 32 - 1)%Z.
  rewrite lxor_ones_32 by lia. unfold to_uint32.
  rewrite (Z.mod_small (2 ^ 32 - 1 - r)) by lia. done.
Qed.

(** X20. [make_key_from_float] keeps the order of the floats that are not NaN
    (with [-0] before [+0]), and places every NaN above them. *)
Theorem make_key_from_float_order (a b : Z) :
  (0 ≤ a < 2 ^ 32)%Z → (0 ≤ b < 2 ^ 32)%Z →
  (0 ≤ make_key_from_float a < 2 ^ 32)%Z ∧
  (¬ float_is_nan a → ¬ float_is_nan b →
   (float_signed_magnitude a < float_signed_magnitude b)%Z →
   (make_key_from_float a < make_key_from_float b)%Z) ∧
  (float_is_nan a → ¬ float_is_nan b →
   (make_key_from_float b < make_key_from_float a)%Z) ∧
  (make_key_from_float (2 ^ 31) < make_key_from_float 0)%Z.
Proof.
  intros Ha Hb.
  unfold float_is_nan, float_signed_magnitude, float_sign, float_magnitude.
  split; [|split; [|split]].
  - unfold make_key_from_float, to_uint32. apply Z.mod_pos_bound. lia.
  - (destruct (decide (a < 2 ^ 31)%Z);
       [rewrite (make_key_from_float_positive a) by lia
       |rewrite (make_key_from_float_negative a) by lia]);
      (destruct (decide (b < 2 ^ 31)%Z);
       [rewrite (make_key_from_float_positive b) by lia
       |rewrite (make_key_from_float_negative b) by lia]);
      repeat case_bool_decide; try lia;
      change (2 ^ 31)%Z with 2147483648%Z in *;
      change (2 ^ 32)%Z with 4294967296%Z in *;
      intros; Z.div_mod_to_equations; lia.
  - (destruct (decide (a < 2 ^ 31)%Z);
       [rewrite (make_key_from_float_positive a) by lia
       |rewrite (make_key_from_float_negative a) by lia]);
      (destruct (decide (b < 2 ^ 31)%Z);
       [rewrite (make_key_from_float_positive b) by lia
       |rewrite (make_key_from_float_negative b) by lia]);
      change (2 ^ 31)%Z with 2147483648%Z in *;
      change (2 ^ 32)%Z with 4294967296%Z in *;
      intros; Z.div_mod_to_equations; lia.
  - vm_compute. done.
Qed.


(** * The exported instance: 32-bit items that are their own keys *)

Lemma GetKey_key_fits : key_fits GetKey.get_key 4.
Proof.
  split; [lia|]. intros x. unfold GetKey.get_key. by apply N.mod_lt.
Qed.

(** A sample of 300 items in three buckets of the top byte, with 300 cells
    for [tmp] behind them: the radix passes of the two entry points, the
    recursion on the buckets, the cycles of the in-place engine and the
    merge sort of the buckets of 100 items all run on it. *)
Definition sample_items : list N :=
  (λ i, N.of_nat (i mod 3) * 2 ^ 24 + N.of_nat (i * 7919 mod 65536))%N
    <$> seq 0 300.

Definition sample_memory : list N := sample_items ++ replicate 300 0%N.


Lemma sortedness_witness :
  (∃ ret m',
     radix_sort_stable GetKey.get_key 4 4%N 4 301 0 300 300 0 (-1)
       sample_memory = Some (ret, m') ∧
     (ret = 0 ∨ ret = 300) ∧ length m' = length sample_memory ∧
     length (range m' ret 300) = 300 ∧
     adjacent_sorted GetKey.get_key (range m' ret 300)) ∧
  (∃ m',
     radix_sort_inplace 0%N GetKey.get_key 4 4 301 0 300 sample_memory
       = Some m' ∧
     length m' = length sample_memory ∧
     length (range m' 0 300) = 300 ∧
     adjacent_sorted GetKey.get_key (range m' 0 300)).
Proof.
  destruct (sortedness 0%N GetKey.get_key 4 4%N 4 301 0 300 300 0 (-1)
              sample_memory) as [Hstable Hinplace].
  - apply GetKey_key_fits.
  - vm_compute. lia.
  - lia.
  - vm_compute. lia.
  - split; [|exact Hinplace]. apply Hstable.
    + vm_compute. lia.
    + unfold disjoint. lia.
Defined.

Lemma permutation_of_input_witness :
  (∃ ret m',
     radix_sort_stable GetKey.get_key 4 4%N 4 301 0 300 300 1 0
       sample_memory = Some (ret, m') ∧
     (ret = 0 ∨ ret = 300) ∧ length m' = length sample_memory ∧
     range sample_memory 0 300 ≡ₚ range m' ret 300) ∧
  (∃ m',
     radix_sort_inplace 0%N GetKey.get_key 4 4 301 0 300 sample_memory
       = Some m' ∧
     length m' = length sample_memory ∧
     range sample_memory 0 300 ≡ₚ range m' 0 300).
Proof.
  destruct (permutation_of_input 0%N GetKey.get_key 4 4%N 4 301 0 300 300 1 0
              sample_memory) as [Hstable Hinplace].
  - apply GetKey_key_fits.
  - vm_compute. lia.
  - lia.
  - vm_compute. lia.
  - split; [|exact Hinplace]. apply Hstable.
    + vm_compute. lia.
    + unfold disjoint. lia.
Defined.

(** Items with equal low 32 bits have equal keys: [3] and [2^32+3]. *)
Lemma stability_witness :
  ∃ ret m',
    radix_sort_stable GetKey.get_key 4 4%N 4 6 0 5 5 0 0
      [5; 3; 4294967299; 1; 4; 0; 0; 0; 0; 0]%N = Some (ret, m') ∧
    same_runs GetKey.get_key
      (range [5; 3; 4294967299; 1; 4; 0; 0; 0; 0; 0]%N 0 5) (range m' ret 5) ∧
    ∀ tag : N → nat,
      StronglySorted (λ x y, tag x < tag y)
        (range [5; 3; 4294967299; 1; 4; 0; 0; 0; 0; 0]%N 0 5) →
      ∀ i j x y, i < j →
        range m' ret 5 !! i = Some x → range m' ret 5 !! j = Some y →
        GetKey.get_key x = GetKey.get_key y → tag x < tag y.
Proof.
  apply (stability 0%N GetKey.get_key 4 4%N 4 6 0 5 5 0 0
           [5; 3; 4294967299; 1; 4; 0; 0; 0; 0; 0]%N).
  - apply GetKey_key_fits.
  - vm_compute. lia.
  - lia.
  - simpl. lia.
  - simpl. lia.
  - unfold disjoint. lia.
Defined.

Lemma destination_correct_witness :
  ∃ ret m',
    radix_sort_stable GetKey.get_key 4 4%N 4 6 0 5 5 1 (-1)
      [5; 3; 3; 1; 4; 0; 0; 0; 0; 0]%N = Some (ret, m') ∧
    (1%Z = 0%Z → ret = 0) ∧ (1%Z = 1%Z → ret = 5) ∧ (ret = 0 ∨ ret = 5) ∧
    stable_sort_of GetKey.get_key
      (range [5; 3; 3; 1; 4; 0; 0; 0; 0; 0]%N 0 5) (range m' ret 5).
Proof.
  apply (destination_correct 0%N GetKey.get_key 4 4%N 4 6 0 5 5 1 (-1)
           [5; 3; 3; 1; 4; 0; 0; 0; 0; 0]%N).
  - apply GetKey_key_fits.
  - vm_compute. lia.
  - lia.
  - simpl. lia.
  - simpl. lia.
  - unfold disjoint. lia.
Defined.

Lemma msd_dont_care_returns_src_witness :
  ∃ m',
    radix_sort_stable GetKey.get_key 4 4%N 4 6 0 5 5 7 (-1)
      [5; 3; 3; 1; 4; 0; 0; 0; 0; 0]%N = Some (0, m') ∧
    stable_sort_of GetKey.get_key
      (range [5; 3; 3; 1; 4; 0; 0; 0; 0; 0]%N 0 5) (range m' 0 5).
Proof.
  apply (msd_dont_care_returns_src 0%N GetKey.get_key 4 4%N 4 6 0 5 5 7 (-1)
           [5; 3; 3; 1; 4; 0; 0; 0; 0; 0]%N).
  - apply GetKey_key_fits.
  - vm_compute. lia.
  - lia.
  - simpl. lia.
  - simpl. lia.
  - unfold disjoint. lia.
  - unfold use_msd. lia.
  - lia.
  - lia.
Defined.

Lemma termination_witness :
  is_Some (fallback_sort GetKey.get_key 301 0 300 300 0 sample_memory) ∧
  is_Some (radix_sort_msd GetKey.get_key 4 4 301 8 128 0 300 300 0
             sample_memory) ∧
  is_Some (radix_sort_stable GetKey.get_key 4 4%N 4 301 0 300 300 0 (-1)
             sample_memory) ∧
  is_Some (radix_sort_msd_inplace_impl 0%N GetKey.get_key 4 301 (key_bits 4)
             8 128 0 300 sample_memory) ∧
  is_Some (radix_sort_inplace 0%N GetKey.get_key 4 4 301 0 300 sample_memory).
Proof.
  destruct (termination 0%N GetKey.get_key 4 4%N 4 301 8 128 0 300 300 0 (-1)
              sample_memory) as (Hout & Himpl & Hinplace).
  - apply GetKey_key_fits.
  - lia.
  - vm_compute. lia.
  - destruct Hout as (Hfallback & Hmsd & Hstable).
    + vm_compute. lia.
    + unfold disjoint. lia.
    + split_and!.
      * exact Hfallback.
      * apply Hmsd; [lia|lia|vm_compute; lia].
      * apply Hstable. vm_compute. lia.
      * apply Himpl; [lia|lia|lia|vm_compute; lia].
      * apply Hinplace. vm_compute. lia.
Defined.

Lemma boundary_sizes_witness :
  (∃ ret, radix_sort_stable GetKey.get_key 4 4%N 4 2 0 1 0 0 (-1) [7; 0]%N
     = Some (ret, [7; 0]%N)) ∧
  radix_sort_inplace 0%N GetKey.get_key 4 4 2 0 0 [7; 0]%N = Some [7; 0]%N ∧
  (∃ ret m', radix_sort_stable GetKey.get_key 4 4%N 4 2 0 1 1 0 (-1) [7; 0]%N
     = Some (ret, m') ∧ m' !! ret = [7; 0]%N !! 0) ∧
  radix_sort_inplace 0%N GetKey.get_key 4 4 2 0 1 [7; 0]%N = Some [7; 0]%N.
Proof.
  destruct (boundary_sizes 0%N GetKey.get_key 4 4%N 4 2 0 1 0 (-1) [7; 0]%N)
    as (Hstable0 & Hinplace0 & Hstable1 & Hinplace1).
  - apply GetKey_key_fits.
  - vm_compute. lia.
  - split_and!.
    + apply Hstable0; [lia|simpl; lia|simpl; lia].
    + apply Hinplace0; [lia|simpl; lia].
    + apply Hstable1; [lia|simpl; lia|simpl; lia|unfold disjoint; lia].
    + apply Hinplace1; [lia|simpl; lia].
Defined.

Lemma unrolled_count_is_plain_count_witness :
  ∃ c, count_digits GetKey.get_key 0 3 4 0 5 [5; 3; 3; 1; 4]%N = Some c ∧
    take 4 c
      = exclusive_prefix_sum 0
          (plain_histogram (digit GetKey.get_key 0 3) 4
             (range [5; 3; 3; 1; 4]%N 0 5)).
Proof.
  apply (unrolled_count_is_plain_count GetKey.get_key 0 3 4 0 5
           [5; 3; 3; 1; 4]%N).
  - simpl. lia.
  - lia.
Defined.

(** The items [1] and [5] share the digit [1] of the two low bits. *)
Lemma degenerate_pass_witness :
  (∃ c, inplace_partition GetKey.get_key 3 0 3 4 0 2 [1; 5; 0; 0]%N
     = Some (c, [1; 5; 0; 0]%N)) ∧
  (1 + 1 < 4 →
     (∃ c, msd_partition GetKey.get_key 0 3 4 0 2 2 0 [1; 5; 0; 0]%N
        = Some (2, 0, xor1 0, c, [1; 5; 0; 0]%N)) ∧
     lsd_partition GetKey.get_key 0 3 4 0 2 2 [1; 5; 0; 0]%N
       = Some (2, 0, [1; 5; 0; 0]%N)) ∧
  (1 + 1 = 4 → 0 < 2 → 2 + 2 ≤ length [1; 5; 0; 0]%N → disjoint 0 2 2 →
     (∃ c m', msd_partition GetKey.get_key 0 3 4 0 2 2 0 [1; 5; 0; 0]%N
        = Some (0, 2, 0%Z, c, m') ∧
        range m' 2 2 = range [1; 5; 0; 0]%N 0 2 ∧
        unchanged_outside (within 2 2) [1; 5; 0; 0]%N m') ∧
     (∃ m', lsd_partition GetKey.get_key 0 3 4 0 2 2 [1; 5; 0; 0]%N
        = Some (0, 2, m') ∧
        range m' 2 2 = range [1; 5; 0; 0]%N 0 2 ∧
        unchanged_outside (within 2 2) [1; 5; 0; 0]%N m')).
Proof.
  apply (degenerate_pass GetKey.get_key 3 0 3 4 0 2 2 0 1 [1; 5; 0; 0]%N).
  - lia.
  - simpl. lia.
  - lia.
  - intros x Hx. cbn in Hx.
    repeat (apply elem_of_cons in Hx as [->|Hx]; [reflexivity|]).
    by apply elem_of_nil in Hx.
Defined.

(** The items [255] and [511] share the last digit [255] of the low byte:
    the pass of the LSD engine and the pass of the out-of-place MSD engine
    keep the roles of the buffers and copy the two items to [dst]. *)
Lemma degenerate_pass_last_digit_copies :
  (∀ x, x ∈ range [255; 511; 0; 0]%N 0 2 →
     digit GetKey.get_key 0 255 x = 255) ∧
  lsd_partition GetKey.get_key 0 255 256 0 2 2 [255; 511; 0; 0]%N
    = Some (0, 2, [255; 511; 255; 511]%N) ∧
  lsd_partition GetKey.get_key 0 255 256 0 2 2 [255; 511; 0; 0]%N
    ≠ Some (2, 0, [255; 511; 0; 0]%N) ∧
  (∃ c, msd_partition GetKey.get_key 0 255 256 0 2 2 0 [255; 511; 0; 0]%N
     = Some (0, 2, 0%Z, c, [255; 511; 255; 511]%N)).
Proof.
  split_and!.
  - intros x Hx. cbn in Hx.
    repeat (apply elem_of_cons in Hx as [->|Hx]; [reflexivity|]).
    by apply elem_of_nil in Hx.
  - vm_compute. reflexivity.
  - vm_compute. discriminate.
  - eexists. vm_compute. reflexivity.
Qed.

(** * The exported function *)

(** [extern "C" void radix_sort(unsigned int *src, unsigned int *tmp,
    unsigned int n)]: the stable sort of 32-bit items into [src], with the
    engine chosen by the heuristic. *)
Definition radix_sort (depth gas : nat) (src tmp : nat) (n : nat)
    (m : list N) : option (list N) :=
  '(_, m) ← radix_sort_stable GetKey.get_key 4 4%N depth gas src tmp n 0 (-1) m;
  Some m.

Lemma StronglySorted_le_of_keys (l : list N) :
  (∀ x, x ∈ l → (x < 2 ^ 32)%N) →
  StronglySorted (λ x y, (GetKey.get_key x ≤ GetKey.get_key y)%N) l →
  StronglySorted N.le l.
Proof.
  intros Hl Hs. induction Hs as [|x l Hs IH Hx]; constructor.
  - apply IH. intros y Hy. apply Hl. set_solver.
  - rewrite Forall_forall in *. intros y Hy. specialize (Hx y Hy).
    unfold GetKey.get_key in Hx.
    rewrite !N.mod_small in Hx by (apply Hl; set_solver). done.
Qed.

(** X17. [radix_sort] leaves in [src] the items of the input in ascending
    order, that is the sequence a merge sort of the values gives, and
    writes to [src[0..n)] and [tmp[0..n)] only. *)
Theorem radix_sort_sorts_values (depth gas : nat) (src tmp n : nat)
    (m : list N) :
  4 ≤ depth → n < gas →
  src + n ≤ length m → tmp + n ≤ length m → disjoint src tmp n →
  (∀ x, x ∈ range m src n → (x < 2 ^ 32)%N) →
  ∃ m', radix_sort depth gas src tmp n m = Some m' ∧
    range m' src n = merge_sort N.le (range m src n) ∧
    unchanged_outside (buffers src tmp n) m m'.
Proof.
  intros Hdepth Hgas Hsrc Htmp Hsep Hitems.
  destruct (radix_sort_stable_ok 0%N GetKey.get_key 4 4%N depth gas src tmp n
              0 (-1) m)
    as (ret & m' & Hrun & _ & Hret & _ & _ & _ & [Hsorted Hruns] & Hun);
    [apply GetKey_key_fits|done..|].
  rewrite (Hret eq_refl) in *. unfold radix_sort. rewrite Hrun.
  exists m'. split_and!; [done| |done].
  assert (range m src n ≡ₚ range m' src n) as Hperm
    by (by eapply same_runs_Permutation).
  apply (StronglySorted_unique N.le).
  - apply StronglySorted_le_of_keys; [|done].
    intros x Hx. apply Hitems. by rewrite Hperm.
  - apply StronglySorted_merge_sort; apply _.
  - by rewrite merge_sort_Permutation.
Qed.

(** X18. [radix_sort_inplace] is not stable: on 128 items, the first with the
    key [2^24] and the others with the key [0], the last item comes out
    before the other items of its key. *)
Theorem radix_sort_inplace_not_stable :
  ∃ m m' : list N,
    radix_sort_inplace 0%N GetKey.get_key 4 4 129 0 128 m = Some m' ∧
    ¬ same_runs GetKey.get_key m m'.
Proof.
  set (m := (16777216 :: ((λ i, N.of_nat i * 2 ^ 32) <$> seq 1 127))%N).
  set (m' := ((127 * 2 ^ 32 :: ((λ i, N.of_nat i * 2 ^ 32) <$> seq 1 126))
              ++ [16777216])%N).
  exists m, m'. split_and!.
  - vm_compute. reflexivity.
  - intros Hruns. specialize (Hruns 0%N). vm_compute in Hruns. discriminate.
Qed.

(** * The further properties at the exported instance *)

(** Membership in a list that is written out. *)
Ltac each_element H :=
  cbn in H; repeat (apply elem_of_cons in H as [->|H]);
  try (by apply elem_of_nil in H).

Lemma fallback_sort_stable_sort_witness :
  ∃ m', fallback_sort GetKey.get_key 6 0 5 5 1
          [5; 3; 3; 1; 4; 0; 0; 0; 0; 0]%N = Some (5, m') ∧
    length m' = 10 ∧
    stable_sort_of GetKey.get_key
      (range [5; 3; 3; 1; 4; 0; 0; 0; 0; 0]%N 0 5) (range m' 5 5) ∧
    unchanged_outside (buffers 0 5 5) [5; 3; 3; 1; 4; 0; 0; 0; 0; 0]%N m'.
Proof.
  apply (fallback_sort_stable_sort 0%N GetKey.get_key 6 0 5 5 1
           [5; 3; 3; 1; 4; 0; 0; 0; 0; 0]%N).
  - lia.
  - simpl. lia.
  - simpl. lia.
  - unfold disjoint. lia.
Defined.

(** [tmp=100] is outside the memory. *)
Lemma fallback_sort_small_witness :
  ∃ m', fallback_sort GetKey.get_key 6 0 100 5 0 [5; 3; 3; 1; 4]%N
      = Some (0, m') ∧
    length m' = 5 ∧
    stable_sort_of GetKey.get_key (range [5; 3; 3; 1; 4]%N 0 5) (range m' 0 5) ∧
    unchanged_outside (within 0 5) [5; 3; 3; 1; 4]%N m'.
Proof.
  apply (fallback_sort_small 0%N GetKey.get_key 6 0 100 5 0 [5; 3; 3; 1; 4]%N).
  - lia.
  - lia.
  - simpl. lia.
  - left. reflexivity.
Defined.

(** A threshold of [3]: the bucket of the top byte [3] holds three items
    and is sorted by the engine, the bucket of the top byte [0] holds two. *)
Lemma radix_sort_msd_impl_sorts_witness :
  ∃ m', radix_sort_msd_impl GetKey.get_key 4 9 32 8 3 0 8 8 1
          [83886085; 50331651; 50331649; 16777217; 67108868; 50331650; 5; 3;
           0; 0; 0; 0; 0; 0; 0; 0]%N = Some (8, m') ∧
    length m' = 16 ∧
    stable_sort_of GetKey.get_key
      (range [83886085; 50331651; 50331649; 16777217; 67108868; 50331650;
              5; 3; 0; 0; 0; 0; 0; 0; 0; 0]%N 0 8) (range m' 8 8) ∧
    unchanged_outside (buffers 0 8 8)
      [83886085; 50331651; 50331649; 16777217; 67108868; 50331650; 5; 3;
       0; 0; 0; 0; 0; 0; 0; 0]%N m'.
Proof.
  apply (radix_sort_msd_impl_sorts 0%N GetKey.get_key 4 4 9 32 8 3 0 8 8 1
           [83886085; 50331651; 50331649; 16777217; 67108868; 50331650; 5; 3;
            0; 0; 0; 0; 0; 0; 0; 0]%N).
  - lia.
  - lia.
  - lia.
  - simpl. lia.
  - lia.
  - lia.
  - simpl. lia.
  - simpl. lia.
  - unfold disjoint. lia.
  - right. reflexivity.
  - intros x y Hx Hy. each_element Hx; each_element Hy; reflexivity.
Defined.

Lemma radix_sort_lsd_impl_sorts_witness :
  ∃ ret m', radix_sort_lsd_impl GetKey.get_key 4 4 32 8 0 5 5
              [5; 3; 3; 1; 4; 0; 0; 0; 0; 0]%N = Some (ret, m') ∧
    (ret = 0 ∨ ret = 5) ∧ length m' = 10 ∧
    stable_sort_of (key_lo GetKey.get_key (4 * CHAR_BIT))
      [5; 3; 3; 1; 4]%N (range m' ret 5) ∧
    unchanged_outside (buffers 0 5 5) [5; 3; 3; 1; 4; 0; 0; 0; 0; 0]%N m'.
Proof.
  apply (radix_sort_lsd_impl_sorts 0%N GetKey.get_key 4 4 32 8 0 5 5
           [5; 3; 3; 1; 4; 0; 0; 0; 0; 0]%N [5; 3; 3; 1; 4]%N).
  - lia.
  - lia.
  - lia.
  - simpl. lia.
  - lia.
  - simpl. lia.
  - simpl. lia.
  - unfold disjoint. lia.
  - split.
    + unfold sorted_by. cbn. repeat constructor; by vm_compute.
    + intros k. reflexivity.
Defined.

(** A threshold of [3]: the items are permuted into the buckets of the
    top byte, and the bucket of three items is sorted by the engine. *)
Lemma radix_sort_msd_inplace_impl_sorts_witness :
  ∃ m', radix_sort_msd_inplace_impl 0%N GetKey.get_key 4 9 32 8 3 0 8
          [83886085; 50331651; 50331649; 16777217; 67108868; 50331650; 5; 3]%N
      = Some m' ∧
    length m' = 8 ∧
    sort_of GetKey.get_key
      (range [83886085; 50331651; 50331649; 16777217; 67108868; 50331650;
              5; 3]%N 0 8) (range m' 0 8) ∧
    unchanged_outside (within 0 8)
      [83886085; 50331651; 50331649; 16777217; 67108868; 50331650; 5; 3]%N m'.
Proof.
  apply (radix_sort_msd_inplace_impl_sorts 0%N GetKey.get_key 4 4 9 32 8 3 0 8
           [83886085; 50331651; 50331649; 16777217; 67108868; 50331650;
            5; 3]%N).
  - lia.
  - lia.
  - lia.
  - lia.
  - simpl. lia.
  - lia.
  - lia.
  - simpl. lia.
  - intros x y Hx Hy. each_element Hx; each_element Hy; reflexivity.
Defined.

(** A radix of 4 bits, with 8 levels. *)
Lemma radix_sort_msd_sorts_witness :
  ∃ m', radix_sort_msd GetKey.get_key 4 8 6 4 3 0 5 5 7
          [5; 3; 3; 1; 4; 0; 0; 0; 0; 0]%N = Some (0, m') ∧
    length m' = 10 ∧
    stable_sort_of GetKey.get_key
      (range [5; 3; 3; 1; 4; 0; 0; 0; 0; 0]%N 0 5) (range m' 0 5) ∧
    unchanged_outside (buffers 0 5 5) [5; 3; 3; 1; 4; 0; 0; 0; 0; 0]%N m'.
Proof.
  apply (radix_sort_msd_sorts 0%N GetKey.get_key 4 8 6 4 3 0 5 5 7
           [5; 3; 3; 1; 4; 0; 0; 0; 0; 0]%N).
  - apply GetKey_key_fits.
  - lia.
  - lia.
  - vm_compute. lia.
  - lia.
  - simpl. lia.
  - simpl. lia.
  - unfold disjoint. lia.
Defined.

Lemma radix_sort_lsd_sorts_witness :
  ∃ ret m', radix_sort_lsd GetKey.get_key 4 8 4 0 5 5 1
              [5; 3; 3; 1; 4; 0; 0; 0; 0; 0]%N = Some (ret, m') ∧
    (ret = 0 ∨ ret = 5) ∧
    (1%Z = 0%Z → ret = 0) ∧ (1%Z = 1%Z → ret = 5) ∧
    length m' = 10 ∧
    stable_sort_of GetKey.get_key
      (range [5; 3; 3; 1; 4; 0; 0; 0; 0; 0]%N 0 5) (range m' ret 5) ∧
    unchanged_outside (buffers 0 5 5) [5; 3; 3; 1; 4; 0; 0; 0; 0; 0]%N m'.
Proof.
  apply (radix_sort_lsd_sorts 0%N GetKey.get_key 4 8 4 0 5 5 1
           [5; 3; 3; 1; 4; 0; 0; 0; 0; 0]%N).
  - apply GetKey_key_fits.
  - lia.
  - lia.
  - vm_compute. lia.
  - simpl. lia.
  - simpl. lia.
  - unfold disjoint. lia.
Defined.

Lemma entry_points_frame_witness :
  (∃ ret m',
     radix_sort_stable GetKey.get_key 4 4%N 4 6 1 6 5 0 (-1)
       [9; 5; 3; 3; 1; 4; 0; 0; 0; 0; 0; 9]%N = Some (ret, m') ∧
     length m' = 12 ∧
     ∀ a, ¬ within 1 5 a → ¬ within 6 5 a →
       m' !! a = [9; 5; 3; 3; 1; 4; 0; 0; 0; 0; 0; 9]%N !! a) ∧
  (∃ m',
     radix_sort_inplace 0%N GetKey.get_key 4 4 6 1 5
       [9; 5; 3; 3; 1; 4; 0; 0; 0; 0; 0; 9]%N = Some m' ∧
     length m' = 12 ∧
     ∀ a, ¬ within 1 5 a →
       m' !! a = [9; 5; 3; 3; 1; 4; 0; 0; 0; 0; 0; 9]%N !! a).
Proof.
  destruct (entry_points_frame 0%N GetKey.get_key 4 4%N 4 6 1 6 5 0 (-1)
              [9; 5; 3; 3; 1; 4; 0; 0; 0; 0; 0; 9]%N) as [Hstable Hinplace].
  - apply GetKey_key_fits.
  - vm_compute. lia.
  - lia.
  - simpl. lia.
  - split; [|exact Hinplace]. apply Hstable.
    + simpl. lia.
    + unfold disjoint. lia.
Defined.

(** The LSD engine into [src], and the MSD engine into [tmp] in another
    memory. *)
Lemma output_depends_on_input_only_witness :
  ∃ ret1 m1' ret2 m2',
    radix_sort_stable GetKey.get_key 4 4%N 4 6 0 5 5 0 0
      [5; 3; 3; 1; 4; 0; 0; 0; 0; 0]%N = Some (ret1, m1') ∧
    radix_sort_stable GetKey.get_key 4 4%N 4 6 6 0 5 1 1
      [9; 9; 9; 9; 9; 8; 5; 3; 3; 1; 4]%N = Some (ret2, m2') ∧
    range m1' ret1 5 = range m2' ret2 5.
Proof.
  apply (output_depends_on_input_only 0%N GetKey.get_key 4 4%N 4 6 5
           0 5 0 0 [5; 3; 3; 1; 4; 0; 0; 0; 0; 0]%N
           6 0 1 1 [9; 9; 9; 9; 9; 8; 5; 3; 3; 1; 4]%N).
  - apply GetKey_key_fits.
  - vm_compute. lia.
  - lia.
  - simpl. lia.
  - simpl. lia.
  - unfold disjoint. lia.
  - simpl. lia.
  - simpl. lia.
  - unfold disjoint. lia.
  - reflexivity.
Defined.

Lemma sorted_input_is_kept_witness :
  ∃ ret m',
    radix_sort_stable GetKey.get_key 4 4%N 4 6 0 5 5 1 0
      [1; 3; 4294967299; 4; 5; 0; 0; 0; 0; 0]%N = Some (ret, m') ∧
    range m' ret 5 = range [1; 3; 4294967299; 4; 5; 0; 0; 0; 0; 0]%N 0 5.
Proof.
  apply (sorted_input_is_kept 0%N GetKey.get_key 4 4%N 4 6 0 5 5 1 0
           [1; 3; 4294967299; 4; 5; 0; 0; 0; 0; 0]%N).
  - apply GetKey_key_fits.
  - vm_compute. lia.
  - lia.
  - simpl. lia.
  - simpl. lia.
  - unfold disjoint. lia.
  - unfold sorted, sorted_by. cbn. repeat constructor; by vm_compute.
Defined.

Lemma inplace_agrees_with_stable_witness :
  ∃ ret m1 m2,
    radix_sort_stable GetKey.get_key 4 4%N 4 6 0 5 5 0 (-1)
      [5; 3; 3; 1; 4; 0; 0; 0; 0; 0]%N = Some (ret, m1) ∧
    radix_sort_inplace 0%N GetKey.get_key 4 4 6 0 5
      [5; 3; 3; 1; 4; 0; 0; 0; 0; 0]%N = Some m2 ∧
    range m1 ret 5 = range m2 0 5.
Proof.
  apply (inplace_agrees_with_stable 0%N GetKey.get_key 4 4%N 4 6 0 5 5 0 (-1)
           [5; 3; 3; 1; 4; 0; 0; 0; 0; 0]%N).
  - apply GetKey_key_fits.
  - vm_compute. lia.
  - lia.
  - simpl. lia.
  - simpl. lia.
  - unfold disjoint. lia.
  - intros x y Hx Hy. each_element Hx; each_element Hy;
      intros Hk; vm_compute in Hk; (reflexivity || discriminate Hk).
Defined.

Lemma radix_sort_inplace_small_stable_witness :
  ∃ m', radix_sort_inplace 0%N GetKey.get_key 4 1 6 0 5
          [5; 3; 4294967299; 1; 4]%N = Some m' ∧
    length m' = 5 ∧
    stable_sort_of GetKey.get_key
      (range [5; 3; 4294967299; 1; 4]%N 0 5) (range m' 0 5) ∧
    unchanged_outside (within 0 5) [5; 3; 4294967299; 1; 4]%N m'.
Proof.
  apply (radix_sort_inplace_small_stable 0%N GetKey.get_key 4 1 6 0 5
           [5; 3; 4294967299; 1; 4]%N).
  - lia.
  - lia.
  - lia.
  - simpl. lia.
Defined.

Lemma partition_pass_stable_witness :
  (∃ src' dst' m',
     lsd_partition GetKey.get_key 0 3 4 0 5 5
       [5; 3; 3; 1; 4; 0; 0; 0; 0; 0]%N = Some (src', dst', m') ∧
     ((src' = 0 ∧ dst' = 5) ∨
      (src' = 5 ∧ dst' = 0 ∧ m' = [5; 3; 3; 1; 4; 0; 0; 0; 0; 0]%N)) ∧
     range m' dst' 5
       = concat (buckets (digit GetKey.get_key 0 3) 4
                   (range [5; 3; 3; 1; 4; 0; 0; 0; 0; 0]%N 0 5)) ∧
     unchanged_outside (within 5 5) [5; 3; 3; 1; 4; 0; 0; 0; 0; 0]%N m') ∧
  (∃ src' dst' destination' c m',
     msd_partition GetKey.get_key 0 3 4 0 5 5 0
       [5; 3; 3; 1; 4; 0; 0; 0; 0; 0]%N
       = Some (src', dst', destination', c, m') ∧
     ((src' = 0 ∧ dst' = 5 ∧ destination' = 0%Z) ∨
      (src' = 5 ∧ dst' = 0 ∧ destination' = xor1 0 ∧
       m' = [5; 3; 3; 1; 4; 0; 0; 0; 0; 0]%N)) ∧
     ((0 = 0 ∨ 0 = 1)%Z →
        (if decide (destination' = 0%Z) then src' else dst')
          = (if decide (0%Z = 0%Z) then 0 else 5)) ∧
     range m' dst' 5
       = concat (buckets (digit GetKey.get_key 0 3) 4
                   (range [5; 3; 3; 1; 4; 0; 0; 0; 0; 0]%N 0 5)) ∧
     unchanged_outside (within 5 5) [5; 3; 3; 1; 4; 0; 0; 0; 0; 0]%N m').
Proof.
  apply (partition_pass_stable GetKey.get_key 0 3 4 0 5 5 0
           [5; 3; 3; 1; 4; 0; 0; 0; 0; 0]%N).
  - lia.
  - simpl. lia.
  - simpl. lia.
  - unfold disjoint. lia.
Defined.

Lemma inplace_partition_places_witness :
  ∃ c m', inplace_partition GetKey.get_key 6 0 3 4 0 5 [5; 3; 3; 1; 4]%N
      = Some (c, m') ∧
    range m' 0 5 ≡ₚ range [5; 3; 3; 1; 4]%N 0 5 ∧
    (∀ v, v < 4 →
       c !! (4 + v)
         = Some (bucket_start (digit GetKey.get_key 0 3) (S v)
                   (range [5; 3; 3; 1; 4]%N 0 5))) ∧
    (∀ v i, v < 4 →
       bucket_start (digit GetKey.get_key 0 3) v
           (range [5; 3; 3; 1; 4]%N 0 5) ≤ i
         < bucket_start (digit GetKey.get_key 0 3) (S v)
             (range [5; 3; 3; 1; 4]%N 0 5) →
       ∃ x, m' !! (0 + i) = Some x ∧ digit GetKey.get_key 0 3 x = v) ∧
    unchanged_outside (within 0 5) [5; 3; 3; 1; 4]%N m'.
Proof.
  apply (inplace_partition_places 0%N GetKey.get_key 6 0 3 4 0 5
           [5; 3; 3; 1; 4]%N).
  - lia.
  - simpl. lia.
  - lia.
Defined.

(** [tmp=100] is outside the memory. *)
Lemma radix_sort_stable_small_witness :
  (7%Z ≠ 1%Z →
     ∃ m', radix_sort_stable GetKey.get_key 4 4%N 1 6 0 100 5 7 (-1)
             [5; 3; 3; 1; 4]%N = Some (0, m') ∧
       stable_sort_of GetKey.get_key
         (range [5; 3; 3; 1; 4]%N 0 5) (range m' 0 5) ∧
       unchanged_outside (within 0 5) [5; 3; 3; 1; 4]%N m') ∧
  (7%Z = 1%Z → 100 + 5 ≤ length [5; 3; 3; 1; 4]%N → disjoint 0 100 5 →
     ∃ m', radix_sort_stable GetKey.get_key 4 4%N 1 6 0 100 5 7 (-1)
             [5; 3; 3; 1; 4]%N = Some (100, m') ∧
       stable_sort_of GetKey.get_key
         (range [5; 3; 3; 1; 4]%N 0 5) (range m' 100 5) ∧
       unchanged_outside (within 100 5) [5; 3; 3; 1; 4]%N m').
Proof.
  apply (radix_sort_stable_small 0%N GetKey.get_key 4 4%N 1 6 0 100 5 7 (-1)
           [5; 3; 3; 1; 4]%N).
  - lia.
  - lia.
  - lia.
  - simpl. lia.
  - lia.
Defined.

(** Three items of the key [7]; [tmp=100] is outside the memory. *)
Lemma lsd_equal_keys_copy_nothing_witness :
  radix_sort_stable GetKey.get_key 4 4%N 4 0 0 100 3 0 0
    [7; 4294967303; 7]%N = Some (0, [7; 4294967303; 7]%N).
Proof.
  apply (lsd_equal_keys_copy_nothing GetKey.get_key 4 4%N 4 0 0 100 3 0 7%N
           [7; 4294967303; 7]%N).
  - lia.
  - lia.
  - simpl. lia.
  - lia.
  - intros x Hx. each_element Hx; reflexivity.
  - intros i Hi. destruct i as [|[|[|[|i]]]]; [by vm_compute..|lia].
Defined.

Lemma radix_sort_sorts_values_witness :
  ∃ m', radix_sort 4 6 0 5 5 [5; 3; 3; 1; 4; 0; 0; 0; 0; 0]%N = Some m' ∧
    range m' 0 5
      = merge_sort N.le (range [5; 3; 3; 1; 4; 0; 0; 0; 0; 0]%N 0 5) ∧
    unchanged_outside (buffers 0 5 5) [5; 3; 3; 1; 4; 0; 0; 0; 0; 0]%N m'.
Proof.
  apply (radix_sort_sorts_values 4 6 0 5 5 [5; 3; 3; 1; 4; 0; 0; 0; 0; 0]%N).
  - lia.
  - lia.
  - simpl. lia.
  - simpl. lia.
  - unfold disjoint. lia.
  - intros x Hx. each_element Hx; reflexivity.
Defined.

Lemma make_key_from_signed_monotone_witness :
  make_key_from_signed (-5) = (-5 + 2 ^ 31)%Z ∧
  ((-5 < 3)%Z ↔ (make_key_from_signed (-5) < make_key_from_signed 3)%Z).
Proof.
  apply (make_key_from_signed_monotone (-5) 3).
  - lia.
  - lia.
Defined.

(** The bits of [-1.0] and of [1.0]. *)
Lemma make_key_from_float_order_witness :
  (0 ≤ make_key_from_float 0xBF800000 < 2 ^ 32)%Z ∧
  (¬ float_is_nan 0xBF800000 → ¬ float_is_nan 0x3F800000 →
   (float_signed_magnitude 0xBF800000 < float_signed_magnitude 0x3F800000)%Z →
   (make_key_from_float 0xBF800000 < make_key_from_float 0x3F800000)%Z) ∧
  (float_is_nan 0xBF800000 → ¬ float_is_nan 0x3F800000 →
   (make_key_from_float 0x3F800000 < make_key_from_float 0xBF800000)%Z) ∧
  (make_key_from_float (2 ^ 31) < make_key_from_float 0)%Z.
Proof.
  apply (make_key_from_float_order 0xBF800000 0x3F800000).
  - lia.
  - lia.
Defined.
